(** * custom-object-manager: the reconciliation engine and the three command
      flows of [src/cli.ts], embedded and verified.

    The program is a Node command line tool.  Its values are parsed JSON, its
    errors are JavaScript exceptions and rejected promises, and its effects
    are HTTP requests, console lines and file reads.  The embedding keeps
    these as they are:

    - JSON data is the inductive type [value]; arrays and objects carry the
      identity JavaScript compares them by;
    - a computation that can throw has type [result A];
    - an [async] function is a function from the events seen so far to the
      events it emits and its outcome, type [M A]; the remote service and the
      file system are the [world] it runs against.

    Modelling boundary.  Numbers occurring in JSON are integers.  A schema is
    a JSON object; its [properties], when present, is an array of JSON
    objects, and its [associations], when present and truthy, is an array.
    The answer to [GET /crm/v3/schemas] carries an array of schema objects.
    Member lookups on parsed values ignore what [Object.prototype] supplies
    (an inherited member is never callable as an array method and never equal
    to a parsed value, so comparisons see it as [undefined]).  The schema
    index is the finite map of its own keys together with the members every
    object inherits, which [meta[objectType]] finds as well.  lodash [get] is
    modelled for paths without brackets; what is proved of the identifiers it
    resolves is proved of identifiers without path characters.  The
    resolution of the glob is given, as the list of files a command runs
    on. *)

From Stdlib Require Import ZArith String Ascii List Bool Lia Permutation DecimalString.
From stdpp Require Import gmap strings.
Import ListNotations.
Set Warnings "-register-all".
Local Open Scope string_scope.
Local Open Scope list_scope.

(** ** Values *)

Inductive value : Type :=
  | VUndefined
  | VNull
  | VBool (b : bool)
  | VNum (n : Z)
  | VStr (s : string)
  | VArr (ref : nat) (elems : list value)
  | VObj (ref : nat) (fields : list (string * value)).

(** [a === b]: primitives by value, arrays and objects by identity. *)
Definition strict_eq (a b : value) : bool :=
  match a, b with
  | VUndefined, VUndefined => true
  | VNull, VNull => true
  | VBool x, VBool y => Bool.eqb x y
  | VNum x, VNum y => Z.eqb x y
  | VStr x, VStr y => String.eqb x y
  | VArr r _, VArr r' _ => Nat.eqb r r'
  | VObj r _, VObj r' _ => Nat.eqb r r'
  | _, _ => false
  end.

(** ToBoolean. *)
Definition truthy (v : value) : bool :=
  match v with
  | VUndefined | VNull => false
  | VBool b => b
  | VNum n => negb (Z.eqb n 0)
  | VStr s => negb (String.eqb s EmptyString)
  | VArr _ _ | VObj _ _ => true
  end.

Definition isArray (v : value) : bool :=
  match v with VArr _ _ => true | _ => false end.

Fixpoint join (sep : string) (parts : list string) : string :=
  match parts with
  | [] => EmptyString
  | [p] => p
  | p :: rest => p +:+ sep +:+ join sep rest
  end.

(** ToString, as a template literal applies it. *)
Fixpoint ToString (v : value) : string :=
  match v with
  | VUndefined => "undefined"
  | VNull => "null"
  | VBool true => "true"
  | VBool false => "false"
  | VNum n => NilZero.string_of_int (Z.to_int n)
  | VStr s => s
  | VArr _ elems =>
      join "," (map (fun e => match e with
                              | VUndefined | VNull => EmptyString
                              | _ => ToString e
                              end) elems)
  | VObj _ _ => "[object Object]"
  end.

(** ** Exceptions *)

Inductive exn : Type :=
  | TypeError      (* member access on null/undefined, call of a non-function *)
  | AxiosError     (* a rejected HTTP promise *)
  | ReadError.     (* readFileSync or JSON.parse failed *)

Inductive result (A : Type) : Type :=
  | Ok (a : A)
  | Throw (e : exn).
Arguments Ok {A} a.
Arguments Throw {A} e.

Definition rbind {A B} (m : result A) (k : A -> result B) : result B :=
  match m with
  | Ok a => k a
  | Throw e => Throw e
  end.

Notation "'let*' x ':=' m 'in' k" := (rbind m (fun x => k))
  (at level 10, x name, m at level 100, k at level 200).

(** ** Objects and member access *)

Fixpoint field (k : string) (fs : list (string * value)) : value :=
  match fs with
  | [] => VUndefined
  | (k', v) :: rest => if String.eqb k' k then v else field k rest
  end.

(** [v.k] for the keys the program names ([name], [label], [value],
    [objectTypeId]); none of them is a member of a primitive or an array. *)
Definition member (v : value) (k : string) : result value :=
  match v with
  | VUndefined | VNull => Throw TypeError
  | VObj _ fs => Ok (field k fs)
  | _ => Ok VUndefined
  end.

(** A JSON object: a property definition.  [obj_fields] lists the own
    properties in the order [Object.keys] enumerates them. *)
Record object : Type := Obj {
  obj_ref : nat;
  obj_fields : list (string * value)
}.

Definition get (o : object) (k : string) : value := field k (obj_fields o).
Definition keys (o : object) : list string := map fst (obj_fields o).

(** ** Array methods with callbacks that may throw *)

Fixpoint find {A} (f : A -> result bool) (l : list A) : result (option A) :=
  match l with
  | [] => Ok None
  | x :: rest =>
      let* b := f x in
      if b then Ok (Some x) else find f rest
  end.

Fixpoint every {A} (f : A -> result bool) (l : list A) : result bool :=
  match l with
  | [] => Ok true
  | x :: rest =>
      let* b := f x in
      if b then every f rest else Ok false
  end.

Fixpoint filter {A} (f : A -> result bool) (l : list A) : result (list A) :=
  match l with
  | [] => Ok []
  | x :: rest =>
      let* b := f x in
      let* rest' := filter f rest in
      Ok (if b then x :: rest' else rest')
  end.

Fixpoint reduce {A B} (f : B -> A -> result B) (l : list A) (acc : B) : result B :=
  match l with
  | [] => Ok acc
  | x :: rest =>
      let* acc' := f acc x in
      reduce f rest acc'
  end.

(** The receiver of an array method: anything but an array has no such
    method, and the call throws. *)
Definition elements (v : value) : result (list value) :=
  match v with
  | VArr _ l => Ok l
  | _ => Throw TypeError
  end.

Definition the_list {A} (o : option (list A)) : result (list A) :=
  match o with
  | Some l => Ok l
  | None => Throw TypeError
  end.

(** [!hit] for what [find] returns on an array of objects: an object is
    truthy, [undefined] is not. *)
Definition absent {A} (hit : option A) : bool :=
  match hit with
  | Some _ => false
  | None => true
  end.

(** Truthiness of what [find] returns on an array of values. *)
Definition found (r : option value) : bool :=
  match r with
  | Some v => truthy v
  | None => false
  end.

(** ** String.prototype.includes and Array.prototype.includes *)

Fixpoint str_includes (needle hay : string) : bool :=
  String.prefix needle hay ||
  match hay with
  | EmptyString => false
  | String _ rest => str_includes needle rest
  end.

Definition includes (v : value) (needle : string) : result bool :=
  match v with
  | VStr s => Ok (str_includes needle s)
  | VArr _ l => Ok (existsb (strict_eq (VStr needle)) l)
  | _ => Throw TypeError
  end.

(** ** [objectTypeRegex] and [String.prototype.match] (cli.ts, lines 10, 77)

    [RegExp("[/a-zA-Z0-9]+/([a-z_]+).json")], for paths written in ASCII.
    The matcher tries the start positions from the left and, at each, the
    alternatives in the order of a backtracking matcher: a [+] takes one
    more character before it gives way to what follows. *)

(** The class [[/a-zA-Z0-9]]. *)
Definition path_char (c : ascii) : bool :=
  let n := nat_of_ascii c in
  Nat.eqb n 47
  || (Nat.leb 97 n && Nat.leb n 122)
  || (Nat.leb 65 n && Nat.leb n 90)
  || (Nat.leb 48 n && Nat.leb n 57).

(** The class [[a-z_]]. *)
Definition type_char (c : ascii) : bool :=
  let n := nat_of_ascii c in
  (Nat.leb 97 n && Nat.leb n 122) || Nat.eqb n 95.

(** The pattern [.]: any character but a line terminator. *)
Definition any_char (c : ascii) : bool :=
  let n := nat_of_ascii c in
  negb (Nat.eqb n 10) && negb (Nat.eqb n 13).

(** [.json]: the character matched by the dot. *)
Definition dot_json (s : string) : option ascii :=
  match s with
  | String c rest => if any_char c && String.prefix "json" rest then Some c else None
  | EmptyString => None
  end.

(** [([a-z_]+).json]: the text captured and the character matched by the
    dot. *)
Fixpoint group_json (s : string) : option (string * ascii) :=
  match s with
  | String a rest =>
      if type_char a then
        match group_json rest with
        | Some (g, c) => Some (String a g, c)
        | None =>
            match dot_json rest with
            | Some c => Some (String a EmptyString, c)
            | None => None
            end
        end
      else None
  | EmptyString => None
  end.

(** The whole pattern at the start of [s]: the text taken by the first
    class, the text captured and the character matched by the dot. *)
Fixpoint match_here (s : string) : option (string * string * ascii) :=
  match s with
  | String a rest =>
      if path_char a then
        match match_here rest with
        | Some (dir, g, c) => Some (String a dir, g, c)
        | None =>
            match rest with
            | String "/" rest' =>
                match group_json rest' with
                | Some (g, c) => Some (String a EmptyString, g, c)
                | None => None
                end
            | _ => None
            end
        end
      else None
  | EmptyString => None
  end.

(** [x.match(objectTypeRegex)]: the text matched and the text captured, or
    [None] for [null]. *)
Fixpoint matchObjectType (x : string) : option (string * string) :=
  match match_here x with
  | Some (dir, g, c) => Some (dir +:+ "/" +:+ g +:+ String c "json", g)
  | None =>
      match x with
      | String _ rest => matchObjectType rest
      | EmptyString => None
      end
  end.

(** [files.map((x) => x.match(objectTypeRegex)!)]. *)
Definition objectTypes (files : list string) : list (option (string * string)) :=
  map matchObjectType files.

(** ** Option lists: [shouldContainAll] and [validateOptions]
       (cli.ts, lines 133-146) *)

(** The callback of [b.find]:
    [bOption.label === aOption.label && bOption.value === aOption.value]. *)
Definition sameOption (aOption bOption : value) : result bool :=
  let* bl := member bOption "label" in
  let* al := member aOption "label" in
  if strict_eq bl al then
    let* bv := member bOption "value" in
    let* av := member aOption "value" in
    Ok (strict_eq bv av)
  else Ok false.

Definition shouldContainAll (a b : value) : result bool :=
  let* a_elems := elements a in
  every (fun aOption =>
           let* b_elems := elements b in
           let* hit := find (fun bOption => sameOption aOption bOption) b_elems in
           Ok (found hit))
        a_elems.

Definition validateOptions (existingOptions currentOptions : value) : result bool :=
  let* forth := shouldContainAll existingOptions currentOptions in
  if forth then shouldContainAll currentOptions existingOptions else Ok false.

(** ** The three-way diff of [updateSchema] (cli.ts, lines 148-176) *)

(** The callback [(prop) => prop.name === name]. *)
Definition sameName (name : value) (p : object) : result bool :=
  Ok (strict_eq (get p "name") name).

(** Lines 152-157. *)
Definition toDelete (updatedProperties currentProperties : option (list object))
  : result (list object) :=
  let* current := the_list currentProperties in
  filter (fun p =>
            let name := get p "name" in
            let* hs := includes name "hs_" in
            let* reserved := if hs then Ok true else includes name "hubspot_" in
            if negb reserved then
              let* updated := the_list updatedProperties in
              let* hit := find (sameName name) updated in
              Ok (absent hit)
            else Ok false)
         current.

(** Lines 159-161. *)
Definition toCreate (updatedProperties currentProperties : option (list object))
  : result (list object) :=
  let* updated := the_list updatedProperties in
  filter (fun p =>
            let name := get p "name" in
            let* current := the_list currentProperties in
            let* hit := find (sameName name) current in
            Ok (absent hit))
         updated.

(** The comparison of one field, the body of the reducer (lines 169-174)
    once [acc] is known to be false. *)
Definition fieldDiffers (updatedProperty existingProperty : object) (curr : string)
  : result bool :=
  if isArray (get updatedProperty curr) then
    let* same := validateOptions (get updatedProperty curr)
                                 (get existingProperty curr) in
    Ok (negb same)
  else Ok (negb (strict_eq (get updatedProperty curr) (get existingProperty curr))).

(** The [reduce] over [Object.keys(updatedProperty)]. *)
Definition fieldsDiffer (updatedProperty existingProperty : object) : result bool :=
  reduce (fun (acc : bool) curr =>
            if acc then Ok acc
            else fieldDiffers updatedProperty existingProperty curr)
         (keys updatedProperty) false.

(** Lines 163-176. *)
Definition toUpdate (updatedProperties currentProperties : option (list object))
  : result (list object) :=
  let* updated := the_list updatedProperties in
  filter (fun updatedProperty =>
            let* current := the_list currentProperties in
            let* existingProperty :=
              find (sameName (get updatedProperty "name")) current in
            match existingProperty with
            | None => Ok false
            | Some existing => fieldsDiffer updatedProperty existing
            end)
         updated.

Record diff : Type := Diff {
  to_delete : list object;
  to_create : list object;
  to_update : list object
}.

(** The three filters, in the order [updateSchema] computes them before it
    issues any request. *)
Definition reconcile (updatedProperties currentProperties : option (list object))
  : result diff :=
  let* d := toDelete updatedProperties currentProperties in
  let* c := toCreate updatedProperties currentProperties in
  let* u := toUpdate updatedProperties currentProperties in
  Ok (Diff d c u).

(** ** Schemas, requests and events *)

(** A schema object, local (parsed from a file) or remote (a record of the
    registry): the four members the program reads, each possibly absent, and
    the members it only passes on. *)
Record Schema : Type := {
  name : value;
  objectTypeId : value;
  properties : option (list object);
  associations : option (list value);
  passed_on : list (string * value)
}.

Record Association : Type := {
  assoc_name : string;
  fromObjectTypeId : value;
  toObjectTypeId : value
}.

Inductive method : Type := GET | POST | DELETE | PATCH.

Inductive body : Type :=
  | NoBody
  | SchemaBody (s : Schema)
  | AssociationBody (a : Association)
  | PropertyBody (p : object).

Record request : Type := Request {
  req_method : method;
  req_url : string;
  req_body : body
}.

Inductive event : Type :=
  | Http (r : request)
  | Log (line : string)       (* console.log of a string *)
  | LogError (e : exn)        (* console.log of a caught error *)
  | Read (path : string).     (* readFileSync *)

(** What the program runs against.  The registry may answer a request by
    what it has seen so far. *)
Record world : Type := World {
  remote_schemas : option (list Schema);
  respond : list event -> request -> option value;
  read_file : string -> option Schema
}.

(** ** Asynchronous computations *)

Definition M (A : Type) : Type := list event -> list event * result A.

Definition ret {A} (a : A) : M A := fun _ => ([], Ok a).

Definition throw {A} (e : exn) : M A := fun _ => ([], Throw e).

Definition lift {A} (r : result A) : M A := fun _ => ([], r).

Definition bind {A B} (m : M A) (k : A -> M B) : M B :=
  fun seen =>
    match m seen with
    | (es, Ok a) => let (es', r) := k a (seen ++ es) in (es ++ es', r)
    | (es, Throw e) => (es, Throw e)
    end.

Definition try_catch {A} (m : M A) (handler : exn -> M A) : M A :=
  fun seen =>
    match m seen with
    | (es, Throw e) => let (es', r) := handler e (seen ++ es) in (es ++ es', r)
    | done => done
    end.

Notation "'let!' x ':=' m 'in' k" := (bind m (fun x => k))
  (at level 10, x name, m at level 100, k at level 200).
Notation "'let!' ' p ':=' m 'in' k" := (bind m (fun x => match x with p => k end))
  (at level 10, p pattern, m at level 100, k at level 200).

Definition log (line : string) : M unit := fun _ => ([Log line], Ok tt).

Definition log_error (e : exn) : M unit := fun _ => ([LogError e], Ok tt).

(** A [for ... of] loop whose body awaits, with the variables it updates. *)
Fixpoint for_of {A S} (l : list A) (s : S) (body : S -> A -> M S) : M S :=
  match l with
  | [] => ret s
  | x :: rest => let! s' := body s x in for_of rest s' body
  end.

(** The string-keyed members of [Object.prototype]: what [obj[key]] finds on
    a plain object that has no own property [key].  None of them is [null]
    or [undefined], and none has a member [objectTypeId] or [properties]. *)
Definition inherited (key : string) : bool :=
  existsb (String.eqb key)
    ["constructor"; "__proto__"; "hasOwnProperty"; "isPrototypeOf";
     "propertyIsEnumerable"; "toString"; "toLocaleString"; "valueOf";
     "__defineGetter__"; "__defineSetter__"; "__lookupGetter__";
     "__lookupSetter__"].

(** [_.keyBy(results, "name")] (line 26). *)
Definition keyBy (results : list Schema) : gmap string Schema :=
  fold_left (fun meta s => <[ToString (name s) := s]> meta) results ∅.

(** A record of the index as the JSON object it is. *)
Definition object_value (o : object) : value := VObj (obj_ref o) (obj_fields o).

Definition schema_value (s : Schema) : value :=
  VObj 0 (("name", name s)
          :: ("objectTypeId", objectTypeId s)
          :: ("properties",
              match properties s with
              | Some l => VArr 0 (map object_value l)
              | None => VUndefined
              end)
          :: ("associations",
              match associations s with
              | Some l => VArr 0 l
              | None => VUndefined
              end)
          :: passed_on s).

(** [v[key]] on parsed data: an own member of an object, an element or the
    length of an array or of a string.  What a value inherits from its
    prototype leads to no parsed object, so a path through it ends in
    [undefined]. *)
Fixpoint at_index {A} (key : string) (i : nat) (l : list A) : option A :=
  match l with
  | [] => None
  | x :: rest =>
      if String.eqb (NilZero.string_of_int (Z.to_int (Z.of_nat i))) key
      then Some x
      else at_index key (S i) rest
  end.

Definition own_member (v : value) (key : string) : value :=
  match v with
  | VObj _ fs => field key fs
  | VArr _ l =>
      if String.eqb key "length" then VNum (Z.of_nat (length l))
      else default VUndefined (at_index key 0 l)
  | VStr s =>
      if String.eqb key "length" then VNum (Z.of_nat (String.length s))
      else match at_index key 0 (list_ascii_of_string s) with
           | Some c => VStr (String c EmptyString)
           | None => VUndefined
           end
  | _ => VUndefined
  end.

(** The segments of a path without brackets: the text between its dots. *)
Fixpoint segments (path : string) : list string :=
  match path with
  | EmptyString => [EmptyString]
  | String c rest =>
      if Ascii.eqb c "."
      then EmptyString :: segments rest
      else match segments rest with
           | seg :: more => String c seg :: more
           | [] => [String c EmptyString]
           end
  end.

(** lodash [baseGet]: the walk stops at [null] and [undefined]. *)
Fixpoint walk (v : value) (path : list string) : value :=
  match path with
  | [] => v
  | key :: rest =>
      match v with
      | VUndefined | VNull => VUndefined
      | _ => walk (own_member v key) rest
      end
  end.

(** [_.get(meta, `${id}.objectTypeId`, id)] (lines 106-115).  lodash takes
    the whole path for one key when the index has that key; otherwise it
    walks the segments of the path from the index down, and gives the default
    when the walk ends in [undefined].  In an identifier that holds [[] or
    []] lodash reads a bracket syntax, which is not modelled: what is proved
    of the resolution is proved of identifiers free of [.], [[] and []]. *)
Definition lodash_get (meta : gmap string Schema) (id : value) : value :=
  let path := ToString id +:+ ".objectTypeId" in
  let result :=
    match meta !! path with
    | Some record => schema_value record
    | None =>
        match segments path with
        | key :: rest =>
            match meta !! key with
            | Some record => walk (schema_value record) rest
            | None => VUndefined
            end
        | [] => VUndefined
        end
    end in
  match result with
  | VUndefined => id
  | found => found
  end.

(** [pick(obj, "associations", [])] and [pick(obj, "properties")] (lines
    68-72): the value read (or the default when it is falsy) and the object
    with the key deleted. *)
Definition pick_associations (obj : Schema) : list value * Schema :=
  (default [] (associations obj),
   {| name := name obj; objectTypeId := objectTypeId obj;
      properties := properties obj; associations := None;
      passed_on := passed_on obj |}).

Definition pick_properties (obj : Schema) : option (list object) * Schema :=
  (properties obj,
   {| name := name obj; objectTypeId := objectTypeId obj;
      properties := None; associations := associations obj;
      passed_on := passed_on obj |}).

(** The record [{ objectTypeId }] stored after a successful create. *)
Definition created_record (id : value) : Schema :=
  {| name := VUndefined; objectTypeId := id; properties := None;
     associations := None; passed_on := [] |}.

Section Flows.

Variable w : world.

(** An axios call: the request is sent, and the promise resolves with the
    data of the response or rejects. *)
Definition http (r : request) : M value :=
  fun seen =>
    ([Http r],
     match respond w seen r with
     | Some data => Ok data
     | None => Throw AxiosError
     end).

(** Lines 21-22. *)
Definition readJSON (filePath : string) : M Schema :=
  fun _ =>
    ([Read filePath],
     match read_file w filePath with
     | Some parsed => Ok parsed
     | None => Throw ReadError
     end).

(** Lines 24-27. *)
Definition getExistingSchemas : M (gmap string Schema) :=
  fun _ =>
    ([Http (Request GET "/crm/v3/schemas" NoBody)],
     match remote_schemas w with
     | Some results => Ok (keyBy results)
     | None => Throw AxiosError
     end).

(** Lines 29-37: the id of the answer, or [null] once the failure is logged. *)
Definition createSchema (objectSchema : Schema) : M value :=
  try_catch
    (let! data := http (Request POST "/crm/v3/schemas" (SchemaBody objectSchema)) in
     lift (member data "objectTypeId"))
    (fun _ =>
       let! _ := log ("Failed to Create Schema " +:+ ToString (name objectSchema)) in
       ret VNull).

(** Lines 39-49. *)
Definition createAssociation (association : Association) : M value :=
  try_catch
    (http (Request POST
             ("/crm/v3/schemas/" +:+ ToString (fromObjectTypeId association)
                                 +:+ "/associations")
             (AssociationBody association)))
    (fun _ =>
       let! _ := log ("Failed to Create Association " +:+ assoc_name association) in
       ret VUndefined).

(** Lines 51-66: each of the two calls logs its error and throws it again;
    the outer [catch] logs the failure and returns [false]. *)
Definition deleteSchema (objectTypeId : value) : M bool :=
  try_catch
    (let! _ := try_catch
                 (http (Request DELETE ("/crm/v3/schemas/" +:+ ToString objectTypeId)
                          NoBody))
                 (fun e => let! _ := log_error e in throw e) in
     let! _ := try_catch
                 (http (Request DELETE
                          ("/crm/v3/schemas/" +:+ ToString objectTypeId +:+ "/purge")
                          NoBody))
                 (fun e => let! _ := log_error e in throw e) in
     ret true)
    (fun _ =>
       let! _ := log ("Failed to Delete Schema " +:+ ToString objectTypeId) in
       ret false).

(** The association a file declares towards [target] (lines 86-90). *)
Definition declared (objectType : string) (target : value) : Association :=
  {| toObjectTypeId := target;
     fromObjectTypeId := VStr objectType;
     assoc_name := objectType +:+ "_to_" +:+ ToString target |}.

(** The association as submitted (lines 104-116): both ends looked up in
    the index. *)
Definition resolved (meta : gmap string Schema) (a : Association) : Association :=
  {| assoc_name := assoc_name a;
     fromObjectTypeId := lodash_get meta (fromObjectTypeId a);
     toObjectTypeId := lodash_get meta (toObjectTypeId a) |}.

(** One turn of the first loop of [createSchemas] (lines 81-100).  An entry of
    [objectTypes] is a match of [objectTypeRegex] (the text matched, used as
    the file path, and the captured identifier) or [None] where the
    pattern did not match and destructuring throws.  The assignment
    [meta[objectType] = ...] adds or replaces an own key; under the
    identifier [__proto__] it replaces the prototype of the index instead,
    which the lookups of the flow can tell from an own key only under the key
    [objectTypeId]. *)
Definition createOne (st : gmap string Schema * list Association)
                     (entry : option (string * string))
  : M (gmap string Schema * list Association) :=
  let (meta, allAssociations) := st in
  match entry with
  | None => throw TypeError
  | Some (filePath, objectType) =>
      let! objectSchema := readJSON filePath in
      let (targets, objectSchema) := pick_associations objectSchema in
      let allAssociations := allAssociations ++ map (declared objectType) targets in
      let! objectTypeId := createSchema objectSchema in
      if truthy objectTypeId then
        let! _ := log ("Created " +:+ objectType) in
        ret (<[objectType := created_record objectTypeId]> meta, allAssociations)
      else ret (meta, allAssociations)
  end.

(** The second loop of [createSchemas] (lines 103-117). *)
Definition submitAll (meta : gmap string Schema) (allAssociations : list Association)
  : M unit :=
  for_of allAssociations tt
    (fun _ a => let! _ := createAssociation (resolved meta a) in ret tt).

(** Lines 74-118. *)
Definition createSchemas (objectTypes : list (option (string * string))) : M unit :=
  let! meta := getExistingSchemas in
  let! ' (meta, allAssociations) := for_of objectTypes (meta, []) createOne in
  submitAll meta allAssociations.

(** Lines 126-129, for the [objectTypeId] the lookup gave. *)
Definition deleteFound (meta : gmap string Schema) (objectType : string)
                       (objectTypeId : value) : M (gmap string Schema) :=
  let! success := deleteSchema objectTypeId in
  if success then
    let! _ := log ("Deleted " +:+ objectType) in ret meta
  else ret meta.

(** One turn of the loop of [deleteSchemas] (lines 124-130).
    [meta[objectType]] is the record under an own key, a member inherited
    from [Object.prototype], whose [objectTypeId] is [undefined], or
    [undefined], on which [.objectTypeId] throws. *)
Definition deleteOne (meta : gmap string Schema) (entry : option (string * string))
  : M (gmap string Schema) :=
  match entry with
  | None => throw TypeError
  | Some (_, objectType) =>
      match meta !! objectType with
      | Some record => deleteFound meta objectType (objectTypeId record)
      | None =>
          if inherited objectType
          then deleteFound meta objectType VUndefined
          else throw TypeError
      end
  end.

(** Lines 120-131. *)
Definition deleteSchemas (objectTypes : list (option (string * string))) : M unit :=
  let! meta := getExistingSchemas in
  let! _ := for_of objectTypes meta deleteOne in
  ret tt.

(** The bodies of the three loops of [updateSchema]: lines 178-185, 187-195
    and 197-207.  Only the last call has a [catch]. *)
Definition deleteProperty (currentSchema : Schema) (toDeleteProperty : object) : M unit :=
  let! _ := log ("Deleting property " +:+ ToString (get toDeleteProperty "name")
                   +:+ " on " +:+ ToString (name currentSchema)) in
  let! _ := http (Request DELETE
                    ("/properties/v2/" +:+ ToString (objectTypeId currentSchema)
                       +:+ "/properties/named/"
                       +:+ ToString (get toDeleteProperty "name"))
                    NoBody) in
  ret tt.

Definition createProperty (currentSchema : Schema) (toCreateProperty : object) : M unit :=
  let! _ := log ("Creating property " +:+ ToString (get toCreateProperty "name")
                   +:+ " on " +:+ ToString (name currentSchema)) in
  let! _ := http (Request POST
                    ("/properties/v2/" +:+ ToString (objectTypeId currentSchema)
                       +:+ "/properties")
                    (PropertyBody toCreateProperty)) in
  ret tt.

Definition updateProperty (currentSchema : Schema) (toUpdateProperty : object) : M unit :=
  let! _ := log ("Updating property " +:+ ToString (get toUpdateProperty "name")
                   +:+ " on " +:+ ToString (name currentSchema)) in
  let! _ := try_catch
              (http (Request PATCH
                       ("/properties/v2/" +:+ ToString (objectTypeId currentSchema)
                          +:+ "/properties/named/"
                          +:+ ToString (get toUpdateProperty "name"))
                       (PropertyBody toUpdateProperty)))
              (fun e => let! _ := log_error e in ret VUndefined) in
  ret tt.

(** The three loops that close [updateSchema] (lines 178-207). *)
Definition applyDiff (currentSchema : Schema) (d : diff) : M unit :=
  let! _ := for_of (to_delete d) tt (fun _ p => deleteProperty currentSchema p) in
  let! _ := for_of (to_create d) tt (fun _ p => createProperty currentSchema p) in
  for_of (to_update d) tt (fun _ p => updateProperty currentSchema p).

(** Lines 148-208.  [updateSchema] returns what its second argument has
    become: [pick] has deleted [properties] from the record the index holds. *)
Definition updateSchema (updatedSchema currentSchema : Schema) : M Schema :=
  let (updatedProperties, updatedSchema) := pick_properties updatedSchema in
  let (currentProperties, currentSchema) := pick_properties currentSchema in
  let! d := lift (reconcile updatedProperties currentProperties) in
  let! _ := applyDiff currentSchema d in
  ret currentSchema.

(** One turn of the loop of [updateSchemas] (lines 215-222).  A member
    inherited from [Object.prototype] is truthy, so the turn is not skipped:
    [updateSchema] is called on it, [pick] finds no [properties] there, and
    [currentProperties.filter] (line 152) throws before anything is logged or
    requested. *)
Definition updateOne (meta : gmap string Schema) (entry : option (string * string))
  : M (gmap string Schema) :=
  match entry with
  | None => throw TypeError
  | Some (filePath, objectType) =>
      let! objectSchema := readJSON filePath in
      match meta !! objectType with
      | None =>
          if inherited objectType then throw TypeError
          else
            let! _ := log ("Object Type " +:+ objectType
                             +:+ " does not exist to be updated.") in
            ret meta
      | Some record =>
          let! record' := updateSchema objectSchema record in
          ret (<[objectType := record']> meta)
      end
  end.

(** Lines 210-223. *)
Definition updateSchemas (objectTypes : list (option (string * string))) : M unit :=
  let! meta := getExistingSchemas in
  let! _ := for_of objectTypes meta updateOne in
  ret tt.

End Flows.

(** * Specification vocabulary and example data *)

(** ** Names and option pairs *)

(** An option of an option list: a JSON object. *)
Definition is_object (v : value) : Prop := exists r fs, v = VObj r fs.

(** Member access on [v] does not throw. *)
Definition defined (v : value) : Prop := v <> VUndefined /\ v <> VNull.

(** [v.label] and [v.value] where [v] can be read. *)
Definition label_of (v : value) : value :=
  match v with VObj _ fs => field "label" fs | _ => VUndefined end.

Definition value_of (v : value) : value :=
  match v with VObj _ fs => field "value" fs | _ => VUndefined end.

(** Two options are the same {label, value} pair. *)
Definition same_pair (a b : value) : bool :=
  strict_eq (label_of b) (label_of a) && strict_eq (value_of b) (value_of a).

(** Every pair of [A] occurs in [B]. *)
Definition covers (A B : list value) : bool :=
  forallb (fun a => found (List.find (same_pair a) B)) A.

(** The two lists hold the same set of {label, value} pairs. *)
Definition same_option_set (A B : list value) : Prop :=
  (forall a, In a A -> exists b, In b B /\ same_pair a b = true)
  /\ (forall b, In b B -> exists a, In a A /\ same_pair b a = true).

(** [B] holds the pairs of [A] in another order. *)
Definition reordered (A B : list value) : Prop :=
  exists A', Permutation A A' /\ Forall2 (fun a b => same_pair a b = true) A' B.

(** Some property of [l] has the name [n]; the first that has. *)
Definition named_in (n : value) (l : list object) : Prop :=
  exists q, In q l /\ strict_eq (get q "name") n = true.

Definition first_named (n : value) (l : list object) : option object :=
  List.find (fun q => strict_eq (get q "name") n) l.

(** The name of the property is a string. *)
Definition string_named (p : object) : Prop := exists s, get p "name" = VStr s.

Definition is_substring (needle s : string) : Prop :=
  exists pre post, s = pre +:+ needle +:+ post.

Definition begins_with_reserved (n : value) : bool :=
  match n with
  | VStr s => String.prefix "hs_" s || String.prefix "hubspot_" s
  | _ => false
  end.

(** ** The diff in the words of the specification *)

(** toDelete in the specification's words: current properties absent by name
    from updated whose name does not begin with a reserved prefix. *)
Definition toDelete_as_specified (updated current toDel : list object) : Prop :=
  forall p, In p toDel <->
            In p current /\ ~ named_in (get p "name") updated
            /\ begins_with_reserved (get p "name") = false.

(** The rule of the specification for one field: an array differs unless
    the other side is a list with the same set of pairs, anything else
    differs when the two values are not identical. *)
Definition differs_by_rule (x y : value) : Prop :=
  match x with
  | VArr _ A => ~ exists r B, y = VArr r B /\ same_option_set A B
  | _ => strict_eq x y = false
  end.

(** toUpdate in the specification's words. *)
Definition toUpdate_as_specified (updated current toUpd : list object) : Prop :=
  forall p, In p toUpd <->
            In p updated /\
            exists e, first_named (get p "name") current = Some e
                      /\ exists k, In k (keys p) /\ differs_by_rule (get p k) (get e k).

(** Every array-valued field of [p] is a list of option objects. *)
Definition well_formed_lists (p : object) : Prop :=
  forall k r A, get p k = VArr r A -> Forall is_object A.

(** The current field is the updated one, or a list of option objects that
    holds the same pairs in another order. *)
Definition permuted_or_identical (x y : value) : Prop :=
  match x with
  | VArr _ A =>
      exists r B, y = VArr r B /\ Forall is_object A /\ Forall is_object B
                  /\ reordered A B
  | _ => strict_eq x y = true
  end.

(** ** The callbacks of the three filters, for schemas that have
       property lists *)

(** The callback of toDelete on a property whose name is a string. *)
Definition keeps (updated : list object) (p : object) : bool :=
  match get p "name" with
  | VStr s =>
      negb (str_includes "hs_" s || str_includes "hubspot_" s)
      && absent (first_named (VStr s) updated)
  | _ => false
  end.

(** The callbacks of toDelete and toUpdate, and the reducer of toUpdate, once
    both property lists are there. *)
Definition deletable (updated : list object) (p : object) : result bool :=
  let* hs := includes (get p "name") "hs_" in
  let* reserved := if hs then Ok true else includes (get p "name") "hubspot_" in
  if negb reserved
  then Ok (absent (first_named (get p "name") updated))
  else Ok false.

Definition changed (current : list object) (p : object) : result bool :=
  match first_named (get p "name") current with
  | Some e => fieldsDiffer p e
  | None => Ok false
  end.

Definition step (p e : object) (acc : bool) (curr : string) : result bool :=
  if acc then Ok acc else fieldDiffers p e curr.

(** The computation throws nothing but a [TypeError]. *)
Definition only_TypeError {A} (r : result A) : Prop :=
  forall e, r = Throw e -> e = TypeError.

(** ** Applying a diff *)

(** The results of a run applied to the current property list, in the
    words of the specification: the properties named in toDelete removed,
    those named in toUpdate replaced by their updated versions, those of
    toCreate added.  A second run does not see this list itself but its data,
    fetched again (see [same_content]). *)
Definition deleted_by (d : diff) (q : object) : bool :=
  existsb (fun x => strict_eq (get x "name") (get q "name")) (to_delete d).

Definition replacement (d : diff) (q : object) : object :=
  match first_named (get q "name") (to_update d) with
  | Some u => u
  | None => q
  end.

Definition apply_diff (current : list object) (d : diff) : list object :=
  map (replacement d) (List.filter (fun q => negb (deleted_by d q)) current)
  ++ to_create d.

(** Idempotence in the specification's words, for every pair. *)
Definition idempotent_as_specified (updated current : list object) : Prop :=
  forall d, reconcile (Some updated) (Some current) = Ok d ->
            reconcile (Some updated) (Some (apply_diff current d)) = Ok (Diff [] [] []).

(** ** A second run *)

(** A second run reads the file and fetches the registry again: it sees the
    same data in new arrays and objects.  [erase] forgets the identities, so
    two values are the same data when they erase to the same value. *)
Fixpoint erase (v : value) : value :=
  match v with
  | VArr _ l => VArr 0 (map erase l)
  | VObj _ fs => VObj 0 (map (fun kv => (fst kv, erase (snd kv))) fs)
  | other => other
  end.

Definition erase_object (o : object) : object :=
  Obj 0 (map (fun kv => (fst kv, erase (snd kv))) (obj_fields o)).

Definition same_content (l l' : list object) : Prop :=
  map erase_object l = map erase_object l'.

(** The data parsed again. *)
Fixpoint reparsed (v : value) : value :=
  match v with
  | VArr r l => VArr (r + 1000) (map reparsed l)
  | VObj r fs => VObj (r + 1000) (map (fun kv => (fst kv, reparsed (snd kv))) fs)
  | other => other
  end.

Definition reparsed_object (o : object) : object :=
  Obj (obj_ref o + 1000) (map (fun kv => (fst kv, reparsed (snd kv))) (obj_fields o)).

(** A string, a number, a boolean, [null], or nothing. *)
Definition primitive (v : value) : bool :=
  match v with
  | VArr _ _ | VObj _ _ => false
  | _ => true
  end.

(** An option object whose label and value are primitive. *)
Definition plain_option (v : value) : Prop :=
  exists r fs, v = VObj r fs
               /\ primitive (field "label" fs) = true
               /\ primitive (field "value" fs) = true.

Definition plain_list (v : value) : Prop :=
  exists r A, v = VArr r A /\ Forall plain_option A.

(** Every field of the property is primitive or a list of such options. *)
Definition plain_fields (p : object) : Prop :=
  forall k,
    match get p k with
    | VArr _ A => Forall plain_option A
    | VObj _ _ => False
    | _ => True
    end.

(** A property with an object for a field. *)
Definition tagged : object :=
  Obj 70 [("name", VStr "a"); ("meta", VObj 71 [("x", VNum 1)])].

(** ** Requests and traces *)

(** The request every command begins with. *)
Definition fetch : event := Http (Request GET "/crm/v3/schemas" NoBody).

(** The HTTP requests of a trace, in order. *)
Fixpoint requests (es : list event) : list request :=
  match es with
  | [] => []
  | Http r :: rest => r :: requests rest
  | _ :: rest => requests rest
  end.

(** [m] issues the requests [P] in this order, all of them if it returns and
    some first of them if it throws. *)
Definition issues {A} (m : M A) (P : list request) : Prop :=
  forall seen es r,
    m seen = (es, r) ->
    requests es `prefix_of` P /\ (forall a, r = Ok a -> requests es = P).

(** The entry matched the pattern and its identifier is a key of the index. *)
Definition known (meta : gmap string Schema) (entry : option (string * string)) : Prop :=
  exists path objectType, entry = Some (path, objectType) /\ is_Some (meta !! objectType).

(** The requests of [deleteProperty], [createProperty] and
    [updateProperty]. *)
Definition delete_request (currentSchema : Schema) (p : object) : request :=
  Request DELETE
    ("/properties/v2/" +:+ ToString (objectTypeId currentSchema)
       +:+ "/properties/named/" +:+ ToString (get p "name"))
    NoBody.

Definition create_request (currentSchema : Schema) (p : object) : request :=
  Request POST
    ("/properties/v2/" +:+ ToString (objectTypeId currentSchema) +:+ "/properties")
    (PropertyBody p).

Definition update_request (currentSchema : Schema) (p : object) : request :=
  Request PATCH
    ("/properties/v2/" +:+ ToString (objectTypeId currentSchema)
       +:+ "/properties/named/" +:+ ToString (get p "name"))
    (PropertyBody p).

(** The property operations of a diff in the order of the specification: all
    deletes, then all creates, then all updates. *)
Definition planned (currentSchema : Schema) (d : diff) : list request :=
  map (delete_request currentSchema) (to_delete d)
  ++ map (create_request currentSchema) (to_create d)
  ++ map (update_request currentSchema) (to_update d).

(** The line logged for an identifier the index does not hold. *)
Definition does_not_exist (objectType : string) : event :=
  Log ("Object Type " +:+ objectType +:+ " does not exist to be updated.").

(** Where a run of [m] has a request the registry rejects: a DELETE or POST
    is the last event and the run throws the rejection; a PATCH is followed
    by the log of the error. *)
Definition rejection_policy (w : world) {A} (m : M A) : Prop :=
  forall seen es r,
    m seen = (es, r) ->
    forall es1 req es2,
      es = es1 ++ Http req :: es2 ->
      respond w (seen ++ es1) req = None ->
      (req_method req = DELETE \/ req_method req = POST ->
       es2 = [] /\ r = Throw AxiosError)
      /\ (req_method req = PATCH -> exists es3, es2 = LogError AxiosError :: es3).

(** The requests of [createSchema] and [createAssociation]. *)
Definition schema_post (s : Schema) : request :=
  Request POST "/crm/v3/schemas" (SchemaBody s).

Definition association_post (a : Association) : request :=
  Request POST
    ("/crm/v3/schemas/" +:+ ToString (fromObjectTypeId a) +:+ "/associations")
    (AssociationBody a).

Definition is_schema_post (r : request) : Prop :=
  exists s, r = schema_post s.

(** ** The creation loop as a list of attempts *)

(** What one turn of the creation loop did: the identifier of the file, the
    targets it declares, and what [createSchema] returned for it. *)
Record attempt : Type := Attempt {
  at_type : string;
  at_targets : list value;
  at_id : value
}.

(** The line logged when the attempt returned an id. *)
Definition created_log (a : attempt) : list event :=
  if truthy (at_id a) then [Log ("Created " +:+ at_type a)] else [].

(** The index after the attempts: each attempt that returned a truthy id has
    stored it under its identifier, the others have changed nothing. *)
Definition index_after (meta : gmap string Schema) (attempts : list attempt)
  : gmap string Schema :=
  fold_left (fun m a => if truthy (at_id a)
                        then <[at_type a := created_record (at_id a)]> m
                        else m)
            attempts meta.

(** The association requests accumulated by the attempts. *)
Definition declared_by (attempts : list attempt) : list Association :=
  flat_map (fun a => map (declared (at_type a)) (at_targets a)) attempts.

(** The registry's part in one attempt, made after [seen]: [createSchema]
    posted [body] and returned [id] having emitted [es].  Either the registry
    answered and [id] is the objectTypeId of the answer, or the request was
    rejected (or the answer could not be read), the failure was logged and
    [id] is [null]. *)
Definition answered (w : world) (seen : list event) (body : Schema) (id : value)
                    (es : list event) : Prop :=
  (exists data,
      respond w seen (schema_post body) = Some data
      /\ member data "objectTypeId" = Ok id
      /\ es = [Http (schema_post body)])
  \/ (id = VNull
      /\ es = [Http (schema_post body);
               Log ("Failed to Create Schema " +:+ ToString (name body))]
      /\ (respond w seen (schema_post body) = None
          \/ exists data, respond w seen (schema_post body) = Some data
                          /\ member data "objectTypeId" = Throw TypeError)).

(** The creation loop, started after [seen], made [attempts] on [entries] and
    emitted [es]: for each entry in turn it read the file, submitted the
    schema without its associations, and logged the creation when an id came
    back. *)
Fixpoint attempted (w : world) (seen : list event)
                   (entries : list (option (string * string)))
                   (attempts : list attempt) (es : list event) : Prop :=
  match entries, attempts with
  | [], [] => es = []
  | Some (path, objectType) :: entries', a :: attempts' =>
      exists s es1 es2,
        read_file w path = Some s
        /\ at_type a = objectType
        /\ at_targets a = default [] (associations s)
        /\ answered w (seen ++ [Read path]) (snd (pick_associations s)) (at_id a) es1
        /\ es = (Read path :: es1 ++ created_log a) ++ es2
        /\ attempted w (seen ++ Read path :: es1 ++ created_log a) entries' attempts' es2
  | _, _ => False
  end.

(** The attempt returned an id and no later attempt under the same
    identifier did. *)
Definition last_created (attempts : list attempt) (a : attempt) : Prop :=
  truthy (at_id a) = true
  /\ exists l1 l2, attempts = l1 ++ a :: l2
                   /\ forall b, In b l2 -> at_type b = at_type a -> truthy (at_id b) = false.

(** ** Example properties *)

(** Current-only properties: one whose name holds [hs_] inside, two without
    it, one with the reserved prefix. *)
Definition months_active : object := Obj 1 [("name", VStr "months_active")].

Definition legacy_field : object := Obj 2 [("name", VStr "legacy_field")].

Definition hs_object_id : object := Obj 3 [("name", VStr "hs_object_id")].

Definition old_size : object := Obj 4 [("name", VStr "old_size")].

(** Two properties of one name. *)
Definition a_text : object := Obj 41 [("name", VStr "a"); ("type", VStr "string")].

Definition a_number : object := Obj 42 [("name", VStr "a"); ("type", VStr "number")].

(** Scenario 2: the options A and B as the local file has them, and as the
    registry returns them, in the other order. *)
Definition option_A : value := VObj 11 [("label", VStr "A"); ("value", VStr "a")].

Definition option_B : value := VObj 12 [("label", VStr "B"); ("value", VStr "b")].

Definition option_B' : value := VObj 21 [("label", VStr "B"); ("value", VStr "b")].

Definition option_A' : value := VObj 22 [("label", VStr "A"); ("value", VStr "a")].

Definition status_local : object :=
  Obj 10 [("name", VStr "status"); ("options", VArr 13 [option_A; option_B])].

Definition status_remote : object :=
  Obj 20 [("name", VStr "status"); ("options", VArr 23 [option_B'; option_A'])].

(** The remote [status] without an option list, and with one option. *)
Definition status_bare : object := Obj 30 [("name", VStr "status")].

Definition status_short : object :=
  Obj 50 [("name", VStr "status"); ("options", VArr 51 [option_A'])].

(** Decides [well_formed_lists] for a property written out in full. *)
Ltac solve_well_formed_lists :=
  let k := fresh "k" in
  let H := fresh "H" in
  intros k ? ? H; cbv -[String.eqb] in H;
  repeat match type of H with
         | context [String.eqb ?a k] => destruct (String.eqb a k)
         end;
  try discriminate; injection H as <- <-;
  repeat (apply List.Forall_cons; [eexists; eexists; reflexivity|]); apply List.Forall_nil.

(** ** Example registries and batches *)

(** A record of the registry, a parsed local file, and the answer to a
    create. *)
Definition schema_of (n id : string) (props : option (list object))
                     (targets : option (list value)) : Schema :=
  {| name := VStr n; objectTypeId := VStr id; properties := props;
     associations := targets; passed_on := [] |}.

Definition local_schema (n : string) (props : option (list object))
                        (targets : option (list value)) : Schema :=
  {| name := VStr n; objectTypeId := VUndefined; properties := props;
     associations := targets; passed_on := [] |}.

Definition answer (id : string) : option value :=
  Some (VObj 0 [("objectTypeId", VStr id)]).

(** A registry that holds [deal] and accepts every request. *)
Definition deal_world : world :=
  World (Some [schema_of "deal" "2-1" (Some []) None])
        (fun _ _ => Some VNull)
        (fun _ => Some (local_schema "deal" (Some []) None)).

(** A registry that holds [deal] with one property the local file drops;
    the local [deal] declares one new property, and [ticket] is not in the
    registry. *)
Definition ticket_world : world :=
  World (Some [schema_of "deal" "2-1" (Some [legacy_field]) None])
        (fun _ _ => Some VNull)
        (fun path =>
           if String.eqb path "/s/deal.json"
           then Some (local_schema "deal" (Some [a_text]) None)
           else Some (local_schema "ticket" (Some []) None)).

(** A registry that holds [deal] and [ticket] and rejects every request
    but the fetch; the local files declare no properties. *)
Definition rejecting_world : world :=
  World (Some [schema_of "deal" "2-1" (Some [legacy_field; old_size]) None;
               schema_of "ticket" "2-2" (Some [old_size]) None])
        (fun _ _ => None)
        (fun path =>
           if String.eqb path "/s/deal.json"
           then Some (local_schema "deal" (Some []) None)
           else Some (local_schema "ticket" (Some []) None)).

(** The run of the update flow against it. *)
Definition rejected_delete : request :=
  Request DELETE "/properties/v2/2-1/properties/named/legacy_field" NoBody.

Definition aborted_trace : list event :=
  [fetch; Read "/s/deal.json"; Log "Deleting property legacy_field on deal";
   Http rejected_delete].

(** Scenario 4: [company.json] declares an association to [deal]. *)
Definition batch : list (option (string * string)) :=
  [Some ("/s/company.json", "company"); Some ("/s/deal.json", "deal")].

Definition batch_files (path : string) : option Schema :=
  if String.eqb path "/s/company.json"
  then Some (local_schema "company" None (Some [VStr "deal"]))
  else Some (local_schema "deal" None None).

(** Scenario 4: an empty registry that creates [company] and [deal]. *)
Definition fresh_world : world :=
  World (Some [])
        (fun _ r =>
           match req_body r with
           | SchemaBody s =>
               if String.eqb (ToString (name s)) "company"
               then answer "2-100" else answer "2-200"
           | _ => Some VNull
           end)
        batch_files.

(** A registry that already holds [company], rejects its creation and
    creates [deal]. *)
Definition existing_world : world :=
  World (Some [schema_of "company" "2-1" None None])
        (fun _ r =>
           match req_body r with
           | SchemaBody s =>
               if String.eqb (ToString (name s)) "company"
               then None else answer "2-200"
           | _ => Some VNull
           end)
        batch_files.

Definition existing_trace : list event :=
  [fetch;
   Read "/s/company.json";
   Http (schema_post (local_schema "company" None None));
   Log "Failed to Create Schema company";
   Read "/s/deal.json";
   Http (schema_post (local_schema "deal" None None));
   Log "Created deal";
   Http (association_post
           {| assoc_name := "company_to_deal";
              fromObjectTypeId := VStr "2-1";
              toObjectTypeId := VStr "2-200" |})].

(** ** Vocabulary of the further properties *)

(** Every character of [s] satisfies [ok]. *)
Fixpoint string_forall (ok : ascii -> bool) (s : string) : bool :=
  match s with
  | EmptyString => true
  | String c rest => ok c && string_forall ok rest
  end.

(** The two requests of [deleteSchema]. *)
Definition soft_delete (id : value) : request :=
  Request DELETE ("/crm/v3/schemas/" +:+ ToString id) NoBody.

Definition purge (id : value) : request :=
  Request DELETE ("/crm/v3/schemas/" +:+ ToString id +:+ "/purge") NoBody.

(** The entry matched the pattern and its file can be read and parsed. *)
Definition readable (w : world) (entry : option (string * string)) : Prop :=
  exists path objectType s, entry = Some (path, objectType) /\ read_file w path = Some s.

(** The registry accepts every DELETE and POST. *)
Definition accepts_mutations (w : world) : Prop :=
  forall seen req,
    req_method req = DELETE \/ req_method req = POST -> is_Some (respond w seen req).

(** A [status] whose type differs remotely and whose option list the remote
    property lacks. *)
Definition status_typed : object :=
  Obj 60 [("name", VStr "status"); ("type", VStr "enumeration");
          ("options", VArr 61 [option_A])].

Definition status_other_type : object :=
  Obj 62 [("name", VStr "status"); ("type", VStr "string")].

(** A registry that rejects every PATCH and accepts the rest. *)
Definition patch_rejecting_world : world :=
  World (Some [schema_of "deal" "2-1" (Some [status_short; legacy_field]) None])
        (fun _ r => match req_method r with PATCH => None | _ => Some VNull end)
        (fun _ => Some (local_schema "deal" (Some [status_local; a_text]) None)).

(** The targets the files of the entries declare, in the order of the
    entries. *)
Definition targets_of (w : world) (entries : list (option (string * string)))
  : list value :=
  flat_map (fun entry =>
              match entry with
              | Some (path, _) =>
                  match read_file w path with
                  | Some s => default [] (associations s)
                  | None => []
                  end
              | None => []
              end)
           entries.

(** The request carries no schema that still has its [associations]. *)
Definition stripped (r : request) : Prop :=
  match req_body r with
  | SchemaBody s => associations s = None
  | _ => True
  end.

(** The event is not the reading of a file. *)
Definition not_a_read (e : event) : Prop :=
  match e with
  | Read _ => False
  | _ => True
  end.

(** The entry matched the pattern, its file can be read and parsed, and
    [meta[objectType]] is [undefined]: the index has no key for the
    identifier and objects inherit no member of that name. *)
Definition skipped (w : world) (meta : gmap string Schema)
                   (entry : option (string * string)) : Prop :=
  exists path objectType s,
    entry = Some (path, objectType)
    /\ read_file w path = Some s
    /\ meta !! objectType = None
    /\ inherited objectType = false.

(** An empty registry that accepts every request, where [company.json] is
    the one file that can be read. *)
Definition company_only_world : world :=
  World (Some []) (fun _ _ => Some VNull)
        (fun path => if String.eqb path "/s/company.json"
                     then batch_files path else None).

(** A registry that cannot be reached. *)
Definition unreachable_world : world :=
  World None (fun _ _ => None) (fun _ => Some (local_schema "deal" (Some []) None)).

(** ** Resolution of identifiers *)

(** The text holds none of the path characters of lodash. *)
Definition path_free (s : string) : bool :=
  string_forall (fun c => negb (Ascii.eqb c "." || Ascii.eqb c "[" || Ascii.eqb c "]")) s.

(** An identifier that one lookup in the index resolves: its text holds no
    path character, and it is not [objectTypeId], the one key that an index
    inherits once the creation of a type called [__proto__] has replaced its
    prototype. *)
Definition simple_id (id : value) : Prop :=
  path_free (ToString id) = true /\ ToString id <> "objectTypeId".

(** No key of the index holds a path character. *)
Definition path_free_keys (meta : gmap string Schema) : Prop :=
  forall key record, meta !! key = Some record -> path_free key = true.

(** The resolution in the words of the specification: the objectTypeId the
    index stores under the identifier, and the identifier itself where the
    index stores none. *)
Definition resolution (meta : gmap string Schema) (id : value) : value :=
  match meta !! ToString id with
  | Some record =>
      match objectTypeId record with
      | VUndefined => id
      | stored => stored
      end
  | None => id
  end.

(** A registry that holds a schema named [a.b] and creates [company], whose
    file declares an association to [a.b]. *)
Definition dotted_world : world :=
  World (Some [schema_of "a.b" "2-9" None None])
        (fun _ r =>
           match req_body r with
           | SchemaBody _ => answer "2-100"
           | _ => Some VNull
           end)
        (fun _ => Some (local_schema "company" None (Some [VStr "a.b"]))).

(** ** The plan of a turn of the update flow *)

(** The operations of a diff in the order of the specification (all
    deletes, then all creates, then all updates), each with the line logged
    before its request. *)
Definition steps (currentSchema : Schema) (d : diff) : list (string * request) :=
  map (fun p => ("Deleting property " +:+ ToString (get p "name")
                   +:+ " on " +:+ ToString (name currentSchema),
                 delete_request currentSchema p))
      (to_delete d)
  ++ map (fun p => ("Creating property " +:+ ToString (get p "name")
                      +:+ " on " +:+ ToString (name currentSchema),
                    create_request currentSchema p))
         (to_create d)
  ++ map (fun p => ("Updating property " +:+ ToString (get p "name")
                      +:+ " on " +:+ ToString (name currentSchema),
                    update_request currentSchema p))
         (to_update d).

(** The steps carried out after [seen]: each is logged and sent in turn.  A
    rejected PATCH is logged and the next step follows; a rejected DELETE or
    POST is the last thing done.  The events, and whether every step was
    reached. *)
Fixpoint carry_out (w : world) (seen : list event) (todo : list (string * request))
  : list event * bool :=
  match todo with
  | [] => ([], true)
  | (line, req) :: rest =>
      match respond w (seen ++ [Log line]) req with
      | Some _ =>
          let (es, completed) := carry_out w (seen ++ [Log line; Http req]) rest in
          (Log line :: Http req :: es, completed)
      | None =>
          match req_method req with
          | PATCH =>
              let (es, completed) :=
                carry_out w (seen ++ [Log line; Http req; LogError AxiosError]) rest in
              (Log line :: Http req :: LogError AxiosError :: es, completed)
          | _ => ([Log line; Http req], false)
          end
      end
  end.

(** The outcome of a computation that did what [carry_out] says: it returns
    [a] when every step was reached and throws the rejection otherwise. *)
Definition finish {A} (a : A) (done : list event * bool) : list event * result A :=
  (fst done, if snd done then Ok a else Throw AxiosError).

(** A computation that throws a rejection has a request that is no PATCH for
    its last event. *)
Definition rejected_at_last {A} (m : M A) : Prop :=
  forall seen es,
    m seen = (es, Throw AxiosError) ->
    exists es1 req, es = es1 ++ [Http req] /\ req_method req <> PATCH.

(** * Properties *)

(** ** Strict equality *)

Lemma strict_eq_refl v : strict_eq v v = true.
Proof.
  destruct v; simpl; auto using Z.eqb_refl, String.eqb_refl, Nat.eqb_refl.
  destruct b; reflexivity.
Qed.

Lemma strict_eq_sym a b : strict_eq a b = strict_eq b a.
Proof.
  destruct a, b; simpl; auto using Z.eqb_sym, String.eqb_sym, Nat.eqb_sym.
  destruct b, b0; reflexivity.
Qed.

Lemma strict_eq_trans a b c :
  strict_eq a b = true -> strict_eq b c = true -> strict_eq a c = true.
Proof.
  destruct a, b; simpl; try discriminate; destruct c; simpl; try discriminate; auto.
  - destruct b, b0, b1; auto.
  - rewrite !Z.eqb_eq; congruence.
  - rewrite !String.eqb_eq; congruence.
  - rewrite !Nat.eqb_eq; congruence.
  - rewrite !Nat.eqb_eq; congruence.
Qed.

(** ** Substrings *)

Lemma prefix_split n h :
  String.prefix n h = true <-> exists post, h = n +:+ post.
Proof.
  revert h; induction n as [|c n IH]; intros h; simpl.
  - split; [exists h; reflexivity | destruct h; reflexivity].
  - destruct h as [|c' h]; simpl.
    + split; [discriminate | intros [post H]; discriminate].
    + destruct (Ascii.ascii_dec c c') as [->|Hne]; split.
      * intros H. apply IH in H as [post ->]. exists post; reflexivity.
      * intros [post H]. injection H as H. apply IH. exists post; exact H.
      * discriminate.
      * intros [post H]. injection H as H1 H2. congruence.
Qed.

Lemma str_includes_spec n h :
  str_includes n h = true <-> is_substring n h.
Proof.
  unfold is_substring. induction h as [|c h IH].
  - cbn [str_includes]. rewrite orb_false_r, prefix_split. split.
    + intros [post H]. exists EmptyString, post. exact H.
    + intros [pre [post H]]. destruct pre; simpl in H.
      * exists post; exact H.
      * discriminate.
  - cbn [str_includes]. rewrite orb_true_iff, prefix_split, IH. split.
    + intros [[post H] | [pre [post H]]].
      * exists EmptyString, post; exact H.
      * exists (String c pre), post. simpl. rewrite H. reflexivity.
    + intros [pre [post H]]. destruct pre as [|c' pre]; simpl in H.
      * left. exists post; exact H.
      * right. injection H as _ H. exists pre, post; exact H.
Qed.

Lemma prefix_includes n h : String.prefix n h = true -> str_includes n h = true.
Proof. intros H. destruct h; cbn [str_includes]; rewrite H; reflexivity. Qed.

(** ** The array methods on callbacks that do not throw *)

Lemma find_pure {A} (f : A -> result bool) (g : A -> bool) l :
  (forall x, In x l -> f x = Ok (g x)) -> find f l = Ok (List.find g l).
Proof.
  induction l as [|x l IH]; intros H; simpl; [reflexivity|].
  rewrite (H x) by (left; reflexivity). simpl.
  destruct (g x); [reflexivity|]. apply IH. intros y Hy. apply H. right; exact Hy.
Qed.

Lemma every_pure {A} (f : A -> result bool) (g : A -> bool) l :
  (forall x, In x l -> f x = Ok (g x)) -> every f l = Ok (forallb g l).
Proof.
  induction l as [|x l IH]; intros H; simpl; [reflexivity|].
  rewrite (H x) by (left; reflexivity). simpl.
  destruct (g x); [|reflexivity]. apply IH. intros y Hy. apply H. right; exact Hy.
Qed.

Lemma filter_pure {A} (f : A -> result bool) (g : A -> bool) l :
  (forall x, In x l -> f x = Ok (g x)) -> filter f l = Ok (List.filter g l).
Proof.
  induction l as [|x l IH]; intros H; simpl; [reflexivity|].
  rewrite (H x) by (left; reflexivity). simpl.
  rewrite IH by (intros y Hy; apply H; right; exact Hy). simpl.
  destruct (g x); reflexivity.
Qed.

Lemma filter_In {A} (f : A -> result bool) l l' x :
  filter f l = Ok l' -> (In x l' <-> In x l /\ f x = Ok true).
Proof.
  revert l'; induction l as [|y l IH]; intros l' H; simpl in H.
  - injection H as <-. simpl. tauto.
  - destruct (f y) as [b|e] eqn:Hy; simpl in H; [|discriminate].
    destruct (filter f l) as [r|e] eqn:Hr; simpl in H; [|discriminate].
    injection H as <-. specialize (IH r eq_refl).
    destruct b; simpl; rewrite IH; split.
    + intros [->|[H1 H2]]; auto.
    + intros [[->|H1] H2]; auto.
    + intros [H1 H2]; auto.
    + intros [[->|H1] H2]; [congruence | auto].
Qed.

Lemma filter_throws {A} (f : A -> result bool) l x e :
  In x l -> f x = Throw e -> exists e', filter f l = Throw e'.
Proof.
  induction l as [|y l IH]; intros Hin Hx; [destruct Hin|].
  simpl. destruct Hin as [->|Hin].
  - rewrite Hx. simpl. eauto.
  - destruct (f y); simpl; [|eauto].
    destruct (IH Hin Hx) as [e' ->]. simpl. eauto.
Qed.

Lemma absent_true {A} (o : option A) : absent o = true <-> ~ is_Some o.
Proof.
  destruct o as [x|]; simpl; split.
  - discriminate.
  - intros H. exfalso. apply H. eauto.
  - intros _ [y Hy]. discriminate.
  - reflexivity.
Qed.

Lemma find_sameName n l : find (sameName n) l = Ok (first_named n l).
Proof. apply find_pure. reflexivity. Qed.

Lemma first_named_is_Some n l : is_Some (first_named n l) <-> named_in n l.
Proof.
  unfold first_named, named_in. split.
  - intros [q Hq]. apply List.find_some in Hq. eauto.
  - intros [q [Hin Hq]].
    destruct (List.find _ l) eqn:Hf; [eauto|].
    apply (List.find_none _ _ Hf) in Hin. simpl in Hin. congruence.
Qed.

(** ** C1: what toDelete holds *)

Lemma toDelete_filter updated current :
  Forall string_named current ->
  toDelete (Some updated) (Some current) = Ok (List.filter (keeps updated) current).
Proof.
  intros Hs. unfold toDelete. simpl. apply filter_pure.
  intros p Hp. rewrite List.Forall_forall in Hs. destruct (Hs p Hp) as [s Hn].
  unfold keeps. rewrite Hn. simpl.
  destruct (str_includes "hs_" s); simpl.
  - reflexivity.
  - destruct (str_includes "hubspot_" s); simpl; [reflexivity|].
    rewrite find_sameName. reflexivity.
Qed.

(** C1, as stated, fails: [months_active] is absent from the updated schema
    and does not begin with [hs_] or [hubspot_], yet the code keeps it out of
    toDelete because [hs_] occurs inside the name. *)
Lemma toDelete_keeps_infix_names :
  toDelete (Some []) (Some [months_active]) = Ok []
  /\ ~ toDelete_as_specified [] [months_active] [].
Proof.
  split; [reflexivity|].
  intros H. destruct (H months_active) as [_ H2]. apply H2. split; [|split].
  - left; reflexivity.
  - intros [q [[] _]].
  - reflexivity.
Qed.

(** C1, amended: when the names of the current properties are strings,
    toDelete is computed and holds exactly the current properties whose name
    is absent from the updated schema and nowhere contains [hs_] or
    [hubspot_]; a property whose name begins with [hs_] or [hubspot_] is
    never in it, and a current-only [legacy_field] always is. *)
Theorem toDelete_exact (updated current : list object) :
  Forall string_named current ->
  exists toDel,
    toDelete (Some updated) (Some current) = Ok toDel
    /\ (forall p, In p toDel <->
                  In p current /\ ~ named_in (get p "name") updated
                  /\ forall s, get p "name" = VStr s ->
                               ~ is_substring "hs_" s /\ ~ is_substring "hubspot_" s)
    /\ (forall p, begins_with_reserved (get p "name") = true -> ~ In p toDel)
    /\ (forall p, In p current -> get p "name" = VStr "legacy_field" ->
                  ~ named_in (VStr "legacy_field") updated -> In p toDel).
Proof.
  intros Hs. exists (List.filter (keeps updated) current).
  split; [apply toDelete_filter; exact Hs|].
  assert (Hkeeps : forall p s, get p "name" = VStr s ->
            (keeps updated p = true <->
             ~ named_in (VStr s) updated
             /\ ~ is_substring "hs_" s /\ ~ is_substring "hubspot_" s)).
  { intros p s Hn. unfold keeps. rewrite Hn.
    rewrite andb_true_iff, !negb_true_iff, orb_false_iff.
    rewrite absent_true, first_named_is_Some.
    rewrite <- !str_includes_spec, !not_true_iff_false. tauto. }
  split; [|split].
  - intros p. rewrite List.filter_In. split.
    + intros [Hin Hk]. rewrite List.Forall_forall in Hs. destruct (Hs p Hin) as [s Hn].
      apply (Hkeeps p s Hn) in Hk. rewrite Hn. split; [exact Hin|].
      split; [tauto|]. intros s' [= <-]. tauto.
    + intros [Hin [Hnot Hsub]]. split; [exact Hin|].
      rewrite List.Forall_forall in Hs. destruct (Hs p Hin) as [s Hn].
      apply (Hkeeps p s Hn). rewrite Hn in Hnot. specialize (Hsub s Hn). tauto.
  - intros p Hres Hin. apply List.filter_In in Hin as [_ Hk].
    unfold begins_with_reserved in Hres. unfold keeps in Hk.
    destruct (get p "name"); try discriminate.
    apply andb_true_iff in Hk as [Hk _]. apply negb_true_iff in Hk.
    apply orb_false_iff in Hk as [Hk1 Hk2].
    apply orb_true_iff in Hres as [Hp|Hp]; apply prefix_includes in Hp; congruence.
  - intros p Hin Hn Hnot. apply List.filter_In. split; [exact Hin|].
    apply (Hkeeps p _ Hn). split; [exact Hnot|].
    rewrite <- !str_includes_spec. split; intros H; discriminate H.
Qed.

Lemma toDelete_exact_witness :
  exists toDel,
    toDelete (Some []) (Some [months_active; legacy_field; hs_object_id]) = Ok toDel
    /\ (forall p, In p toDel <->
                  In p [months_active; legacy_field; hs_object_id]
                  /\ ~ named_in (get p "name") []
                  /\ forall s, get p "name" = VStr s ->
                               ~ is_substring "hs_" s /\ ~ is_substring "hubspot_" s)
    /\ (forall p, begins_with_reserved (get p "name") = true -> ~ In p toDel)
    /\ (forall p, In p [months_active; legacy_field; hs_object_id] ->
                  get p "name" = VStr "legacy_field" ->
                  ~ named_in (VStr "legacy_field") [] -> In p toDel).
Proof.
  apply (toDelete_exact [] [months_active; legacy_field; hs_object_id]).
  repeat constructor; eexists; reflexivity.
Defined.

(** ** Option lists *)

Lemma member_label v : defined v -> member v "label" = Ok (label_of v).
Proof. intros [H1 H2]. destruct v; try reflexivity; congruence. Qed.

Lemma member_value v : defined v -> member v "value" = Ok (value_of v).
Proof. intros [H1 H2]. destruct v; try reflexivity; congruence. Qed.

Lemma sameOption_pure a b :
  defined a -> defined b -> sameOption a b = Ok (same_pair a b).
Proof.
  intros Ha Hb. unfold sameOption, same_pair.
  rewrite (member_label b Hb), (member_label a Ha). simpl.
  destruct (strict_eq (label_of b) (label_of a)); simpl; [|reflexivity].
  rewrite (member_value b Hb), (member_value a Ha). reflexivity.
Qed.

Lemma object_defined v : is_object v -> defined v.
Proof. intros [r [fs ->]]. split; discriminate. Qed.

Lemma object_truthy v : is_object v -> truthy v = true.
Proof. intros [r [fs ->]]. reflexivity. Qed.

Lemma objects_defined l : Forall is_object l -> Forall defined l.
Proof. apply List.Forall_impl. exact object_defined. Qed.

Lemma shouldContainAll_pure ra rb A B :
  Forall defined A -> Forall defined B ->
  shouldContainAll (VArr ra A) (VArr rb B) = Ok (covers A B).
Proof.
  intros HA HB. unfold shouldContainAll, covers. simpl.
  apply every_pure. intros a Ha. simpl.
  rewrite (find_pure _ (same_pair a)); [reflexivity|].
  intros b Hb. rewrite List.Forall_forall in HA, HB.
  apply sameOption_pure; auto.
Qed.

Lemma validateOptions_pure ra rb A B :
  Forall defined A -> Forall defined B ->
  validateOptions (VArr ra A) (VArr rb B) = Ok (covers A B && covers B A).
Proof.
  intros HA HB. unfold validateOptions.
  rewrite (shouldContainAll_pure ra rb A B HA HB). simpl.
  destruct (covers A B); simpl; [|reflexivity].
  apply shouldContainAll_pure; assumption.
Qed.

Lemma covers_objects A B :
  Forall is_object B ->
  covers A B = true <->
  forall a, In a A -> exists b, In b B /\ same_pair a b = true.
Proof.
  intros HB. unfold covers. rewrite forallb_forall.
  rewrite List.Forall_forall in HB.
  split; intros H a Ha; specialize (H a Ha).
  - destruct (List.find (same_pair a) B) as [b|] eqn:Hf; [|discriminate].
    apply List.find_some in Hf. eauto.
  - destruct H as [b [Hb Hab]].
    destruct (List.find (same_pair a) B) as [b'|] eqn:Hf.
    + apply List.find_some in Hf as [Hb' _]. simpl. apply object_truthy; auto.
    + apply (List.find_none _ _ Hf) in Hb. congruence.
Qed.

Lemma same_pair_refl a : same_pair a a = true.
Proof. unfold same_pair. rewrite !strict_eq_refl. reflexivity. Qed.

Lemma validateOptions_objects ra rb A B :
  Forall is_object A -> Forall is_object B ->
  exists same, validateOptions (VArr ra A) (VArr rb B) = Ok same
               /\ (same = true <-> same_option_set A B).
Proof.
  intros HA HB. exists (covers A B && covers B A). split.
  - apply validateOptions_pure; apply objects_defined; assumption.
  - unfold same_option_set.
    rewrite andb_true_iff, (covers_objects A B HB), (covers_objects B A HA).
    reflexivity.
Qed.

(** Against anything but an array the comparison throws. *)
Lemma validateOptions_not_array r A y :
  isArray y = false -> validateOptions (VArr r A) y = Throw TypeError.
Proof.
  intros Hy. unfold validateOptions, shouldContainAll at 1. simpl.
  destruct A as [|a A]; simpl.
  - unfold shouldContainAll. destruct y; try reflexivity. discriminate.
  - destruct y; try reflexivity. discriminate.
Qed.

(** ** The field-by-field comparison *)

Lemma reduce_true p e ks : reduce (step p e) ks true = Ok true.
Proof. induction ks as [|k ks IH]; simpl; auto. Qed.

Lemma reduce_all_false p e ks :
  (forall k, In k ks -> fieldDiffers p e k = Ok false) ->
  reduce (step p e) ks false = Ok false.
Proof.
  induction ks as [|k ks IH]; intros H; simpl; [reflexivity|].
  rewrite (H k) by (left; reflexivity). simpl.
  apply IH. intros k' Hk'. apply H. right; exact Hk'.
Qed.

Lemma reduce_reaches p e ks1 k ks2 ex :
  (forall k', In k' ks1 -> fieldDiffers p e k' = Ok false) ->
  fieldDiffers p e k = Throw ex ->
  reduce (step p e) (ks1 ++ k :: ks2) false = Throw ex.
Proof.
  induction ks1 as [|k1 ks1 IH]; intros H Hk; simpl.
  - rewrite Hk. reflexivity.
  - rewrite (H k1) by (left; reflexivity). simpl.
    apply IH; [|exact Hk]. intros k' Hk'. apply H. right; exact Hk'.
Qed.

Lemma reduce_false_inv p e ks :
  reduce (step p e) ks false = Ok false ->
  forall k, In k ks -> fieldDiffers p e k = Ok false.
Proof.
  induction ks as [|k ks IH]; intros H k' Hk'; [destruct Hk'|].
  simpl in H. destruct (fieldDiffers p e k) as [[|]|ex] eqn:Hk; simpl in H.
  - rewrite reduce_true in H. discriminate.
  - destruct Hk' as [<-|Hk']; [exact Hk | exact (IH H k' Hk')].
  - discriminate.
Qed.

Lemma reduce_true_inv p e ks :
  reduce (step p e) ks false = Ok true ->
  exists k, In k ks /\ fieldDiffers p e k = Ok true.
Proof.
  induction ks as [|k ks IH]; intros H; simpl in H; [discriminate|].
  destruct (fieldDiffers p e k) as [[|]|ex] eqn:Hk; simpl in H.
  - exists k. split; [left; reflexivity | exact Hk].
  - destruct (IH H) as [k' [Hin Hk']]. exists k'. split; [right; exact Hin | exact Hk'].
  - discriminate.
Qed.

Lemma fieldsDiffer_reduce p e :
  fieldsDiffer p e = reduce (step p e) (keys p) false.
Proof. reflexivity. Qed.

Lemma same_pair_sym a b : same_pair a b = same_pair b a.
Proof.
  unfold same_pair.
  rewrite (strict_eq_sym (label_of b)), (strict_eq_sym (value_of b)). reflexivity.
Qed.

Lemma Forall2_In_l {A B} (R : A -> B -> Prop) l1 l2 a :
  Forall2 R l1 l2 -> In a l1 -> exists b, In b l2 /\ R a b.
Proof.
  induction 1 as [|x y l1 l2 Hxy _ IH]; intros Hin; [destruct Hin|].
  destruct Hin as [<-|Hin].
  - exists y. split; [left; reflexivity | exact Hxy].
  - destruct (IH Hin) as [b [Hb Hab]]. exists b. split; [right; exact Hb | exact Hab].
Qed.

Lemma Forall2_In_r {A B} (R : A -> B -> Prop) l1 l2 b :
  Forall2 R l1 l2 -> In b l2 -> exists a, In a l1 /\ R a b.
Proof.
  induction 1 as [|x y l1 l2 Hxy _ IH]; intros Hin; [destruct Hin|].
  destruct Hin as [<-|Hin].
  - exists x. split; [left; reflexivity | exact Hxy].
  - destruct (IH Hin) as [a [Ha Hab]]. exists a. split; [right; exact Ha | exact Hab].
Qed.

Lemma reordered_same_set A B : reordered A B -> same_option_set A B.
Proof.
  intros [A' [HP HF]]. split.
  - intros a Ha. apply (Permutation_in _ HP) in Ha.
    exact (Forall2_In_l _ _ _ _ HF Ha).
  - intros b Hb. destruct (Forall2_In_r _ _ _ _ HF Hb) as [a [Ha Hab]].
    exists a. split.
    + eapply Permutation_in; [symmetry; exact HP | exact Ha].
    + rewrite same_pair_sym. exact Hab.
Qed.

Lemma validateOptions_reordered ra rb A B :
  Forall is_object A -> Forall is_object B -> reordered A B ->
  validateOptions (VArr ra A) (VArr rb B) = Ok true.
Proof.
  intros HA HB HR.
  destruct (validateOptions_objects ra rb A B HA HB) as [same [-> Hsame]].
  f_equal. apply Hsame. apply reordered_same_set. exact HR.
Qed.

Lemma reordered_refl A : reordered A A.
Proof.
  exists A. split; [reflexivity|].
  induction A; constructor; [apply same_pair_refl | assumption].
Qed.

Lemma fieldDiffers_permuted p e k :
  permuted_or_identical (get p k) (get e k) -> fieldDiffers p e k = Ok false.
Proof.
  unfold permuted_or_identical, fieldDiffers.
  destruct (get p k) as [| |b|n|s|r A|r fs]; simpl; intros H;
    try (rewrite H; reflexivity).
  destruct H as [r' [B [-> [HA [HB HP]]]]].
  rewrite (validateOptions_reordered _ _ _ _ HA HB HP). reflexivity.
Qed.

Lemma toUpdate_callback updated current toUpd p :
  toUpdate (Some updated) (Some current) = Ok toUpd ->
  (In p toUpd <->
   In p updated /\
   match first_named (get p "name") current with
   | Some e => fieldsDiffer p e = Ok true
   | None => False
   end).
Proof.
  intros H. unfold toUpdate in H. simpl in H.
  rewrite (filter_In _ _ _ p H). simpl. rewrite find_sameName. simpl.
  destruct (first_named (get p "name") current); [reflexivity|].
  split; intros [H1 H2]; [discriminate | destruct H2].
Qed.

(** ** C3: the option-list equality *)

(** C3: [validateOptions] is symmetric on lists whose elements can be read,
    reflexive on lists of option objects, and true for two lists of option
    objects that hold the same {label, value} pairs in different order; a
    property each of whose fields is identical remotely, or such a reordered
    option list, is not in toUpdate. *)
Theorem validateOptions_equivalence :
  (forall ra rb A B, Forall defined A -> Forall defined B ->
     validateOptions (VArr ra A) (VArr rb B) = validateOptions (VArr rb B) (VArr ra A))
  /\ (forall r A, Forall is_object A -> validateOptions (VArr r A) (VArr r A) = Ok true)
  /\ (forall ra rb A B, Forall is_object A -> Forall is_object B -> reordered A B ->
        validateOptions (VArr ra A) (VArr rb B) = Ok true)
  /\ (forall updated current p e toUpd,
        first_named (get p "name") current = Some e ->
        (forall k, In k (keys p) -> permuted_or_identical (get p k) (get e k)) ->
        toUpdate (Some updated) (Some current) = Ok toUpd ->
        ~ In p toUpd).
Proof.
  split; [|split; [|split]].
  - intros ra rb A B HA HB.
    rewrite !validateOptions_pure by assumption. rewrite andb_comm. reflexivity.
  - intros r A HA. apply validateOptions_reordered; auto using reordered_refl.
  - exact validateOptions_reordered.
  - intros updated current p e toUpd He Hfields Hrun Hin.
    apply (toUpdate_callback _ _ _ p Hrun) in Hin as [_ Hin].
    rewrite He, fieldsDiffer_reduce in Hin.
    rewrite reduce_all_false in Hin; [discriminate|].
    intros k Hk. apply fieldDiffers_permuted. auto.
Qed.

Lemma validateOptions_equivalence_witness :
  validateOptions (VArr 13 [option_A; option_B]) (VArr 23 [option_B'; VNum 0])
  = validateOptions (VArr 23 [option_B'; VNum 0]) (VArr 13 [option_A; option_B])
  /\ validateOptions (VArr 13 [option_A; option_B]) (VArr 13 [option_A; option_B]) = Ok true
  /\ validateOptions (VArr 13 [option_A; option_B]) (VArr 23 [option_B'; option_A']) = Ok true
  /\ toUpdate (Some [status_local]) (Some [status_remote]) = Ok []
  /\ ~ In status_local [].
Proof.
  destruct validateOptions_equivalence as [Hsym [Hrefl [Hperm first_toUpdate]]].
  assert (Hobj : Forall is_object [option_A; option_B])
    by (repeat constructor; eexists; eexists; reflexivity).
  assert (Hobj' : Forall is_object [option_B'; option_A'])
    by (repeat constructor; eexists; eexists; reflexivity).
  assert (Hre : reordered [option_A; option_B] [option_B'; option_A']).
  { exists [option_B; option_A]. split; [apply perm_swap|].
    repeat constructor. }
  split; [|split; [|split; [|split]]].
  - apply Hsym; repeat constructor; discriminate.
  - apply Hrefl. exact Hobj.
  - apply Hperm; assumption.
  - reflexivity.
  - apply (first_toUpdate [status_local] [status_remote] status_local status_remote []).
    + reflexivity.
    + intros k [<-|[<-|[]]]; simpl.
      * reflexivity.
      * exists 23, [option_B'; option_A']. auto.
    + reflexivity.
Defined.

(** ** The comparison throws nothing but [TypeError] *)

Lemma only_Ok {A} (a : A) : only_TypeError (Ok a).
Proof. intros e H. discriminate. Qed.

Lemma only_Throw {A} : only_TypeError (@Throw A TypeError).
Proof. intros e H. congruence. Qed.

Lemma only_rbind {A B} (m : result A) (k : A -> result B) :
  only_TypeError m -> (forall a, only_TypeError (k a)) -> only_TypeError (rbind m k).
Proof.
  intros Hm Hk e. destruct m as [a|e']; simpl.
  - apply Hk.
  - intros [= <-]. apply Hm. reflexivity.
Qed.

Lemma only_find {A} (f : A -> result bool) l :
  (forall x, only_TypeError (f x)) -> only_TypeError (find f l).
Proof.
  intros Hf. induction l as [|x l IH]; simpl; [apply only_Ok|].
  apply only_rbind; [apply Hf|]. intros [|]; [apply only_Ok | exact IH].
Qed.

Lemma only_every {A} (f : A -> result bool) l :
  (forall x, only_TypeError (f x)) -> only_TypeError (every f l).
Proof.
  intros Hf. induction l as [|x l IH]; simpl; [apply only_Ok|].
  apply only_rbind; [apply Hf|]. intros [|]; [exact IH | apply only_Ok].
Qed.

Lemma only_filter {A} (f : A -> result bool) l :
  (forall x, only_TypeError (f x)) -> only_TypeError (filter f l).
Proof.
  intros Hf. induction l as [|x l IH]; simpl; [apply only_Ok|].
  apply only_rbind; [apply Hf|]. intros b.
  apply only_rbind; [exact IH|]. intros r. apply only_Ok.
Qed.

Lemma only_reduce {A B} (f : B -> A -> result B) l acc :
  (forall b x, only_TypeError (f b x)) -> only_TypeError (reduce f l acc).
Proof.
  intros Hf. revert acc. induction l as [|x l IH]; intros acc; simpl; [apply only_Ok|].
  apply only_rbind; [apply Hf | intros b; apply IH].
Qed.

Lemma only_member v k : only_TypeError (member v k).
Proof. destruct v; simpl; auto using only_Ok, only_Throw. Qed.

Lemma only_elements v : only_TypeError (elements v).
Proof. destruct v; simpl; auto using only_Ok, only_Throw. Qed.

Lemma only_the_list {A} (o : option (list A)) : only_TypeError (the_list o).
Proof. destruct o; simpl; auto using only_Ok, only_Throw. Qed.

Lemma only_includes v s : only_TypeError (includes v s).
Proof. destruct v; simpl; auto using only_Ok, only_Throw. Qed.

Lemma only_sameOption a b : only_TypeError (sameOption a b).
Proof.
  unfold sameOption.
  apply only_rbind; [apply only_member|]. intros bl.
  apply only_rbind; [apply only_member|]. intros al.
  destruct (strict_eq bl al); [|apply only_Ok].
  apply only_rbind; [apply only_member|]. intros bv.
  apply only_rbind; [apply only_member|]. intros av. apply only_Ok.
Qed.

Lemma only_shouldContainAll a b : only_TypeError (shouldContainAll a b).
Proof.
  unfold shouldContainAll.
  apply only_rbind; [apply only_elements|]. intros l.
  apply only_every. intros x.
  apply only_rbind; [apply only_elements|]. intros l'.
  apply only_rbind; [|intros; apply only_Ok].
  apply only_find. intros y. apply only_sameOption.
Qed.

Lemma only_validateOptions a b : only_TypeError (validateOptions a b).
Proof.
  unfold validateOptions.
  apply only_rbind; [apply only_shouldContainAll|].
  intros [|]; [apply only_shouldContainAll | apply only_Ok].
Qed.

Lemma only_fieldsDiffer p e : only_TypeError (fieldsDiffer p e).
Proof.
  apply only_reduce. intros [|] k; [apply only_Ok|].
  unfold fieldDiffers. destruct (isArray (get p k)); [|apply only_Ok].
  apply only_rbind; [apply only_validateOptions | intros; apply only_Ok].
Qed.

Lemma only_toDelete u c : only_TypeError (toDelete u c).
Proof.
  unfold toDelete. apply only_rbind; [apply only_the_list|]. intros l.
  apply only_filter. intros p.
  apply only_rbind; [apply only_includes|]. intros hs.
  apply only_rbind; [destruct hs; [apply only_Ok | apply only_includes]|].
  intros reserved. destruct (negb reserved); [|apply only_Ok].
  apply only_rbind; [apply only_the_list|]. intros l'.
  apply only_rbind; [|intros; apply only_Ok].
  apply only_find. intros q. apply only_Ok.
Qed.

Lemma only_toCreate u c : only_TypeError (toCreate u c).
Proof.
  unfold toCreate. apply only_rbind; [apply only_the_list|]. intros l.
  apply only_filter. intros p.
  apply only_rbind; [apply only_the_list|]. intros l'.
  apply only_rbind; [|intros; apply only_Ok].
  apply only_find. intros q. apply only_Ok.
Qed.

Lemma only_toUpdate u c : only_TypeError (toUpdate u c).
Proof.
  unfold toUpdate. apply only_rbind; [apply only_the_list|]. intros l.
  apply only_filter. intros p.
  apply only_rbind; [apply only_the_list|]. intros l'.
  apply only_rbind; [apply only_find; intros q; apply only_Ok|].
  intros [e|]; [apply only_fieldsDiffer | apply only_Ok].
Qed.

(** ** C9: the comparison is partial *)

Lemma toCreate_total updated current :
  exists toCr, toCreate (Some updated) (Some current) = Ok toCr.
Proof.
  eexists. unfold toCreate. simpl. apply filter_pure.
  intros p Hp. simpl. rewrite find_sameName. reflexivity.
Qed.

(** C9: reconciliation is partial.  When an updated property has a
    same-named current property, carries an array in a field that the current
    property lacks (or holds anything but an array in), and no earlier field
    differs, the option-list comparison is called on that second argument
    and throws; toUpdate and the whole diff throw with it instead of listing
    the property as changed. *)
Theorem toUpdate_throws_without_counterpart
    (updated current : list object) (p e : object) (ks1 ks2 : list string) (k : string) :
  In p updated ->
  first_named (get p "name") current = Some e ->
  keys p = ks1 ++ k :: ks2 ->
  (forall k', In k' ks1 -> fieldDiffers p e k' = Ok false) ->
  isArray (get p k) = true ->
  isArray (get e k) = false ->
  validateOptions (get p k) (get e k) = Throw TypeError
  /\ toUpdate (Some updated) (Some current) = Throw TypeError
  /\ reconcile (Some updated) (Some current) = Throw TypeError.
Proof.
  intros Hin He Hkeys Hbefore Harr Hnot.
  assert (Hv : validateOptions (get p k) (get e k) = Throw TypeError).
  { destruct (get p k) eqn:Hp; try discriminate.
    apply validateOptions_not_array. exact Hnot. }
  assert (Hk : fieldDiffers p e k = Throw TypeError).
  { unfold fieldDiffers. rewrite Harr, Hv. reflexivity. }
  assert (Hp : fieldsDiffer p e = Throw TypeError).
  { rewrite fieldsDiffer_reduce, Hkeys. apply reduce_reaches; assumption. }
  assert (Hu : toUpdate (Some updated) (Some current) = Throw TypeError).
  { destruct (toUpdate (Some updated) (Some current)) as [l|ex] eqn:Hrun.
    - exfalso. unfold toUpdate in Hrun. simpl in Hrun.
      match type of Hrun with
      | filter ?f _ = _ =>
          destruct (filter_throws f updated p TypeError Hin) as [e' He']
      end.
      + simpl. rewrite find_sameName. simpl. rewrite He. exact Hp.
      + rewrite He' in Hrun. discriminate.
    - f_equal. apply (only_toUpdate (Some updated) (Some current)). exact Hrun. }
  split; [exact Hv|]. split; [exact Hu|].
  unfold reconcile.
  destruct (toDelete (Some updated) (Some current)) as [d|ex] eqn:Hd; simpl.
  - destruct (toCreate_total updated current) as [cr ->]. simpl.
    rewrite Hu. reflexivity.
  - f_equal. apply (only_toDelete (Some updated) (Some current)). exact Hd.
Qed.

Lemma toUpdate_throws_without_counterpart_witness :
  validateOptions (get status_local "options") (get status_bare "options")
    = Throw TypeError
  /\ toUpdate (Some [status_local]) (Some [status_bare]) = Throw TypeError
  /\ reconcile (Some [status_local]) (Some [status_bare]) = Throw TypeError.
Proof.
  apply (toUpdate_throws_without_counterpart
           [status_local] [status_bare] status_local status_bare
           ["name"] [] "options").
  - left; reflexivity.
  - reflexivity.
  - reflexivity.
  - intros k' [<-|[]]. reflexivity.
  - reflexivity.
  - reflexivity.
Defined.

(** ** C2: the comparison rule *)

(** C2 at its failing input: the local [status] gains an option list that
    the remote [status] does not have.  The rule calls the field changed, so
    [status] belongs to toUpdate; the code throws and computes no toUpdate. *)
Theorem toUpdate_crashes_on_new_option_list :
  toUpdate_as_specified [status_local] [status_bare] [status_local]
  /\ toUpdate (Some [status_local]) (Some [status_bare]) = Throw TypeError.
Proof.
  split; [|reflexivity].
  intros p. split.
  - intros [<-|[]]. split; [left; reflexivity|].
    exists status_bare. split; [reflexivity|].
    exists "options". split; [right; left; reflexivity|].
    simpl. intros [r [B [H _]]]. discriminate.
  - intros [[<-|[]] _]. left; reflexivity.
Qed.

Lemma filter_Ok_each {A} (f : A -> result bool) l l' x :
  filter f l = Ok l' -> In x l -> exists b, f x = Ok b.
Proof.
  revert l'; induction l as [|y l IH]; intros l' H Hin; [destruct Hin|].
  simpl in H. destruct (f y) as [b|e] eqn:Hy; simpl in H; [|discriminate].
  destruct (filter f l) as [r|e] eqn:Hr; simpl in H; [|discriminate].
  destruct Hin as [<-|Hin]; [eauto | exact (IH r eq_refl Hin)].
Qed.

Lemma filter_all_false {A} (f : A -> result bool) l :
  (forall x, In x l -> f x = Ok false) -> filter f l = Ok [].
Proof.
  induction l as [|x l IH]; intros H; simpl; [reflexivity|].
  rewrite (H x) by (left; reflexivity). simpl.
  rewrite IH by (intros y Hy; apply H; right; exact Hy). reflexivity.
Qed.

Lemma filter_ext {A} (f g : A -> result bool) l :
  (forall x, f x = g x) -> filter f l = filter g l.
Proof.
  intros H. induction l as [|x l IH]; simpl; [reflexivity|].
  rewrite H, IH. reflexivity.
Qed.

Lemma validateOptions_Ok_array r A y same :
  validateOptions (VArr r A) y = Ok same -> exists r' B, y = VArr r' B.
Proof.
  intros H. destruct y; try (rewrite validateOptions_not_array in H by reflexivity;
                             discriminate).
  eauto.
Qed.

Lemma fieldDiffers_rule p e k b :
  well_formed_lists p -> well_formed_lists e ->
  fieldDiffers p e k = Ok b ->
  (b = true <-> differs_by_rule (get p k) (get e k)).
Proof.
  intros Hp He. unfold fieldDiffers, differs_by_rule.
  destruct (get p k) as [| |x|n|s|r A|r fs] eqn:Hx; simpl;
    try (intros [= <-]; apply negb_true_iff).
  intros H.
  destruct (validateOptions (VArr r A) (get e k)) as [same|ex] eqn:Hv;
    simpl in H; [|discriminate].
  injection H as <-.
  destruct (validateOptions_Ok_array _ _ _ _ Hv) as [r' [B Hy]].
  rewrite Hy in Hv.
  destruct (validateOptions_objects r r' A B (Hp _ _ _ Hx) (He _ _ _ Hy))
    as [same' [Hv' Hsame]].
  rewrite Hv' in Hv. injection Hv as ->.
  rewrite negb_true_iff, <- not_true_iff_false, Hsame. split.
  - intros Hn [r2 [B2 [Heq Hs]]]. rewrite Hy in Heq. injection Heq as <- <-. auto.
  - intros Hn Hs. apply Hn. exists r', B. split; [exact Hy | exact Hs].
Qed.

(** Whenever toUpdate is computed on schemas whose array-valued fields hold
    option objects, it is the toUpdate of the specification. *)
Theorem toUpdate_follows_rule (updated current toUpd : list object) :
  Forall well_formed_lists updated ->
  Forall well_formed_lists current ->
  toUpdate (Some updated) (Some current) = Ok toUpd ->
  toUpdate_as_specified updated current toUpd.
Proof.
  intros Hu Hc Hrun p. rewrite List.Forall_forall in Hu, Hc.
  rewrite (toUpdate_callback _ _ _ p Hrun). split.
  - intros [Hin Hm]. split; [exact Hin|].
    destruct (first_named (get p "name") current) as [e|] eqn:He; [|destruct Hm].
    exists e. split; [reflexivity|].
    rewrite fieldsDiffer_reduce in Hm.
    destruct (reduce_true_inv _ _ _ Hm) as [k [Hk Hd]].
    exists k. split; [exact Hk|].
    apply List.find_some in He as [He _].
    apply (fieldDiffers_rule p e k true); auto.
  - intros [Hin [e [He [k [Hk Hrule]]]]]. split; [exact Hin|]. rewrite He.
    unfold toUpdate in Hrun. simpl in Hrun.
    destruct (filter_Ok_each _ _ _ p Hrun Hin) as [b Hb].
    simpl in Hb. rewrite find_sameName in Hb. simpl in Hb. rewrite He in Hb.
    destruct b; [exact Hb|]. exfalso.
    rewrite fieldsDiffer_reduce in Hb.
    pose proof (reduce_false_inv _ _ _ Hb k Hk) as Hf.
    apply List.find_some in He as [He _].
    apply (fieldDiffers_rule p e k false) in Hf; auto.
    apply Hf in Hrule. discriminate.
Qed.

(** ** C8: running the diff twice *)

(** C8, as stated, fails.  With two updated properties of one name, both
    are created by the first run and the second run still lists the second of
    them in toUpdate.  And a property with an object for a field, created by
    the first run, is listed in toUpdate by a second run that reads the same
    data again: the field is compared by identity. *)
Lemma second_run_not_empty :
  (reconcile (Some [a_text; a_number]) (Some []) = Ok (Diff [] [a_text; a_number] [])
   /\ reconcile (Some [a_text; a_number])
                (Some (apply_diff [] (Diff [] [a_text; a_number] [])))
      = Ok (Diff [] [] [a_number])
   /\ ~ idempotent_as_specified [a_text; a_number] [])
  /\ (reconcile (Some [tagged]) (Some []) = Ok (Diff [] [tagged] [])
      /\ same_content (apply_diff [] (Diff [] [tagged] [])) [reparsed_object tagged]
      /\ reconcile (Some [tagged]) (Some [reparsed_object tagged])
         = Ok (Diff [] [] [tagged])).
Proof.
  split.
  - split; [reflexivity|]. split; [reflexivity|].
    intros H. specialize (H _ eq_refl). discriminate H.
  - repeat split.
Qed.

Lemma toDelete_unfold updated current :
  toDelete (Some updated) (Some current) = filter (deletable updated) current.
Proof.
  unfold toDelete. simpl. apply filter_ext. intros p. unfold deletable.
  destruct (includes (get p "name") "hs_") as [hs|]; simpl; [|reflexivity].
  destruct (if hs then Ok true else includes (get p "name") "hubspot_")
    as [reserved|]; simpl; [|reflexivity].
  destruct (negb reserved); [|reflexivity].
  rewrite find_sameName. reflexivity.
Qed.

Lemma toCreate_unfold updated current :
  toCreate (Some updated) (Some current)
  = filter (fun p => Ok (absent (first_named (get p "name") current))) updated.
Proof.
  unfold toCreate. simpl. apply filter_ext. intros p.
  rewrite find_sameName. reflexivity.
Qed.

Lemma toUpdate_unfold updated current :
  toUpdate (Some updated) (Some current) = filter (changed current) updated.
Proof.
  unfold toUpdate. simpl. apply filter_ext. intros p. unfold changed.
  rewrite find_sameName. reflexivity.
Qed.

Lemma reconcile_inv u c d :
  reconcile u c = Ok d ->
  toDelete u c = Ok (to_delete d) /\ toCreate u c = Ok (to_create d)
  /\ toUpdate u c = Ok (to_update d).
Proof.
  unfold reconcile. intros H.
  destruct (toDelete u c); simpl in H; [|discriminate].
  destruct (toCreate u c); simpl in H; [|discriminate].
  destruct (toUpdate u c); simpl in H; [|discriminate].
  injection H as <-. auto.
Qed.

Lemma strict_eq_congr a b n :
  strict_eq a b = true -> strict_eq a n = strict_eq b n.
Proof.
  intros Hab. destruct (strict_eq b n) eqn:Hbn.
  - exact (strict_eq_trans _ _ _ Hab Hbn).
  - destruct (strict_eq a n) eqn:Han; [|reflexivity].
    rewrite strict_eq_sym in Hab.
    rewrite (strict_eq_trans _ _ _ Hab Han) in Hbn. discriminate.
Qed.

Lemma strict_eq_string s x : strict_eq (VStr s) x = true -> x = VStr s.
Proof.
  destruct x; simpl; try discriminate. intros H.
  apply String.eqb_eq in H. congruence.
Qed.

Lemma first_named_app n l1 l2 :
  first_named n (l1 ++ l2)
  = match first_named n l1 with
    | Some x => Some x
    | None => first_named n l2
    end.
Proof.
  unfold first_named. induction l1 as [|x l1 IH]; simpl; [reflexivity|].
  destruct (strict_eq (get x "name") n); [reflexivity | exact IH].
Qed.

Lemma first_named_map n (g : object -> object) l :
  (forall q, strict_eq (get (g q) "name") n = strict_eq (get q "name") n) ->
  first_named n (map g l) = option_map g (first_named n l).
Proof.
  intros Hg. unfold first_named. induction l as [|x l IH]; simpl; [reflexivity|].
  rewrite Hg. destruct (strict_eq (get x "name") n); [reflexivity | exact IH].
Qed.

Lemma first_named_filter n (keep : object -> bool) l :
  (forall q, In q l -> strict_eq (get q "name") n = true -> keep q = true) ->
  first_named n (List.filter keep l) = first_named n l.
Proof.
  intros Hk. unfold first_named. induction l as [|x l IH]; simpl; [reflexivity|].
  assert (IH' := IH (fun q Hq => Hk q (or_intror Hq))).
  destruct (strict_eq (get x "name") n) eqn:Hx.
  - rewrite (Hk x (or_introl eq_refl) Hx). simpl. rewrite Hx. reflexivity.
  - destruct (keep x); simpl; [rewrite Hx|]; exact IH'.
Qed.

Lemma first_named_Some n l e :
  first_named n l = Some e -> In e l /\ strict_eq (get e "name") n = true.
Proof. intros H. apply List.find_some in H. exact H. Qed.

Lemma same_named_same (l : list object) a b :
  List.NoDup (map (fun p => get p "name") l) ->
  In a l -> In b l -> get a "name" = get b "name" -> a = b.
Proof.
  induction l as [|x l IH]; intros Hnd Ha Hb Hab; [destruct Ha|].
  simpl in Hnd. apply List.NoDup_cons_iff in Hnd as [Hx Hnd].
  destruct Ha as [<-|Ha], Hb as [<-|Hb]; auto.
  - exfalso. apply Hx. rewrite Hab.
    apply (List.in_map (fun p => get p "name")). exact Hb.
  - exfalso. apply Hx. rewrite <- Hab.
    apply (List.in_map (fun p => get p "name")). exact Ha.
Qed.

Lemma fieldsDiffer_self p : well_formed_lists p -> fieldsDiffer p p = Ok false.
Proof.
  intros Hp. rewrite fieldsDiffer_reduce. apply reduce_all_false.
  intros k _. apply fieldDiffers_permuted. unfold permuted_or_identical.
  destruct (get p k) as [| |x|n|s|r A|r fs] eqn:Hx; try apply strict_eq_refl.
  exists r, A. pose proof (Hp _ _ _ Hx). auto using reordered_refl.
Qed.

Lemma deletable_true updated x :
  deletable updated x = Ok true -> first_named (get x "name") updated = None.
Proof.
  unfold deletable.
  destruct (includes (get x "name") "hs_") as [hs|]; simpl; [|discriminate].
  destruct (if hs then Ok true else includes (get x "name") "hubspot_")
    as [reserved|]; simpl; [|discriminate].
  destruct (negb reserved); [|discriminate].
  intros [= H]. destruct (first_named (get x "name") updated); [discriminate|].
  reflexivity.
Qed.

Lemma deletable_member updated p :
  In p updated -> string_named p -> deletable updated p = Ok false.
Proof.
  intros Hin [s Hs]. unfold deletable. rewrite Hs. simpl.
  assert (Hsome : is_Some (first_named (VStr s) updated)).
  { apply first_named_is_Some. exists p. rewrite Hs. split; [exact Hin|].
    apply strict_eq_refl. }
  destruct (str_includes "hs_" s); simpl; [reflexivity|].
  destruct (str_includes "hubspot_" s); simpl; [reflexivity|].
  destruct Hsome as [q ->]. reflexivity.
Qed.

Section Twice.

Variables (updated current : list object) (d : diff).
Hypothesis names_are_strings : Forall string_named updated.
Hypothesis names_are_distinct : List.NoDup (map (fun p => get p "name") updated).
Hypothesis lists_are_options : Forall well_formed_lists updated.
Hypothesis first_run : reconcile (Some updated) (Some current) = Ok d.

Lemma first_toDelete : filter (deletable updated) current = Ok (to_delete d).
Proof. rewrite <- toDelete_unfold. apply (reconcile_inv _ _ _ first_run). Qed.

Lemma first_toCreate :
  filter (fun p => Ok (absent (first_named (get p "name") current))) updated
  = Ok (to_create d).
Proof. rewrite <- toCreate_unfold. apply (reconcile_inv _ _ _ first_run). Qed.

Lemma first_toUpdate : filter (changed current) updated = Ok (to_update d).
Proof. rewrite <- toUpdate_unfold. apply (reconcile_inv _ _ _ first_run). Qed.

Lemma same_in_updated a b :
  In a updated -> In b updated ->
  strict_eq (get a "name") (get b "name") = true -> a = b.
Proof.
  intros Ha Hb Hab. apply (same_named_same updated); auto.
  pose proof names_are_strings as Hs. rewrite List.Forall_forall in Hs.
  destruct (Hs a Ha) as [s Hn]. rewrite Hn in Hab |- *.
  symmetry. apply strict_eq_string. exact Hab.
Qed.

Lemma created_in_updated p : In p (to_create d) -> In p updated.
Proof. intros H. apply (filter_In _ _ _ p first_toCreate) in H. tauto. Qed.

Lemma changed_in_updated p : In p (to_update d) -> In p updated.
Proof. intros H. apply (filter_In _ _ _ p first_toUpdate) in H. tauto. Qed.

Lemma replacement_name q n :
  strict_eq (get (replacement d q) "name") n = strict_eq (get q "name") n.
Proof.
  unfold replacement.
  destruct (first_named (get q "name") (to_update d)) as [u|] eqn:Hu; [|reflexivity].
  apply first_named_Some in Hu as [_ Hu]. apply strict_eq_congr. exact Hu.
Qed.

Lemma kept_when_updated p q :
  In p updated -> In q current ->
  strict_eq (get q "name") (get p "name") = true ->
  negb (deleted_by d q) = true.
Proof.
  intros Hp Hq Hqp. apply negb_true_iff.
  destruct (deleted_by d q) eqn:Hd; [|reflexivity]. exfalso.
  unfold deleted_by in Hd. apply existsb_exists in Hd as [x [Hx Hxq]].
  apply (filter_In _ _ _ x first_toDelete) in Hx as [_ Hx].
  apply deletable_true in Hx.
  assert (Hn : named_in (get x "name") updated).
  { exists p. split; [exact Hp|]. rewrite strict_eq_sym.
    exact (strict_eq_trans _ _ _ Hxq Hqp). }
  apply first_named_is_Some in Hn as [y Hy]. congruence.
Qed.

Lemma first_named_applied p :
  In p updated ->
  first_named (get p "name") (apply_diff current d)
  = match first_named (get p "name") current with
    | Some e => Some (replacement d e)
    | None => first_named (get p "name") (to_create d)
    end.
Proof.
  intros Hp. unfold apply_diff.
  rewrite first_named_app, first_named_map by (intros q; apply replacement_name).
  rewrite first_named_filter by (intros q; apply kept_when_updated; exact Hp).
  destruct (first_named (get p "name") current); reflexivity.
Qed.

Lemma second_toDelete :
  toDelete (Some updated) (Some (apply_diff current d)) = Ok [].
Proof.
  rewrite toDelete_unfold. apply filter_all_false. intros x Hx.
  pose proof names_are_strings as Hs. rewrite List.Forall_forall in Hs.
  unfold apply_diff in Hx. apply in_app_or in Hx as [Hx|Hx].
  - apply in_map_iff in Hx as [q [<- Hq]].
    apply List.filter_In in Hq as [Hq Hkeep]. unfold replacement.
    destruct (first_named (get q "name") (to_update d)) as [u|] eqn:Hu.
    + apply first_named_Some in Hu as [Hu _]. apply changed_in_updated in Hu.
      apply deletable_member; auto.
    + destruct (filter_Ok_each _ _ _ q first_toDelete Hq) as [[|] Hb]; [|exact Hb].
      exfalso. apply negb_true_iff in Hkeep.
      assert (Hin : In q (to_delete d)) by (apply (filter_In _ _ _ q first_toDelete); auto).
      unfold deleted_by in Hkeep.
      assert (Hex : existsb (fun x => strict_eq (get x "name") (get q "name"))
                            (to_delete d) = true).
      { apply existsb_exists. exists q. split; [exact Hin | apply strict_eq_refl]. }
      congruence.
  - apply created_in_updated in Hx. apply deletable_member; auto.
Qed.

Lemma created_when_missing p :
  In p updated -> first_named (get p "name") current = None ->
  first_named (get p "name") (to_create d) = Some p.
Proof.
  intros Hp Hnone.
  assert (Hin : In p (to_create d)).
  { apply (filter_In _ _ _ p first_toCreate). split; [exact Hp|].
    rewrite Hnone. reflexivity. }
  destruct (first_named (get p "name") (to_create d)) as [x|] eqn:Hx.
  - apply first_named_Some in Hx as [Hx Hxp]. f_equal.
    apply same_in_updated; auto using created_in_updated.
  - exfalso. assert (Hn : named_in (get p "name") (to_create d)).
    { exists p. split; [exact Hin | apply strict_eq_refl]. }
    apply first_named_is_Some in Hn as [y Hy]. congruence.
Qed.

Lemma second_toCreate :
  toCreate (Some updated) (Some (apply_diff current d)) = Ok [].
Proof.
  rewrite toCreate_unfold. apply filter_all_false. intros p Hp.
  rewrite (first_named_applied p Hp).
  destruct (first_named (get p "name") current) eqn:Hc.
  - reflexivity.
  - rewrite (created_when_missing p Hp Hc). reflexivity.
Qed.

Lemma second_toUpdate :
  toUpdate (Some updated) (Some (apply_diff current d)) = Ok [].
Proof.
  rewrite toUpdate_unfold. apply filter_all_false. intros p Hp.
  pose proof lists_are_options as Hw. rewrite List.Forall_forall in Hw.
  unfold changed at 1. rewrite (first_named_applied p Hp).
  destruct (first_named (get p "name") current) as [e|] eqn:Hc.
  - apply first_named_Some in Hc as Hc'. destruct Hc' as [He Hep].
    unfold replacement.
    destruct (first_named (get e "name") (to_update d)) as [u|] eqn:Hu.
    + apply first_named_Some in Hu as [Hu Hue].
      assert (u = p) as ->.
      { apply same_in_updated; auto using changed_in_updated.
        exact (strict_eq_trans _ _ _ Hue Hep). }
      apply fieldsDiffer_self. auto.
    + destruct (filter_Ok_each _ _ _ p first_toUpdate Hp) as [[|] Hb].
      * exfalso.
        assert (Hin : In p (to_update d)) by (apply (filter_In _ _ _ p first_toUpdate); auto).
        assert (Hn : named_in (get e "name") (to_update d)).
        { exists p. split; [exact Hin|]. rewrite strict_eq_sym. exact Hep. }
        apply first_named_is_Some in Hn as [y Hy]. congruence.
      * unfold changed in Hb. rewrite Hc in Hb. exact Hb.
  - rewrite (created_when_missing p Hp Hc). apply fieldsDiffer_self. auto.
Qed.

End Twice.

Lemma second_run_on_same_objects (updated current : list object) (d : diff) :
  Forall string_named updated ->
  List.NoDup (map (fun p => get p "name") updated) ->
  Forall well_formed_lists updated ->
  reconcile (Some updated) (Some current) = Ok d ->
  reconcile (Some updated) (Some (apply_diff current d)) = Ok (Diff [] [] []).
Proof.
  intros Hs Hn Hw Hrun. unfold reconcile.
  rewrite (second_toDelete updated current d Hs Hrun). simpl.
  rewrite (second_toCreate updated current d Hs Hn Hrun). simpl.
  rewrite (second_toUpdate updated current d Hs Hn Hw Hrun). reflexivity.
Qed.

(** ** The same data in new objects *)

Lemma erase_primitive x x' : erase x = erase x' -> primitive x = true -> x' = x.
Proof. destruct x, x'; simpl; intros H Hp; try discriminate; congruence. Qed.

Lemma strict_eq_copies x x' y y' :
  erase x = erase x' -> erase y = erase y' ->
  primitive x = true \/ primitive y = true ->
  strict_eq x y = strict_eq x' y'.
Proof.
  intros Hx Hy [Hp|Hp].
  - rewrite (erase_primitive _ _ Hx Hp).
    destruct x; try discriminate Hp; destruct y, y'; simpl in Hy;
      try discriminate Hy; try reflexivity; injection Hy as ->; reflexivity.
  - rewrite (erase_primitive _ _ Hy Hp).
    destruct y; try discriminate Hp; destruct x, x'; simpl in Hx;
      try discriminate Hx; try reflexivity; injection Hx as ->; reflexivity.
Qed.

Lemma field_copies k fs fs' :
  map (fun kv => (fst kv, erase (snd kv))) fs
  = map (fun kv => (fst kv, erase (snd kv))) fs' ->
  erase (field k fs) = erase (field k fs').
Proof.
  revert fs'. induction fs as [|[k1 v1] fs IH]; intros [|[k2 v2] fs'] H;
    try discriminate H; [reflexivity|].
  simpl in H. injection H as -> Hv Hrest. simpl.
  destruct (String.eqb k2 k); [exact Hv | exact (IH _ Hrest)].
Qed.

Lemma get_copies q q' k :
  erase_object q = erase_object q' -> erase (get q k) = erase (get q' k).
Proof.
  destruct q as [r fs], q' as [r' fs']. unfold erase_object, get. simpl.
  intros [= H]. exact (field_copies k fs fs' H).
Qed.

Lemma keys_copies q q' : erase_object q = erase_object q' -> keys q = keys q'.
Proof.
  destruct q as [r fs], q' as [r' fs']. unfold erase_object, keys. simpl.
  intros [= H]. apply (f_equal (map fst)) in H. rewrite !map_map in H. exact H.
Qed.

Lemma truthy_copies v v' : erase v = erase v' -> truthy v = truthy v'.
Proof. destruct v, v'; simpl; intros H; try discriminate H; congruence. Qed.

Lemma isArray_copies v v' : erase v = erase v' -> isArray v = isArray v'.
Proof. destruct v, v'; simpl; intros H; try discriminate H; reflexivity. Qed.

Lemma includes_copies v v' s : erase v = erase v' -> includes v s = includes v' s.
Proof.
  destruct v, v'; simpl; intros H; try discriminate H; try reflexivity.
  - congruence.
  - injection H as H. f_equal. revert elems0 H.
    induction elems as [|e l IH]; intros [|e' l'] H; try discriminate H; [reflexivity|].
    simpl in H. injection H as He Hl. cbn [existsb].
    rewrite (strict_eq_copies (VStr s) (VStr s) e e' eq_refl He (or_introl eq_refl)).
    rewrite (IH _ Hl). reflexivity.
Qed.

Lemma first_named_copies n n' l l' :
  same_content l l' ->
  (forall q q', In q l -> erase_object q = erase_object q' ->
                strict_eq (get q "name") n = strict_eq (get q' "name") n') ->
  match first_named n l, first_named n' l' with
  | Some e, Some e' => erase_object e = erase_object e'
  | None, None => True
  | _, _ => False
  end.
Proof.
  unfold same_content, first_named. intros H Hn. revert l' H.
  induction l as [|q l IH]; intros [|q' l'] H; try discriminate H; [exact I|].
  cbn [map] in H.
  assert (Hq : erase_object q = erase_object q') by congruence.
  assert (Hl : map erase_object l = map erase_object l') by congruence.
  simpl. rewrite <- (Hn q q' (or_introl eq_refl) Hq).
  destruct (strict_eq (get q "name") n); [exact Hq|].
  apply IH; [|exact Hl]. intros x x' Hx. apply Hn. right; exact Hx.
Qed.

Lemma member_copies v v' k :
  erase v = erase v' ->
  match member v k, member v' k with
  | Ok x, Ok x' => erase x = erase x'
  | Throw e, Throw e' => e = e'
  | _, _ => False
  end.
Proof.
  destruct v, v'; simpl; intros H; try discriminate H; try reflexivity.
  injection H as H. exact (field_copies k _ _ H).
Qed.

Lemma plain_option_label a k :
  plain_option a -> k = "label" \/ k = "value" ->
  exists x, member a k = Ok x /\ primitive x = true.
Proof.
  intros [r [fs [-> [Hl Hv]]]] [->| ->]; simpl; eauto.
Qed.

Lemma sameOption_copies a a' b b' :
  erase a = erase a' -> erase b = erase b' ->
  plain_option a \/ plain_option b ->
  sameOption a b = sameOption a' b'.
Proof.
  intros Ha Hb Hplain. unfold sameOption.
  pose proof (member_copies b b' "label" Hb) as Hbl.
  pose proof (member_copies a a' "label" Ha) as Hal.
  pose proof (member_copies b b' "value" Hb) as Hbv.
  pose proof (member_copies a a' "value" Ha) as Hav.
  assert (Hlab : forall x x' y y',
             member b "label" = Ok x -> member b' "label" = Ok x' ->
             member a "label" = Ok y -> member a' "label" = Ok y' ->
             strict_eq x y = strict_eq x' y').
  { intros x x' y y' H1 H2 H3 H4. rewrite H1, H2 in Hbl. rewrite H3, H4 in Hal.
    apply strict_eq_copies; try assumption.
    destruct Hplain as [Hp|Hp].
    - right. destruct (plain_option_label a "label" Hp (or_introl eq_refl)) as [z [Hz Hpz]].
      congruence.
    - left. destruct (plain_option_label b "label" Hp (or_introl eq_refl)) as [z [Hz Hpz]].
      congruence. }
  assert (Hval : forall x x' y y',
             member b "value" = Ok x -> member b' "value" = Ok x' ->
             member a "value" = Ok y -> member a' "value" = Ok y' ->
             strict_eq x y = strict_eq x' y').
  { intros x x' y y' H1 H2 H3 H4. rewrite H1, H2 in Hbv. rewrite H3, H4 in Hav.
    apply strict_eq_copies; try assumption.
    destruct Hplain as [Hp|Hp].
    - right. destruct (plain_option_label a "value" Hp (or_intror eq_refl)) as [z [Hz Hpz]].
      congruence.
    - left. destruct (plain_option_label b "value" Hp (or_intror eq_refl)) as [z [Hz Hpz]].
      congruence. }
  destruct (member b "label") as [bl|e1], (member b' "label") as [bl'|e1'];
    [|destruct Hbl|destruct Hbl|simpl; congruence].
  destruct (member a "label") as [al|e2], (member a' "label") as [al'|e2'];
    [|destruct Hal|destruct Hal|simpl; congruence].
  simpl. rewrite <- (Hlab bl bl' al al' eq_refl eq_refl eq_refl eq_refl).
  destruct (strict_eq bl al); [|reflexivity].
  destruct (member b "value") as [bv|e3], (member b' "value") as [bv'|e3'];
    [|destruct Hbv|destruct Hbv|simpl; congruence].
  destruct (member a "value") as [av|e4], (member a' "value") as [av'|e4'];
    [|destruct Hav|destruct Hav|simpl; congruence].
  simpl. rewrite (Hval bv bv' av av' eq_refl eq_refl eq_refl eq_refl). reflexivity.
Qed.

Lemma found_copies (f f' : value -> result bool) B :
  forall B',
    map erase B = map erase B' ->
    (forall b b', In b B -> erase b = erase b' -> f b = f' b') ->
    (let* hit := find f B in Ok (found hit))
    = (let* hit := find f' B' in Ok (found hit)).
Proof.
  induction B as [|b B IH]; intros [|b' B'] H Hf; try discriminate H; [reflexivity|].
  cbn [map] in H.
  assert (Hb : erase b = erase b') by congruence.
  assert (HB : map erase B = map erase B') by congruence.
  cbn [find]. rewrite <- (Hf b b' (or_introl eq_refl) Hb).
  destruct (f b) as [[|]|e]; simpl.
  - rewrite (truthy_copies b b' Hb). reflexivity.
  - apply IH; [exact HB|]. intros x x' Hx. apply Hf. right; exact Hx.
  - reflexivity.
Qed.

Lemma every_copies (f f' : value -> result bool) A :
  forall A',
    map erase A = map erase A' ->
    (forall a a', In a A -> erase a = erase a' -> f a = f' a') ->
    every f A = every f' A'.
Proof.
  induction A as [|a A IH]; intros [|a' A'] H Hf; try discriminate H; [reflexivity|].
  cbn [map] in H.
  assert (Ha : erase a = erase a') by congruence.
  assert (HA : map erase A = map erase A') by congruence.
  cbn [every]. rewrite <- (Hf a a' (or_introl eq_refl) Ha).
  destruct (f a) as [[|]|e]; simpl; try reflexivity.
  apply IH; [exact HA|]. intros x x' Hx. apply Hf. right; exact Hx.
Qed.

Lemma elements_copies v v' :
  erase v = erase v' ->
  match elements v, elements v' with
  | Ok l, Ok l' => map erase l = map erase l'
  | Throw e, Throw e' => e = e'
  | _, _ => False
  end.
Proof.
  destruct v, v'; simpl; intros H; try discriminate H; try reflexivity.
  congruence.
Qed.

Lemma shouldContainAll_copies x x' y y' :
  erase x = erase x' -> erase y = erase y' ->
  plain_list x \/ plain_list y ->
  shouldContainAll x y = shouldContainAll x' y'.
Proof.
  intros Hx Hy Hplain. unfold shouldContainAll.
  pose proof (elements_copies x x' Hx) as Hex.
  pose proof (elements_copies y y' Hy) as Hey.
  destruct (elements x) as [A|e] eqn:HA, (elements x') as [A'|e'];
    [|destruct Hex|destruct Hex|simpl; congruence].
  simpl. apply every_copies; [exact Hex|]. intros a a' Ha Haa.
  destruct (elements y) as [B|e] eqn:HB, (elements y') as [B'|e'];
    [|destruct Hey|destruct Hey|simpl; congruence].
  simpl. apply found_copies; [exact Hey|]. intros b b' Hb Hbb.
  apply sameOption_copies; try assumption.
  destruct Hplain as [[r [L [-> HL]]]|[r [L [-> HL]]]].
  - left. simpl in HA. injection HA as <-. rewrite List.Forall_forall in HL. auto.
  - right. simpl in HB. injection HB as <-. rewrite List.Forall_forall in HL. auto.
Qed.

Lemma validateOptions_copies x x' y y' :
  erase x = erase x' -> erase y = erase y' -> plain_list x ->
  validateOptions x y = validateOptions x' y'.
Proof.
  intros Hx Hy Hplain. unfold validateOptions.
  rewrite (shouldContainAll_copies x x' y y' Hx Hy (or_introl Hplain)).
  destruct (shouldContainAll x' y') as [[|]|e]; simpl; try reflexivity.
  apply shouldContainAll_copies; auto.
Qed.

Lemma fieldDiffers_copies p p' e e' k :
  plain_fields p ->
  erase_object p = erase_object p' -> erase_object e = erase_object e' ->
  fieldDiffers p e k = fieldDiffers p' e' k.
Proof.
  intros Hplain Hp He. unfold fieldDiffers.
  pose proof (get_copies p p' k Hp) as Hpk.
  pose proof (get_copies e e' k He) as Hek.
  rewrite <- (isArray_copies _ _ Hpk).
  specialize (Hplain k).
  destruct (get p k) as [| |b|n|s|r A|r fs] eqn:Hget; cbn [isArray];
    try (rewrite (strict_eq_copies _ _ _ _ Hpk Hek (or_introl eq_refl)); reflexivity).
  - rewrite (validateOptions_copies (VArr r A) (get p' k) (get e k) (get e' k) Hpk Hek)
      by (exists r, A; auto).
    reflexivity.
  - destruct Hplain.
Qed.

Lemma fieldsDiffer_copies p p' e e' :
  plain_fields p ->
  erase_object p = erase_object p' -> erase_object e = erase_object e' ->
  fieldsDiffer p e = fieldsDiffer p' e'.
Proof.
  intros Hplain Hp He. unfold fieldsDiffer. rewrite <- (keys_copies p p' Hp).
  generalize false. induction (keys p) as [|k ks IH]; intros acc; [reflexivity|].
  cbn [reduce]. destruct acc; simpl.
  - apply IH.
  - rewrite <- (fieldDiffers_copies p p' e e' k Hplain Hp He).
    destruct (fieldDiffers p e k); simpl; [apply IH | reflexivity].
Qed.

Lemma copy_of_member (l l' : list object) q' :
  same_content l l' -> In q' l' ->
  exists q, In q l /\ erase_object q = erase_object q'.
Proof.
  unfold same_content. revert l'.
  induction l as [|x l IH]; intros [|x' l'] H Hin; try discriminate H; [destruct Hin|].
  cbn [map] in H.
  assert (Hx : erase_object x = erase_object x') by congruence.
  assert (Hl : map erase_object l = map erase_object l') by congruence.
  destruct Hin as [<-|Hin].
  - exists x. split; [left; reflexivity | exact Hx].
  - destruct (IH l' Hl Hin) as [q [Hq Hqq]]. exists q. split; [right; exact Hq | exact Hqq].
Qed.

Lemma filter_nil_inv {A} (f : A -> result bool) l x :
  filter f l = Ok [] -> In x l -> f x = Ok false.
Proof.
  intros H Hin. destruct (filter_Ok_each _ _ _ x H Hin) as [[|] Hb]; [|exact Hb].
  exfalso. apply (filter_In _ _ _ x H). auto.
Qed.

Lemma string_named_primitive p : string_named p -> primitive (get p "name") = true.
Proof. intros [s ->]. reflexivity. Qed.

Lemma absent_copies n n' l l' :
  same_content l l' ->
  (forall q q', In q l -> erase_object q = erase_object q' ->
                strict_eq (get q "name") n = strict_eq (get q' "name") n') ->
  absent (first_named n l) = absent (first_named n' l').
Proof.
  intros Hl Hn. pose proof (first_named_copies n n' l l' Hl Hn) as H.
  destruct (first_named n l), (first_named n' l'); try destruct H; reflexivity.
Qed.

Lemma deletable_copies updated updated' q q' :
  Forall string_named updated -> same_content updated updated' ->
  erase_object q = erase_object q' ->
  deletable updated q = deletable updated' q'.
Proof.
  intros Hs Hu Hq. unfold deletable.
  pose proof (get_copies q q' "name" Hq) as Hn.
  rewrite <- !(includes_copies _ _ _ Hn).
  rewrite (absent_copies (get q "name") (get q' "name") updated updated' Hu);
    [reflexivity|].
  intros x x' Hx Hxx. apply strict_eq_copies; [apply get_copies; exact Hxx | exact Hn|].
  left. apply string_named_primitive. rewrite List.Forall_forall in Hs. auto.
Qed.

Lemma named_copies p p' (l l' : list object) :
  string_named p -> erase_object p = erase_object p' -> same_content l l' ->
  forall q q', In q l -> erase_object q = erase_object q' ->
               strict_eq (get q "name") (get p "name")
               = strict_eq (get q' "name") (get p' "name").
Proof.
  intros Hs Hp Hl q q' _ Hq.
  apply strict_eq_copies; [apply get_copies; exact Hq | apply get_copies; exact Hp|].
  right. apply string_named_primitive. exact Hs.
Qed.

Lemma changed_copies current current' p p' :
  string_named p -> plain_fields p ->
  erase_object p = erase_object p' -> same_content current current' ->
  changed current p = changed current' p'.
Proof.
  intros Hs Hplain Hp Hc. unfold changed.
  pose proof (first_named_copies (get p "name") (get p' "name") current current' Hc
                (named_copies p p' current current' Hs Hp Hc)) as H.
  destruct (first_named (get p "name") current) as [e|],
           (first_named (get p' "name") current') as [e'|];
    [|destruct H|destruct H|reflexivity].
  apply fieldsDiffer_copies; assumption.
Qed.

Lemma plain_fields_well_formed p : plain_fields p -> well_formed_lists p.
Proof.
  intros Hp k r A Hk. specialize (Hp k). rewrite Hk in Hp.
  eapply List.Forall_impl; [|exact Hp].
  intros a [r' [fs [-> _]]]. exists r', fs. reflexivity.
Qed.

(** C8, amended: when the names of the updated properties are strings, no two
    of them are the same, and every field of an updated property is
    primitive or a list of option objects with primitive label and value,
    a second run finds nothing to do.  The first run's results are applied
    to the current list; the second run reads the same updated properties and
    the resulting list again, as new objects, and yields empty toDelete,
    toCreate and toUpdate. *)
Theorem reconcile_idempotent (updated current : list object) (d : diff) :
  Forall string_named updated ->
  List.NoDup (map (fun p => get p "name") updated) ->
  Forall plain_fields updated ->
  reconcile (Some updated) (Some current) = Ok d ->
  forall updated' current',
    same_content updated updated' ->
    same_content (apply_diff current d) current' ->
    reconcile (Some updated') (Some current') = Ok (Diff [] [] []).
Proof.
  intros Hs Hn Hplain Hrun updated' current' Hu Hc.
  assert (Hw : Forall well_formed_lists updated).
  { eapply List.Forall_impl; [|exact Hplain]. apply plain_fields_well_formed. }
  pose proof (second_run_on_same_objects updated current d Hs Hn Hw Hrun) as Hsame.
  apply reconcile_inv in Hsame as [Hdel [Hcre Hupd]]. simpl in Hdel, Hcre, Hupd.
  rewrite toDelete_unfold in Hdel. rewrite toCreate_unfold in Hcre.
  rewrite toUpdate_unfold in Hupd.
  rewrite List.Forall_forall in Hs, Hplain.
  assert (Hu' : same_content updated' updated) by (symmetry; exact Hu).
  unfold reconcile.
  rewrite toDelete_unfold, (filter_all_false (deletable updated') current'); simpl.
  2: { intros q' Hq'. destruct (copy_of_member _ _ q' Hc Hq') as [q [Hq Hqq]].
       rewrite <- (deletable_copies updated updated' q q')
         by (try apply List.Forall_forall; assumption).
       exact (filter_nil_inv _ _ q Hdel Hq). }
  rewrite toCreate_unfold, filter_all_false; simpl.
  2: { intros p' Hp'. destruct (copy_of_member _ _ p' Hu Hp') as [p [Hp Hpp]].
       rewrite <- (absent_copies (get p "name") (get p' "name") _ _ Hc
                     (named_copies p p' _ _ (Hs p Hp) Hpp Hc)).
       exact (filter_nil_inv _ _ p Hcre Hp). }
  rewrite toUpdate_unfold, filter_all_false; simpl; [reflexivity|].
  intros p' Hp'. destruct (copy_of_member _ _ p' Hu Hp') as [p [Hp Hpp]].
  rewrite <- (changed_copies _ current' p p' (Hs p Hp) (Hplain p Hp) Hpp Hc).
  exact (filter_nil_inv _ _ p Hupd Hp).
Qed.

Lemma reconcile_idempotent_witness :
  reconcile (Some (map reparsed_object [status_local; a_text]))
            (Some (map reparsed_object
                       (apply_diff [status_short; legacy_field; hs_object_id]
                                   (Diff [legacy_field] [a_text] [status_local]))))
  = Ok (Diff [] [] []).
Proof.
  apply (reconcile_idempotent [status_local; a_text]
                              [status_short; legacy_field; hs_object_id]
                              (Diff [legacy_field] [a_text] [status_local])).
  - repeat constructor; eexists; reflexivity.
  - simpl. repeat constructor; simpl; intuition discriminate.
  - apply List.Forall_cons; [|apply List.Forall_cons; [|apply List.Forall_nil]];
      intros k; cbv -[String.eqb];
      repeat match goal with
             | |- context [String.eqb ?a k] => destruct (String.eqb a k)
             end;
      try exact I;
      repeat (apply List.Forall_cons;
              [eexists; eexists; split; [reflexivity | split; reflexivity]|]);
      apply List.Forall_nil.
  - reflexivity.
  - reflexivity.
  - reflexivity.
Defined.

(** ** Running asynchronous computations *)

Lemma bind_Ok {A B} (m : M A) (k : A -> M B) seen es a :
  m seen = (es, Ok a) ->
  bind m k seen = (es ++ fst (k a (seen ++ es)), snd (k a (seen ++ es))).
Proof. intros H. unfold bind. rewrite H. destruct (k a (seen ++ es)); reflexivity. Qed.

Lemma bind_Throw {A B} (m : M A) (k : A -> M B) seen es e :
  m seen = (es, Throw e) -> bind m k seen = (es, Throw e).
Proof. intros H. unfold bind. rewrite H. reflexivity. Qed.

Lemma bind_inv {A B} (m : M A) (k : A -> M B) seen es r :
  bind m k seen = (es, r) ->
  (exists es1 a es2, m seen = (es1, Ok a) /\ k a (seen ++ es1) = (es2, r)
                     /\ es = es1 ++ es2)
  \/ (exists e, m seen = (es, Throw e) /\ r = Throw e).
Proof.
  unfold bind. destruct (m seen) as [es1 [a|e]].
  - destruct (k a (seen ++ es1)) as [es2 r2] eqn:Hk. intros [= <- <-].
    left. exists es1, a, es2. auto.
  - intros [= <- <-]. right. exists e. auto.
Qed.

Lemma for_of_app {A S} (body : S -> A -> M S) l1 l2 s seen es1 s1 :
  for_of l1 s body seen = (es1, Ok s1) ->
  for_of (l1 ++ l2) s body seen
  = (es1 ++ fst (for_of l2 s1 body (seen ++ es1)),
     snd (for_of l2 s1 body (seen ++ es1))).
Proof.
  revert s seen es1. induction l1 as [|x l1 IH]; intros s seen es1 H.
  - injection H as <- <-. simpl. rewrite app_nil_r.
    destruct (for_of l2 s body seen); reflexivity.
  - simpl in H |- *. apply bind_inv in H as [[e1 [a [e2 [Hx [Hrest ->]]]]]|[e [_ [=]]]].
    rewrite (bind_Ok _ _ _ _ _ Hx), (IH _ _ _ Hrest). simpl.
    rewrite <- !app_assoc. reflexivity.
Qed.

Lemma getExistingSchemas_run w seen :
  getExistingSchemas w seen
  = ([fetch], match remote_schemas w with
              | Some results => Ok (keyBy results)
              | None => Throw AxiosError
              end).
Proof. reflexivity. Qed.

(** ** C7: the delete flow on an identifier the index does not hold *)

Lemma deleteSchema_returns w id seen :
  exists es success, deleteSchema w id seen = (es, Ok success).
Proof.
  unfold deleteSchema, try_catch, bind, http, log, log_error, ret, throw.
  destruct (respond w seen _); simpl.
  - destruct (respond w _ _); simpl; eauto.
  - eauto.
Qed.

Lemma deleteOne_known w meta entry seen :
  known meta entry -> exists es, deleteOne w meta entry seen = (es, Ok meta).
Proof.
  intros [path [ty [-> [record Hrec]]]]. unfold deleteOne. rewrite Hrec.
  unfold deleteFound.
  destruct (deleteSchema_returns w (objectTypeId record) seen) as [es [b H]].
  rewrite (bind_Ok _ _ _ _ _ H). destruct b; simpl; eauto.
Qed.

Lemma delete_loop_known w meta entries seen :
  Forall (known meta) entries ->
  exists es, for_of entries meta (deleteOne w) seen = (es, Ok meta).
Proof.
  intros H. revert seen. induction H as [|x l Hx _ IH]; intros seen; simpl.
  - exists []. reflexivity.
  - destruct (deleteOne_known w meta x seen Hx) as [es1 H1].
    destruct (IH (seen ++ es1)) as [es2 H2].
    rewrite (bind_Ok _ _ _ _ _ H1), H2. simpl. eauto.
Qed.

(** X23: when the index fetched at the start holds the identifiers of the
    entries before [(path, objectType)] but not [objectType], and
    [objectType] names no member that objects inherit, the delete flow does
    for those entries what it would do for them alone, then throws a
    TypeError on the lookup: nothing is logged or requested for the entry, the
    entries after it are never reached, and the flow ends with the exception
    instead of a result. *)
Theorem deleteSchemas_unknown_identifier
    (w : world) (results : list Schema)
    (before after : list (option (string * string))) (path objectType : string) :
  remote_schemas w = Some results ->
  Forall (known (keyBy results)) before ->
  keyBy results !! objectType = None ->
  inherited objectType = false ->
  exists es,
    deleteSchemas w before [] = (es, Ok tt)
    /\ deleteSchemas w (before ++ Some (path, objectType) :: after) []
       = (es, Throw TypeError).
Proof.
  intros Hget Hbefore Hmissing Hordinary.
  destruct (delete_loop_known w (keyBy results) before [fetch] Hbefore) as [es Hloop].
  exists (fetch :: es). unfold deleteSchemas.
  assert (Hfetch : getExistingSchemas w [] = ([fetch], Ok (keyBy results))).
  { rewrite getExistingSchemas_run, Hget. reflexivity. }
  rewrite !(bind_Ok _ _ _ _ _ Hfetch). simpl. split.
  - rewrite (bind_Ok _ _ _ _ _ Hloop). simpl. rewrite app_nil_r. reflexivity.
  - assert (Hall : for_of (before ++ Some (path, objectType) :: after)
                          (keyBy results) (deleteOne w) [fetch]
                   = (es, Throw TypeError)).
    { rewrite (for_of_app _ _ _ _ _ _ _ Hloop). simpl.
      rewrite Hmissing, Hordinary. simpl. rewrite app_nil_r. reflexivity. }
    rewrite (bind_Throw _ _ _ _ _ Hall). reflexivity.
Qed.

Lemma deleteSchemas_unknown_identifier_witness :
  exists es,
    deleteSchemas deal_world [Some ("/s/deal.json", "deal")] [] = (es, Ok tt)
    /\ deleteSchemas deal_world
         ([Some ("/s/deal.json", "deal")]
            ++ Some ("/s/ghost.json", "ghost") :: [Some ("/s/deal.json", "deal")]) []
       = (es, Throw TypeError).
Proof.
  apply (deleteSchemas_unknown_identifier
           deal_world [schema_of "deal" "2-1" (Some []) None]).
  - reflexivity.
  - apply List.Forall_cons; [|apply List.Forall_nil].
    exists "/s/deal.json", "deal". split; [reflexivity|].
    eexists. vm_compute. reflexivity.
  - vm_compute. reflexivity.
  - reflexivity.
Defined.

(** Scenario 5. *)
Example scenario_5 :
  deleteSchemas deal_world
    [Some ("/s/deal.json", "deal"); Some ("/s/ghost.json", "ghost");
     Some ("/s/deal.json", "deal")] []
  = ([fetch;
      Http (Request DELETE "/crm/v3/schemas/2-1" NoBody);
      Http (Request DELETE "/crm/v3/schemas/2-1/purge" NoBody);
      Log "Deleted deal"],
     Throw TypeError).
Proof. vm_compute. reflexivity. Qed.

(** C7: [constructor.json] matches the pattern and [constructor] is no key
    of the index built at the start, so the specification has the lookup raise an
    error that ends the run, as it does for [ghost.json].  The lookup
    [meta["constructor"]] finds the member every object inherits, whose
    [objectTypeId] is [undefined]: nothing is raised, the flow requests the
    deletion and the purge of the schema [undefined], logs the deletion of
    [constructor] and returns. *)
Theorem deleteSchemas_inherited_identifier :
  objectTypes ["/s/constructor.json"] = [Some ("/s/constructor.json", "constructor")]
  /\ keyBy [schema_of "deal" "2-1" (Some []) None] !! "constructor" = None
  /\ deleteSchemas deal_world (objectTypes ["/s/constructor.json"]) []
     = ([fetch;
         Http (Request DELETE "/crm/v3/schemas/undefined" NoBody);
         Http (Request DELETE "/crm/v3/schemas/undefined/purge" NoBody);
         Log "Deleted constructor"],
        Ok tt)
  /\ deleteSchemas deal_world (objectTypes ["/s/ghost.json"]) []
     = ([fetch], Throw TypeError).
Proof. repeat split; vm_compute; reflexivity. Qed.

(** ** The requests of a run *)

Lemma requests_app es1 es2 : requests (es1 ++ es2) = requests es1 ++ requests es2.
Proof.
  induction es1 as [|e es1 IH]; simpl; [reflexivity|].
  destruct e; simpl; rewrite IH; reflexivity.
Qed.

Lemma issues_bind {A B} (m : M A) (k : A -> M B) P1 P2 :
  issues m P1 -> (forall a, issues (k a) P2) -> issues (bind m k) (P1 ++ P2).
Proof.
  intros Hm Hk seen es r H.
  apply bind_inv in H as [[es1 [a [es2 [H1 [H2 ->]]]]]|[e [H1 ->]]].
  - destruct (Hm _ _ _ H1) as [_ Hall]. rewrite requests_app, (Hall a eq_refl).
    destruct (Hk a _ _ _ H2) as [Hpre Hall2]. split.
    + apply prefix_app. exact Hpre.
    + intros b Hb. rewrite (Hall2 b Hb). reflexivity.
  - destruct (Hm _ _ _ H1) as [Hpre _]. split.
    + apply prefix_app_r. exact Hpre.
    + discriminate.
Qed.

Lemma issues_nothing {A} (m : M A) :
  (forall seen, requests (fst (m seen)) = []) -> issues m [].
Proof.
  intros H seen es r Hrun. specialize (H seen). rewrite Hrun in H. simpl in H.
  rewrite H. split; [reflexivity | auto].
Qed.

Lemma issues_one {A} (m : M A) req :
  (forall seen, requests (fst (m seen)) = [req]) -> issues m [req].
Proof.
  intros H seen es r Hrun. specialize (H seen). rewrite Hrun in H. simpl in H.
  rewrite H. split; [reflexivity | auto].
Qed.

Lemma issues_for_of {A} (body : A -> M unit) (req : A -> request) l :
  (forall x, issues (body x) [req x]) ->
  issues (for_of l tt (fun _ x => body x)) (map req l).
Proof.
  intros Hbody. induction l as [|x l IH]; simpl.
  - apply issues_nothing. reflexivity.
  - apply (issues_bind _ _ [req x] (map req l)); [apply Hbody|].
    intros []. exact IH.
Qed.

(** ** C6: the update flow, one file at a time *)

Lemma deleteProperty_issues w cur p :
  issues (deleteProperty w cur p) [delete_request cur p].
Proof.
  apply issues_one. intros seen.
  unfold deleteProperty, bind, log, http, ret. simpl.
  destruct (respond w _ _); reflexivity.
Qed.

Lemma createProperty_issues w cur p :
  issues (createProperty w cur p) [create_request cur p].
Proof.
  apply issues_one. intros seen.
  unfold createProperty, bind, log, http, ret. simpl.
  destruct (respond w _ _); reflexivity.
Qed.

Lemma updateProperty_issues w cur p :
  issues (updateProperty w cur p) [update_request cur p].
Proof.
  apply issues_one. intros seen.
  unfold updateProperty, bind, try_catch, log, log_error, http, ret. simpl.
  destruct (respond w _ _); reflexivity.
Qed.

Lemma applyDiff_issues w cur d : issues (applyDiff w cur d) (planned cur d).
Proof.
  unfold applyDiff, planned.
  apply issues_bind; [apply issues_for_of; intros; apply deleteProperty_issues|].
  intros _. apply issues_bind; [apply issues_for_of; intros; apply createProperty_issues|].
  intros _. apply issues_for_of; intros; apply updateProperty_issues.
Qed.

Lemma issues_lift {A B} (a : A) (k : A -> M B) P :
  issues (k a) P -> issues (bind (lift (Ok a)) k) P.
Proof.
  intros Hk seen es r H. unfold bind, lift in H.
  destruct (k a (seen ++ [])) as [es2 r2] eqn:Hrun. injection H as <- <-.
  exact (Hk _ _ _ Hrun).
Qed.

Lemma updateSchema_issues w s record d :
  reconcile (properties s) (properties record) = Ok d ->
  issues (updateSchema w s record) (planned record d).
Proof.
  intros Hd. unfold updateSchema. simpl. rewrite Hd.
  apply issues_lift.
  rewrite <- (app_nil_r (planned record d)).
  apply issues_bind; [apply (applyDiff_issues w (snd (pick_properties record)) d)|].
  intros _. apply issues_nothing. reflexivity.
Qed.

Lemma updateSchema_no_diff w s record e seen :
  reconcile (properties s) (properties record) = Throw e ->
  updateSchema w s record seen = ([], Throw e).
Proof. intros Hd. unfold updateSchema, bind, lift. simpl. rewrite Hd. reflexivity. Qed.

(** C6: [constructor.json] matches the pattern and the registry holds no
    schema named [constructor], so the specification has the update flow log that the
    type does not exist, request nothing for it and go on to [deal.json], as
    it does for [ticket.json].  The lookup [meta["constructor"]] finds the
    member every object inherits, which is truthy: the turn is not skipped,
    [updateSchema] is called on it and throws a TypeError, and the flow ends
    there, before the line is logged and before [deal.json] is read. *)
Theorem updateSchemas_inherited_identifier :
  objectTypes ["/s/constructor.json"; "/s/deal.json"]
  = [Some ("/s/constructor.json", "constructor"); Some ("/s/deal.json", "deal")]
  /\ keyBy [schema_of "deal" "2-1" (Some []) None] !! "constructor" = None
  /\ updateSchemas deal_world (objectTypes ["/s/constructor.json"; "/s/deal.json"]) []
     = ([fetch; Read "/s/constructor.json"], Throw TypeError)
  /\ updateSchemas deal_world (objectTypes ["/s/ticket.json"; "/s/deal.json"]) []
     = ([fetch; Read "/s/ticket.json"; does_not_exist "ticket"; Read "/s/deal.json"],
        Ok tt).
Proof. repeat split; vm_compute; reflexivity. Qed.

(** Scenarios 1 and 3: [ticket] is not in the registry and is skipped;
    [deal] drops [legacy_field], which is deleted by name, and gains [a]. *)
Example scenarios_1_and_3 :
  updateSchemas ticket_world
    [Some ("/s/ticket.json", "ticket"); Some ("/s/deal.json", "deal")] []
  = ([fetch;
      Read "/s/ticket.json";
      does_not_exist "ticket";
      Read "/s/deal.json";
      Log "Deleting property legacy_field on deal";
      Http (Request DELETE "/properties/v2/2-1/properties/named/legacy_field" NoBody);
      Log "Creating property a on deal";
      Http (Request POST "/properties/v2/2-1/properties" (PropertyBody a_text))],
     Ok tt).
Proof. vm_compute. reflexivity. Qed.

(** The record of the index is the object [pick] has taken [properties]
    from: a second file with the same identifier finds no property list. *)
Example same_identifier_twice :
  snd (updateSchemas ticket_world
         [Some ("/s/deal.json", "deal"); Some ("/s/deal.json", "deal")] [])
  = Throw TypeError.
Proof. vm_compute. reflexivity. Qed.

(** ** C5: a rejected property request in the update flow *)

Lemma requests_here es1 req es2 : requests (es1 ++ Http req :: es2) <> [].
Proof. rewrite requests_app. simpl. destruct (requests es1); discriminate. Qed.

Lemma the_only_request pre r tail es1 req es2 :
  es1 ++ Http req :: es2 = pre ++ Http r :: tail ->
  requests pre = [] -> requests tail = [] ->
  es1 = pre /\ req = r /\ es2 = tail.
Proof.
  revert es1. induction pre as [|x pre IH]; intros es1 H Hpre Htail.
  - destruct es1 as [|e es1]; simpl in H.
    + injection H as -> ->. auto.
    + injection H as -> H. exfalso. rewrite <- H in Htail.
      exact (requests_here _ _ _ Htail).
  - destruct es1 as [|e es1]; simpl in H.
    + injection H as <- _. discriminate Hpre.
    + injection H as -> H.
      assert (Hpre' : requests pre = []) by (destruct x; [discriminate|auto..]).
      destruct (IH es1 H Hpre' Htail) as [-> [-> ->]]. auto.
Qed.

Section Rejections.

Variable w : world.

Lemma policy_no_requests {A} (m : M A) :
  (forall seen, requests (fst (m seen)) = []) -> rejection_policy w m.
Proof.
  intros H seen es r Hrun es1 req es2 -> _. exfalso.
  specialize (H seen). rewrite Hrun in H. exact (requests_here _ _ _ H).
Qed.

Lemma policy_bind {A B} (m : M A) (k : A -> M B) :
  rejection_policy w m -> (forall a, rejection_policy w (k a)) ->
  rejection_policy w (bind m k).
Proof.
  intros Hm Hk seen es r H es1 req es2 Hes Hrej.
  apply bind_inv in H as [[esm [a [esk [H1 [H2 ->]]]]]|[e [H1 ->]]].
  - apply app_eq_inv in Hes as [[l [-> Hl]]|[l [-> Hl]]].
    2: { rewrite app_assoc in Hrej. exact (Hk a _ _ _ H2 _ _ _ Hl Hrej). }
    + destruct l as [|x l]; simpl in Hl.
      * rewrite app_nil_r in H1, H2. subst esk.
        apply (Hk a _ _ _ H2 [] req es2); [reflexivity|].
        rewrite app_nil_r. exact Hrej.
      * injection Hl as <- ->.
        destruct (Hm _ _ _ H1 es1 req l eq_refl Hrej) as [Hmut Hpatch]. split.
        -- intros Hmeth. destruct (Hmut Hmeth) as [_ [=]].
        -- intros Hmeth. destruct (Hpatch Hmeth) as [es3 ->]. simpl. eauto.
  - destruct (Hm _ _ _ H1 _ _ _ Hes Hrej) as [Hmut Hpatch]. split; [|exact Hpatch].
    intros Hmeth. destruct (Hmut Hmeth) as [-> [= ->]]. auto.
Qed.

Lemma policy_for_of {A S} (body : S -> A -> M S) l s :
  (forall s x, rejection_policy w (body s x)) -> rejection_policy w (for_of l s body).
Proof.
  intros Hbody. revert s. induction l as [|x l IH]; intros s; simpl.
  - apply policy_no_requests. reflexivity.
  - apply policy_bind; [apply Hbody | intros s'; apply IH].
Qed.

Lemma policy_deleteProperty cur p : rejection_policy w (deleteProperty w cur p).
Proof.
  intros seen es r Hrun es1 req es2 Hes Hrej.
  unfold deleteProperty, bind, log, http, ret in Hrun. simpl in Hrun.
  assert (Hshape : es = [Log ("Deleting property " +:+ ToString (get p "name")
                                +:+ " on " +:+ ToString (name cur))]
                        ++ Http (delete_request cur p) :: []).
  { destruct (respond w _ _); injection Hrun as <- _; reflexivity. }
  rewrite Hshape in Hes. symmetry in Hes.
  apply the_only_request in Hes as [-> [-> ->]]; [|reflexivity..].
  unfold delete_request in Hrej. rewrite Hrej in Hrun. injection Hrun as _ <-.
  split; [auto | discriminate].
Qed.

Lemma policy_createProperty cur p : rejection_policy w (createProperty w cur p).
Proof.
  intros seen es r Hrun es1 req es2 Hes Hrej.
  unfold createProperty, bind, log, http, ret in Hrun. simpl in Hrun.
  assert (Hshape : es = [Log ("Creating property " +:+ ToString (get p "name")
                                +:+ " on " +:+ ToString (name cur))]
                        ++ Http (create_request cur p) :: []).
  { destruct (respond w _ _); injection Hrun as <- _; reflexivity. }
  rewrite Hshape in Hes. symmetry in Hes.
  apply the_only_request in Hes as [-> [-> ->]]; [|reflexivity..].
  unfold create_request in Hrej. rewrite Hrej in Hrun. injection Hrun as _ <-.
  split; [auto | discriminate].
Qed.

Lemma policy_updateProperty cur p : rejection_policy w (updateProperty w cur p).
Proof.
  intros seen es r Hrun es1 req es2 Hes Hrej.
  unfold updateProperty, bind, try_catch, log, log_error, http, ret in Hrun.
  simpl in Hrun.
  destruct (respond w _ _) eqn:Hresp; injection Hrun as <- <-; symmetry in Hes;
    apply (the_only_request [_]) in Hes as [-> [-> ->]]; try reflexivity.
  - unfold update_request in Hresp. simpl in Hrej. congruence.
  - split; [intros [H|H]; discriminate H | eauto].
Qed.

Lemma policy_updateSchema s record : rejection_policy w (updateSchema w s record).
Proof.
  unfold updateSchema. simpl.
  apply policy_bind; [apply policy_no_requests; reflexivity|]. intros d.
  apply policy_bind; [|intros; apply policy_no_requests; reflexivity].
  unfold applyDiff.
  apply policy_bind; [apply policy_for_of; intros; apply policy_deleteProperty|].
  intros _.
  apply policy_bind; [apply policy_for_of; intros; apply policy_createProperty|].
  intros _. apply policy_for_of; intros; apply policy_updateProperty.
Qed.

Lemma policy_updateOne meta entry : rejection_policy w (updateOne w meta entry).
Proof.
  unfold updateOne. destruct entry as [[path ty]|].
  - apply policy_bind; [apply policy_no_requests; reflexivity|]. intros s.
    destruct (meta !! ty).
    + apply policy_bind; [apply policy_updateSchema|].
      intros; apply policy_no_requests; reflexivity.
    + destruct (inherited ty); apply policy_no_requests; reflexivity.
  - apply policy_no_requests. reflexivity.
Qed.

Lemma policy_getExistingSchemas : rejection_policy w (getExistingSchemas w).
Proof.
  intros seen es r Hrun es1 req es2 Hes Hrej.
  rewrite getExistingSchemas_run in Hrun. injection Hrun as <- _. symmetry in Hes.
  apply (the_only_request []) in Hes as [-> [-> ->]]; try reflexivity.
  split; [intros [H|H]; discriminate H | intros H; discriminate H].
Qed.

End Rejections.

(** C5, as stated, fails: the first property delete is rejected, nothing
    catches or logs the rejection, and the flow ends with it; the second
    property of [deal] and the file of [ticket] are never reached. *)
Lemma updateSchemas_aborts_on_rejected_delete :
  updateSchemas rejecting_world
    [Some ("/s/deal.json", "deal"); Some ("/s/ticket.json", "ticket")] []
  = (aborted_trace, Throw AxiosError)
  /\ ~ In (Read "/s/ticket.json") aborted_trace
  /\ ~ In (Log "Deleting property old_size on deal") aborted_trace.
Proof.
  split; [vm_compute; reflexivity|].
  split; intros H; repeat (destruct H as [H|H]; [discriminate H|]); exact H.
Qed.

(** ** The plan carried out *)

Lemma carry_out_app w l1 :
  forall seen l2,
    carry_out w seen (l1 ++ l2)
    = if snd (carry_out w seen l1)
      then (fst (carry_out w seen l1)
              ++ fst (carry_out w (seen ++ fst (carry_out w seen l1)) l2),
            snd (carry_out w (seen ++ fst (carry_out w seen l1)) l2))
      else carry_out w seen l1.
Proof.
  induction l1 as [|[line req] l1 IH]; intros seen l2.
  - simpl. rewrite app_nil_r. destruct (carry_out w seen l2); reflexivity.
  - cbn [carry_out app].
    destruct (respond w (seen ++ [Log line]) req) as [data|].
    + rewrite IH.
      destruct (carry_out w (seen ++ [Log line; Http req]) l1) as [es1 [|]]; simpl.
      * rewrite <- app_assoc. reflexivity.
      * reflexivity.
    + destruct (req_method req); try reflexivity.
      rewrite IH.
      destruct (carry_out w (seen ++ [Log line; Http req; LogError AxiosError]) l1)
        as [es1 [|]]; simpl.
      * rewrite <- app_assoc. reflexivity.
      * reflexivity.
Qed.

Lemma for_of_carries_out {A} w (body : A -> M unit) (plan : A -> string * request) l :
  (forall x seen, body x seen = finish tt (carry_out w seen [plan x])) ->
  forall seen,
    for_of l tt (fun _ x => body x) seen = finish tt (carry_out w seen (map plan l)).
Proof.
  intros Hbody. induction l as [|x l IH]; intros seen; [reflexivity|].
  cbn [for_of map]. unfold bind. rewrite Hbody.
  change (plan x :: map plan l) with ([plan x] ++ map plan l).
  rewrite carry_out_app. unfold finish.
  destruct (carry_out w seen [plan x]) as [es1 [|]]; simpl; [|reflexivity].
  rewrite IH. reflexivity.
Qed.

Lemma deleteProperty_carries_out w cur p seen :
  deleteProperty w cur p seen
  = finish tt (carry_out w seen
                 [("Deleting property " +:+ ToString (get p "name")
                     +:+ " on " +:+ ToString (name cur), delete_request cur p)]).
Proof.
  unfold deleteProperty, bind, log, http, ret, finish, delete_request. simpl.
  destruct (respond w _ _); reflexivity.
Qed.

Lemma createProperty_carries_out w cur p seen :
  createProperty w cur p seen
  = finish tt (carry_out w seen
                 [("Creating property " +:+ ToString (get p "name")
                     +:+ " on " +:+ ToString (name cur), create_request cur p)]).
Proof.
  unfold createProperty, bind, log, http, ret, finish, create_request. simpl.
  destruct (respond w _ _); reflexivity.
Qed.

Lemma updateProperty_carries_out w cur p seen :
  updateProperty w cur p seen
  = finish tt (carry_out w seen
                 [("Updating property " +:+ ToString (get p "name")
                     +:+ " on " +:+ ToString (name cur), update_request cur p)]).
Proof.
  unfold updateProperty, bind, try_catch, log, log_error, http, ret, finish,
    update_request. simpl.
  destruct (respond w _ _); reflexivity.
Qed.

Lemma applyDiff_carries_out w cur d seen :
  applyDiff w cur d seen = finish tt (carry_out w seen (steps cur d)).
Proof.
  unfold applyDiff, steps, bind.
  rewrite (for_of_carries_out w _ _ _ (deleteProperty_carries_out w cur)).
  rewrite !carry_out_app. unfold finish.
  destruct (carry_out w seen (map _ (to_delete d))) as [es1 [|]]; simpl; [|reflexivity].
  rewrite (for_of_carries_out w _ _ _ (createProperty_carries_out w cur)).
  unfold finish.
  destruct (carry_out w (seen ++ es1) (map _ (to_create d))) as [es2 [|]]; simpl;
    [|reflexivity].
  rewrite (for_of_carries_out w _ _ _ (updateProperty_carries_out w cur)).
  unfold finish. rewrite <- app_assoc. reflexivity.
Qed.

Lemma updateSchema_carries_out w s record d seen :
  reconcile (properties s) (properties record) = Ok d ->
  updateSchema w s record seen
  = finish (snd (pick_properties record)) (carry_out w seen (steps record d)).
Proof.
  intros Hd. unfold updateSchema. simpl. rewrite Hd.
  unfold bind, lift. rewrite app_nil_r.
  match goal with |- context [applyDiff w ?c d seen] =>
    rewrite (applyDiff_carries_out w c d seen);
    change (steps c d) with (steps record d) end.
  unfold finish.
  destruct (carry_out w seen (steps record d)) as [es [|]]; simpl;
    rewrite ?app_nil_r; reflexivity.
Qed.

Lemma steps_requests cur d : map snd (steps cur d) = planned cur d.
Proof. unfold steps, planned. rewrite !map_app, !map_map. reflexivity. Qed.

Lemma carry_out_requests w todo :
  forall seen,
    requests (fst (carry_out w seen todo)) `prefix_of` map snd todo
    /\ (snd (carry_out w seen todo) = true ->
        requests (fst (carry_out w seen todo)) = map snd todo).
Proof.
  induction todo as [|[line req] todo IH]; intros seen.
  - simpl. split; [reflexivity | auto].
  - cbn [carry_out map snd].
    destruct (respond w (seen ++ [Log line]) req) as [data|].
    + destruct (IH (seen ++ [Log line; Http req])) as [Hpre Hall].
      destruct (carry_out w (seen ++ [Log line; Http req]) todo) as [es ok]. simpl in *.
      split; [apply prefix_cons; exact Hpre | intros H; rewrite (Hall H); reflexivity].
    + destruct (req_method req);
        try (simpl; split; [exists (map snd todo); reflexivity | discriminate]).
      destruct (IH (seen ++ [Log line; Http req; LogError AxiosError])) as [Hpre Hall].
      destruct (carry_out w (seen ++ [Log line; Http req; LogError AxiosError]) todo)
        as [es ok]. simpl in *.
      split; [apply prefix_cons; exact Hpre | intros H; rewrite (Hall H); reflexivity].
Qed.

Lemma last_bind {A B} (m : M A) (k : A -> M B) :
  rejected_at_last m -> (forall a, rejected_at_last (k a)) -> rejected_at_last (bind m k).
Proof.
  intros Hm Hk seen es H.
  apply bind_inv in H as [[es1 [a [es2 [H1 [H2 ->]]]]]|[e [H1 [= <-]]]].
  - destruct (Hk a _ _ H2) as [pre [req [-> Hreq]]].
    exists (es1 ++ pre), req. rewrite <- app_assoc. auto.
  - exact (Hm _ _ H1).
Qed.

Lemma last_for_of {A S} (body : S -> A -> M S) l :
  (forall s x, rejected_at_last (body s x)) ->
  forall s, rejected_at_last (for_of l s body).
Proof.
  intros Hbody. induction l as [|x l IH]; intros s.
  - intros seen es [=].
  - simpl. apply last_bind; [apply Hbody | intros s'; apply IH].
Qed.

Lemma last_never {A} (m : M A) :
  (forall seen, snd (m seen) <> Throw AxiosError) -> rejected_at_last m.
Proof. intros H seen es Hrun. specialize (H seen). rewrite Hrun in H. destruct H. reflexivity. Qed.

Lemma carry_out_last w todo :
  forall seen,
    snd (carry_out w seen todo) = false ->
    exists es1 req, fst (carry_out w seen todo) = es1 ++ [Http req]
                    /\ req_method req <> PATCH.
Proof.
  induction todo as [|[line req] todo IH]; intros seen; [discriminate|].
  cbn [carry_out].
  destruct (respond w (seen ++ [Log line]) req) as [data|].
  - specialize (IH (seen ++ [Log line; Http req])).
    destruct (carry_out w (seen ++ [Log line; Http req]) todo) as [es ok]. simpl in *.
    intros H. destruct (IH H) as [es1 [r [-> Hr]]].
    exists (Log line :: Http req :: es1), r. auto.
  - destruct (req_method req) eqn:Hm;
      try (intros _; exists [Log line], req; split; [reflexivity | congruence]).
    specialize (IH (seen ++ [Log line; Http req; LogError AxiosError])).
    destruct (carry_out w (seen ++ [Log line; Http req; LogError AxiosError]) todo)
      as [es ok]. simpl in *.
    intros H. destruct (IH H) as [es1 [r [-> Hr]]].
    exists (Log line :: Http req :: LogError AxiosError :: es1), r. auto.
Qed.

Lemma last_updateSchema w s record : rejected_at_last (updateSchema w s record).
Proof.
  intros seen es H.
  destruct (reconcile (properties s) (properties record)) as [d|e] eqn:Hd.
  - rewrite (updateSchema_carries_out w s record d seen Hd) in H.
    unfold finish in H.
    destruct (snd (carry_out w seen (steps record d))) eqn:Hok; [discriminate|].
    injection H as <-. exact (carry_out_last w _ seen Hok).
  - rewrite (updateSchema_no_diff w s record e seen Hd) in H. injection H as _ ->.
    pose proof (only_rbind _ _ (only_toDelete (properties s) (properties record))
                  (fun dl => only_rbind _ _ (only_toCreate (properties s) (properties record))
                     (fun c => only_rbind _ _ (only_toUpdate (properties s) (properties record))
                        (fun u => only_Ok (Diff dl c u))))) as Honly.
    specialize (Honly AxiosError Hd). discriminate Honly.
Qed.

Lemma last_updateOne w meta entry : rejected_at_last (updateOne w meta entry).
Proof.
  unfold updateOne. destruct entry as [[path ty]|]; [|intros seen es [=]].
  apply last_bind.
  - intros seen es. unfold readJSON. destruct (read_file w path); intros [=].
  - intros s. destruct (meta !! ty) as [record|].
    + apply last_bind; [apply last_updateSchema | intros r seen es [=]].
    + destruct (inherited ty); intros seen es [=].
Qed.

Lemma last_updateSchemas w entries : rejected_at_last (updateSchemas w entries).
Proof.
  unfold updateSchemas. apply last_bind.
  - intros seen es H. rewrite getExistingSchemas_run in H.
    destruct (remote_schemas w); [discriminate H|]. injection H as <-.
    exists [], (Request GET "/crm/v3/schemas" NoBody). split; [reflexivity | discriminate].
  - intros meta. apply last_bind; [apply last_for_of; intros; apply last_updateOne|].
    intros m seen es [=].
Qed.

(** C5, amended: in the update flow a rejected property delete or property
    create is not caught.  The rejected request is the last event of the
    run, which ends with the rejection: no later property and no later file
    is processed.  A rejected property update is caught: the error is logged
    after the request, and no rejected update ends the run, for a run that
    ends with a rejection ends on a request that is no update.  A turn whose
    diff is computed is its plan carried out step by step, which goes on to
    the next step after a rejected update. *)
Theorem updateSchemas_rejected_request
    (w : world) (entries : list (option (string * string)))
    (es : list event) (r : result unit) :
  updateSchemas w entries [] = (es, r) ->
  (forall es1 req es2,
      es = es1 ++ Http req :: es2 ->
      respond w es1 req = None ->
      (req_method req = DELETE \/ req_method req = POST ->
       es2 = [] /\ r = Throw AxiosError)
      /\ (req_method req = PATCH -> exists es3, es2 = LogError AxiosError :: es3))
  /\ (r = Throw AxiosError ->
      exists es1 req, es = es1 ++ [Http req] /\ req_method req <> PATCH)
  /\ (forall s record d seen,
        reconcile (properties s) (properties record) = Ok d ->
        updateSchema w s record seen
        = finish (snd (pick_properties record)) (carry_out w seen (steps record d))).
Proof.
  intros Hrun. split; [|split].
  - intros es1 req es2 Hes Hrej.
    assert (Hpolicy : rejection_policy w (updateSchemas w entries)).
    { unfold updateSchemas.
      apply policy_bind; [apply policy_getExistingSchemas|]. intros meta.
      apply policy_bind; [apply policy_for_of; intros; apply policy_updateOne|].
      intros; apply policy_no_requests; reflexivity. }
    exact (Hpolicy [] es r Hrun es1 req es2 Hes Hrej).
  - intros ->. exact (last_updateSchemas w entries [] es Hrun).
  - intros s record d seen. apply updateSchema_carries_out.
Qed.

Lemma updateSchemas_rejected_request_witness :
  (forall es1 req es2,
      fst (updateSchemas patch_rejecting_world [Some ("/s/deal.json", "deal")] [])
      = es1 ++ Http req :: es2 ->
      respond patch_rejecting_world es1 req = None ->
      req_method req = PATCH -> exists es3, es2 = LogError AxiosError :: es3)
  /\ snd (updateSchemas patch_rejecting_world [Some ("/s/deal.json", "deal")] [])
     = Ok tt.
Proof.
  destruct (updateSchemas_rejected_request
              patch_rejecting_world [Some ("/s/deal.json", "deal")]
              (fst (updateSchemas patch_rejecting_world [Some ("/s/deal.json", "deal")] []))
              (snd (updateSchemas patch_rejecting_world [Some ("/s/deal.json", "deal")] [])))
    as [Hrej _].
  - vm_compute. reflexivity.
  - split; [|vm_compute; reflexivity].
    intros es1 req es2 Hes Hnone. exact (proj2 (Hrej es1 req es2 Hes Hnone)).
Defined.

(** ** One turn of the update loop *)

Lemma carry_out_accepted w todo :
  accepts_mutations w ->
  Forall (fun st => req_method (snd st) <> GET) todo ->
  forall seen, snd (carry_out w seen todo) = true.
Proof.
  intros Hacc. induction 1 as [|[line req] todo Hreq _ IH]; intros seen; [reflexivity|].
  cbn [carry_out]. simpl in Hreq.
  destruct (respond w (seen ++ [Log line]) req) as [data|] eqn:Hresp.
  - specialize (IH (seen ++ [Log line; Http req])).
    destruct (carry_out w (seen ++ [Log line; Http req]) todo). exact IH.
  - destruct (req_method req) eqn:Hm.
    + congruence.
    + destruct (Hacc (seen ++ [Log line]) req (or_intror Hm)) as [v Hv]. congruence.
    + destruct (Hacc (seen ++ [Log line]) req (or_introl Hm)) as [v Hv]. congruence.
    + specialize (IH (seen ++ [Log line; Http req; LogError AxiosError])).
      destruct (carry_out w (seen ++ [Log line; Http req; LogError AxiosError]) todo).
      exact IH.
Qed.

Lemma steps_no_GET cur d : Forall (fun st => req_method (snd st) <> GET) (steps cur d).
Proof.
  unfold steps. rewrite !List.Forall_app. repeat split;
    apply List.Forall_forall; intros st Hst;
    apply List.in_map_iff in Hst as [p [<- _]]; discriminate.
Qed.

(** X24: one turn of the update loop on a file that is read.  If
    [meta[objectType]] is [undefined] (the index has no such key and objects
    inherit no member of that name), the turn logs that the type does not
    exist, issues no request, and the loop goes on to the remaining files with
    the index unchanged.  If the index has a record and the diff is computed,
    the turn is the read followed by the plan carried out step by step, all
    deletes, then all creates, then all updates: it returns, with the record
    left without its property list, when every step was reached, which it is
    when the registry accepts every DELETE and POST, and it throws the
    rejection otherwise.  If the diff throws, the turn issues no request and
    throws with it. *)
Theorem updateOne_skips_or_applies
    (w : world) (meta : gmap string Schema) (path objectType : string)
    (s : Schema) (seen : list event) :
  read_file w path = Some s ->
  (meta !! objectType = None -> inherited objectType = false ->
   updateOne w meta (Some (path, objectType)) seen
   = ([Read path; does_not_exist objectType], Ok meta)
   /\ forall rest,
        for_of (Some (path, objectType) :: rest) meta (updateOne w) seen
        = ([Read path; does_not_exist objectType]
             ++ fst (for_of rest meta (updateOne w)
                            (seen ++ [Read path; does_not_exist objectType])),
           snd (for_of rest meta (updateOne w)
                       (seen ++ [Read path; does_not_exist objectType]))))
  /\ (forall record d,
        meta !! objectType = Some record ->
        reconcile (properties s) (properties record) = Ok d ->
        updateOne w meta (Some (path, objectType)) seen
        = (Read path :: fst (carry_out w (seen ++ [Read path]) (steps record d)),
           if snd (carry_out w (seen ++ [Read path]) (steps record d))
           then Ok (<[objectType := snd (pick_properties record)]> meta)
           else Throw AxiosError)
        /\ requests (fst (carry_out w (seen ++ [Read path]) (steps record d)))
           `prefix_of` planned record d
        /\ (snd (carry_out w (seen ++ [Read path]) (steps record d)) = true ->
            requests (fst (carry_out w (seen ++ [Read path]) (steps record d)))
            = planned record d)
        /\ (accepts_mutations w ->
            snd (carry_out w (seen ++ [Read path]) (steps record d)) = true))
  /\ (forall record e,
        meta !! objectType = Some record ->
        reconcile (properties s) (properties record) = Throw e ->
        updateOne w meta (Some (path, objectType)) seen = ([Read path], Throw e)).
Proof.
  intros Hread.
  assert (Hfile : forall seen', readJSON w path seen' = ([Read path], Ok s)).
  { intros seen'. unfold readJSON. rewrite Hread. reflexivity. }
  split; [|split].
  - intros Hnone Hordinary.
    assert (Hturn : updateOne w meta (Some (path, objectType)) seen
                    = ([Read path; does_not_exist objectType], Ok meta)).
    { unfold updateOne.
      rewrite (bind_Ok _ _ _ _ _ (Hfile seen)), Hnone, Hordinary. reflexivity. }
    split; [exact Hturn|]. intros rest.
    change (for_of (Some (path, objectType) :: rest) meta (updateOne w) seen)
      with (bind (updateOne w meta (Some (path, objectType)))
                 (fun s' => for_of rest s' (updateOne w)) seen).
    rewrite (bind_Ok _ _ _ _ _ Hturn). reflexivity.
  - intros record d Hsome Hd. split; [|split; [|split]].
    + unfold updateOne. rewrite (bind_Ok _ _ _ _ _ (Hfile seen)), Hsome.
      unfold bind.
      rewrite (updateSchema_carries_out w s record d (seen ++ [Read path]) Hd).
      unfold finish.
      destruct (carry_out w (seen ++ [Read path]) (steps record d)) as [es [|]];
        simpl; rewrite ?app_nil_r; reflexivity.
    + rewrite <- steps_requests. apply carry_out_requests.
    + rewrite <- steps_requests. apply carry_out_requests.
    + intros Hacc. apply carry_out_accepted; [exact Hacc | apply steps_no_GET].
  - intros record e Hsome Hd.
    unfold updateOne. rewrite (bind_Ok _ _ _ _ _ (Hfile seen)), Hsome.
    rewrite (bind_Throw _ _ _ _ _ (updateSchema_no_diff w s record e _ Hd)).
    reflexivity.
Qed.

Lemma updateOne_skips_or_applies_witness :
  updateOne ticket_world (keyBy [schema_of "deal" "2-1" (Some [legacy_field]) None])
            (Some ("/s/ticket.json", "ticket")) [fetch]
  = ([Read "/s/ticket.json"; does_not_exist "ticket"],
     Ok (keyBy [schema_of "deal" "2-1" (Some [legacy_field]) None]))
  /\ requests (fst (carry_out ticket_world ([fetch] ++ [Read "/s/deal.json"])
                      (steps (schema_of "deal" "2-1" (Some [legacy_field]) None)
                             (Diff [legacy_field] [a_text] []))))
     `prefix_of` planned (schema_of "deal" "2-1" (Some [legacy_field]) None)
                         (Diff [legacy_field] [a_text] []).
Proof.
  split.
  - apply (updateOne_skips_or_applies
             ticket_world _ "/s/ticket.json" "ticket"
             (local_schema "ticket" (Some []) None) [fetch]);
      [reflexivity | vm_compute; reflexivity | reflexivity].
  - eapply (updateOne_skips_or_applies
              ticket_world
              (keyBy [schema_of "deal" "2-1" (Some [legacy_field]) None])
              "/s/deal.json" "deal"
              (local_schema "deal" (Some [a_text]) None) [fetch]);
      [reflexivity | vm_compute; reflexivity | reflexivity].
Defined.

(** ** The create flow *)

(** [createSchema] always returns: the id of the answer, or [null] after
    logging the failure.  It issues the one POST either way. *)
Lemma createSchema_returns w s seen :
  exists es id,
    createSchema w s seen = (es, Ok id)
    /\ requests es = [schema_post s]
    /\ ((exists data, respond w seen (schema_post s) = Some data
                      /\ member data "objectTypeId" = Ok id)
        \/ (id = VNull
            /\ In (Log ("Failed to Create Schema " +:+ ToString (name s))) es)).
Proof.
  unfold createSchema, try_catch, bind, http, lift, log, ret.
  fold (schema_post s).
  destruct (respond w seen (schema_post s)) as [data|] eqn:Hresp; simpl.
  - destruct (member data "objectTypeId") as [id|e] eqn:Hm; simpl.
    + exists [Http (schema_post s)], id. split; [reflexivity|].
      split; [reflexivity|]. left. exists data. auto.
    + eexists; exists VNull. split; [reflexivity|]. split; [reflexivity|].
      right. split; [reflexivity|]. right; left; reflexivity.
  - eexists; exists VNull. split; [reflexivity|]. split; [reflexivity|].
    right. split; [reflexivity|]. right; left; reflexivity.
Qed.

Lemma createSchema_answered w s seen es id :
  createSchema w s seen = (es, Ok id) -> answered w seen s id es.
Proof.
  unfold createSchema, try_catch, bind, http, lift, log, ret, answered.
  fold (schema_post s).
  destruct (respond w seen (schema_post s)) as [data|] eqn:Hresp; simpl.
  - destruct (member data "objectTypeId") as [id'|e] eqn:Hm; simpl.
    + intros [= <- <-]. left. exists data. auto.
    + intros [= <- <-]. right. split; [reflexivity|]. split; [reflexivity|].
      right. exists data. split; [reflexivity|].
      rewrite Hm. f_equal. exact (only_member data "objectTypeId" e Hm).
  - intros [= <- <-]. right. auto.
Qed.

Lemma answered_requests w seen s id es :
  answered w seen s id es -> requests es = [schema_post s].
Proof. intros [[data [_ [_ ->]]]|[_ [-> _]]]; reflexivity. Qed.

Lemma createOne_inv w meta all entry seen es meta1 all1 :
  createOne w (meta, all) entry seen = (es, Ok (meta1, all1)) ->
  exists path objectType s es1 id,
    entry = Some (path, objectType)
    /\ read_file w path = Some s
    /\ createSchema w (snd (pick_associations s)) (seen ++ [Read path]) = (es1, Ok id)
    /\ es = Read path :: es1 ++ created_log (Attempt objectType [] id)
    /\ meta1 = index_after meta [Attempt objectType [] id]
    /\ all1 = all ++ map (declared objectType) (default [] (associations s)).
Proof.
  unfold createOne. destruct entry as [[path ty]|]; [|discriminate].
  intros H. apply bind_inv in H as [[er [s0 [e2 [Hread [H ->]]]]]|[e [_ [=]]]].
  unfold readJSON in Hread. destruct (read_file w path) as [s|] eqn:Hfile;
    [|discriminate]. injection Hread as <- <-.
  simpl in H.
  destruct (createSchema_returns w (snd (pick_associations s)) (seen ++ [Read path]))
    as [es1 [id [Hc _]]].
  simpl in Hc. rewrite (bind_Ok _ _ _ _ _ Hc) in H.
  exists path, ty, s, es1, id. unfold created_log, index_after. simpl.
  destruct (truthy id); simpl in H; injection H as <- <- <-;
    rewrite ?app_nil_r; auto 10.
Qed.

Lemma index_after_cons meta a attempts :
  index_after meta (a :: attempts) = index_after (index_after meta [a]) attempts.
Proof. reflexivity. Qed.

Lemma create_loop_summary w entries meta all seen es meta' all' :
  for_of entries (meta, all) (createOne w) seen = (es, Ok (meta', all')) ->
  exists attempts,
    attempted w seen entries attempts es
    /\ meta' = index_after meta attempts
    /\ all' = all ++ declared_by attempts.
Proof.
  revert meta all seen es.
  induction entries as [|entry entries IH]; intros meta all seen es H.
  - injection H as <- <- <-. exists []. simpl. rewrite app_nil_r. auto.
  - simpl in H.
    apply bind_inv in H as [[e1 [[meta1 all1] [e2 [Hone [Hrest ->]]]]]|[e [_ [=]]]].
    apply createOne_inv in Hone
      as [path [ty [s [es1 [id [-> [Hfile [Hc [-> [-> ->]]]]]]]]]].
    destruct (IH _ _ _ _ Hrest) as [attempts [Hatt [-> ->]]].
    exists (Attempt ty (default [] (associations s)) id :: attempts).
    split; [|split].
    + simpl. exists s, es1, e2. apply createSchema_answered in Hc. auto 10.
    + reflexivity.
    + simpl. rewrite <- app_assoc. reflexivity.
Qed.

Lemma attempted_requests w entries :
  forall seen attempts es,
    attempted w seen entries attempts es ->
    length attempts = length entries
    /\ length (requests es) = length entries
    /\ Forall is_schema_post (requests es).
Proof.
  induction entries as [|entry entries IH]; intros seen attempts es H.
  - destruct attempts; [|destruct H]. simpl in H. subst es. simpl. auto.
  - destruct entry as [[path ty]|]; [|destruct H].
    destruct attempts as [|a attempts]; [destruct H|].
    destruct H as [s [es1 [es2 [Hfile [Hty [Htargets [Hc [-> Hrest]]]]]]]].
    destruct (IH _ _ _ Hrest) as [Hlen [Hreq Hall]].
    assert (Hturn : requests (Read path :: es1 ++ created_log a)
                    = [schema_post (snd (pick_associations s))]).
    { simpl. rewrite requests_app, (answered_requests _ _ _ _ _ Hc).
      unfold created_log. destruct (truthy (at_id a)); reflexivity. }
    rewrite requests_app, Hturn. simpl. split; [lia|]. split; [lia|].
    apply List.Forall_cons; [eexists; reflexivity | exact Hall].
Qed.

Lemma createAssociation_run w a seen :
  exists es data,
    createAssociation w a seen = (es, Ok data)
    /\ requests es = [association_post a].
Proof.
  unfold createAssociation, try_catch, bind, http, log, ret.
  fold (association_post a).
  destruct (respond w seen (association_post a)); simpl; eauto.
Qed.

Lemma submitAll_run w meta all seen :
  exists es,
    submitAll w meta all seen = (es, Ok tt)
    /\ requests es = map (fun a => association_post (resolved meta a)) all.
Proof.
  unfold submitAll. revert seen.
  induction all as [|a all IH]; intros seen; simpl.
  - exists []. auto.
  - destruct (createAssociation_run w (resolved meta a) seen) as [es1 [data [H1 Hr1]]].
    assert (Hbody : bind (createAssociation w (resolved meta a)) (fun _ => ret tt) seen
                    = (es1, Ok tt)).
    { rewrite (bind_Ok _ _ _ _ _ H1). simpl. rewrite app_nil_r. reflexivity. }
    destruct (IH (seen ++ es1)) as [es2 [H2 Hr2]].
    exists (es1 ++ es2). rewrite (bind_Ok _ _ _ _ _ Hbody), H2. simpl.
    rewrite requests_app, Hr1, Hr2. auto.
Qed.

Lemma createOne_requests w st entry seen es r :
  createOne w st entry seen = (es, r) -> Forall is_schema_post (requests es).
Proof.
  destruct st as [meta all]. unfold createOne.
  destruct entry as [[path ty]|]; [|intros [= <- _]; apply List.Forall_nil].
  assert (Hread : forall es' r', readJSON w path seen = (es', r') -> es' = [Read path]).
  { unfold readJSON. intros es' r' [= <- _]. reflexivity. }
  intros H. apply bind_inv in H as [[er [s [e2 [Hr [H ->]]]]]|[e [Hr _]]];
    rewrite (Hread _ _ Hr) in *; [|apply List.Forall_nil].
  simpl in H.
  destruct (createSchema_returns w (snd (pick_associations s)) (seen ++ [Read path]))
    as [es1 [id [Hc [Hone _]]]].
  simpl in Hc. rewrite (bind_Ok _ _ _ _ _ Hc) in H.
  assert (Hes : requests e2 = requests es1).
  { destruct (truthy id); simpl in H; injection H as <- _;
      rewrite ?requests_app, ?app_nil_r; simpl; rewrite ?app_nil_r; reflexivity. }
  simpl. rewrite Hes, Hone.
  apply List.Forall_cons; [eexists; reflexivity | apply List.Forall_nil].
Qed.

Lemma create_loop_requests w entries st seen es r :
  for_of entries st (createOne w) seen = (es, r) ->
  Forall is_schema_post (requests es).
Proof.
  revert st seen es. induction entries as [|entry entries IH]; intros st seen es H.
  - injection H as <- _. apply List.Forall_nil.
  - simpl in H.
    apply bind_inv in H as [[e1 [st1 [e2 [Hone [Hrest ->]]]]]|[e [Hone _]]].
    + rewrite requests_app. apply List.Forall_app. split.
      * exact (createOne_requests _ _ _ _ _ _ Hone).
      * exact (IH _ _ _ Hrest).
    + exact (createOne_requests _ _ _ _ _ _ Hone).
Qed.

Lemma createSchemas_throws w entries es e :
  createSchemas w entries [] = (es, Throw e) ->
  forall a, ~ In (association_post a) (requests es).
Proof.
  unfold createSchemas. intros H a Hin.
  assert (Hposts : Forall (fun r => req_body r = NoBody \/ is_schema_post r)
                          (requests es)).
  { apply bind_inv in H as [[e0 [meta [e1 [Hget [H ->]]]]]|[e' [Hget _]]];
      rewrite getExistingSchemas_run in Hget; injection Hget as <- Hget;
      (apply List.Forall_cons; [left; reflexivity|]); [|apply List.Forall_nil].
    apply bind_inv in H as [[ec [[meta' all] [ea [Hloop [Hsub ->]]]]]|[e' [Hloop _]]].
    - destruct (submitAll_run w meta' all ([] ++ [fetch] ++ ec)) as [ea' [Hsub' _]].
      simpl in Hsub, Hsub'. rewrite Hsub in Hsub'. discriminate.
    - eapply List.Forall_impl; [|exact (create_loop_requests _ _ _ _ _ _ Hloop)].
      auto. }
  rewrite List.Forall_forall in Hposts.
  destruct (Hposts _ Hin) as [Hbody|[s Hs]]; discriminate.
Qed.

Lemma createSchemas_inv w entries es :
  createSchemas w entries [] = (es, Ok tt) ->
  exists results attempts es_create es_associate,
    remote_schemas w = Some results
    /\ attempted w [fetch] entries attempts es_create
    /\ es = fetch :: es_create ++ es_associate
    /\ requests es_associate
       = map (fun a => association_post
                         (resolved (index_after (keyBy results) attempts) a))
             (declared_by attempts).
Proof.
  unfold createSchemas. intros H.
  apply bind_inv in H as [[e0 [meta [e1 [Hget [H ->]]]]]|[e [_ [=]]]].
  rewrite getExistingSchemas_run in Hget.
  destruct (remote_schemas w) as [results|]; [|discriminate].
  injection Hget as <- <-. exists results.
  apply bind_inv in H as [[ec [[meta' all] [ea [Hloop [Hsub ->]]]]]|[e [_ [=]]]].
  apply create_loop_summary in Hloop as [attempts [Hatt [-> ->]]].
  destruct (submitAll_run w (index_after (keyBy results) attempts)
                          ([] ++ declared_by attempts) ([] ++ [fetch] ++ ec))
    as [ea' [Hsub' Hreq]].
  simpl in Hsub, Hsub'. rewrite Hsub in Hsub'. injection Hsub' as <-.
  exists attempts, ec, ea. auto.
Qed.

Lemma index_after_app meta l1 l2 :
  index_after meta (l1 ++ l2) = index_after (index_after meta l1) l2.
Proof. apply fold_left_app. Qed.

Lemma index_after_None meta attempts k :
  index_after meta attempts !! k = None <->
  meta !! k = None
  /\ forall a, In a attempts -> at_type a = k -> truthy (at_id a) = false.
Proof.
  revert meta. induction attempts as [|a attempts IH]; intros meta.
  - simpl. split; [intros H; split; [exact H | intros a []] | tauto].
  - rewrite index_after_cons, IH. simpl.
    destruct (truthy (at_id a)) eqn:Hid.
    + destruct (decide (at_type a = k)) as [Hk|Hk].
      * rewrite Hk, lookup_insert_eq. split.
        -- intros [[=] _].
        -- intros [_ H]. specialize (H a (or_introl eq_refl) Hk). congruence.
      * rewrite lookup_insert_ne by exact Hk. split.
        -- intros [Hm H]. split; [exact Hm|].
           intros b [<-|Hb] Hbk; [congruence | auto].
        -- intros [Hm H]. split; [exact Hm|]. intros b Hb. apply H. right; exact Hb.
    + split.
      * intros [Hm H]. split; [exact Hm|].
        intros b [<-|Hb] Hbk; [exact Hid | auto].
      * intros [Hm H]. split; [exact Hm|]. intros b Hb. apply H. right; exact Hb.
Qed.

Lemma index_after_untouched meta attempts k :
  (forall a, In a attempts -> at_type a = k -> truthy (at_id a) = false) ->
  index_after meta attempts !! k = meta !! k.
Proof.
  revert meta. induction attempts as [|a attempts IH]; intros meta H; [reflexivity|].
  rewrite index_after_cons, IH by (intros b Hb; apply H; right; exact Hb). simpl.
  destruct (truthy (at_id a)) eqn:Hid; [|reflexivity].
  apply lookup_insert_ne. intros Hk.
  specialize (H a (or_introl eq_refl) Hk). congruence.
Qed.

Lemma index_after_created meta attempts a :
  last_created attempts a ->
  index_after meta attempts !! at_type a = Some (created_record (at_id a)).
Proof.
  intros [Hid [l1 [l2 [-> Hlater]]]].
  rewrite index_after_app, index_after_cons, index_after_untouched by exact Hlater.
  simpl. rewrite Hid. apply lookup_insert_eq.
Qed.

Lemma declared_is_submitted (final : gmap string Schema) attempts a target :
  In a attempts -> In target (at_targets a) ->
  In (association_post (resolved final (declared (at_type a) target)))
     (map (fun x => association_post (resolved final x)) (declared_by attempts)).
Proof.
  intros Ha Ht.
  apply (List.in_map (fun x => association_post (resolved final x))).
  unfold declared_by. apply in_flat_map. exists a. split; [exact Ha|].
  apply List.in_map. exact Ht.
Qed.

Example scenario_4 :
  createSchemas fresh_world batch []
  = ([fetch;
      Read "/s/company.json";
      Http (schema_post (local_schema "company" None None));
      Log "Created company";
      Read "/s/deal.json";
      Http (schema_post (local_schema "deal" None None));
      Log "Created deal";
      Http (association_post
              {| assoc_name := "company_to_deal";
                 fromObjectTypeId := VStr "2-100";
                 toObjectTypeId := VStr "2-200" |})],
     Ok tt).
Proof. vm_compute. reflexivity. Qed.

(** * Further properties *)

(** ** The three filters *)

(** X1: toCreate is computed whenever both property lists are there, and
    holds exactly the updated properties whose name no current property
    has; the reserved prefixes play no part in it. *)
Theorem toCreate_exact (updated current : list object) :
  exists toCr,
    toCreate (Some updated) (Some current) = Ok toCr
    /\ forall p, In p toCr <-> In p updated /\ ~ named_in (get p "name") current.
Proof.
  exists (List.filter (fun p => absent (first_named (get p "name") current)) updated).
  split.
  - rewrite toCreate_unfold. apply filter_pure. reflexivity.
  - intros p. rewrite List.filter_In, absent_true, first_named_is_Some. reflexivity.
Qed.

Lemma toDelete_member u c toDel q :
  toDelete u c = Ok toDel -> In q toDel ->
  exists updated current,
    u = Some updated /\ c = Some current /\ In q current
    /\ includes (get q "name") "hs_" = Ok false
    /\ includes (get q "name") "hubspot_" = Ok false
    /\ ~ named_in (get q "name") updated.
Proof.
  destruct c as [current|]; [|discriminate]. unfold toDelete. simpl.
  intros H Hin. apply (filter_In _ _ _ q H) in Hin as [Hin Hq].
  destruct (includes (get q "name") "hs_") as [[|]|] eqn:Hhs; simpl in Hq;
    try discriminate.
  destruct (includes (get q "name") "hubspot_") as [[|]|] eqn:Hhub; simpl in Hq;
    try discriminate.
  destruct u as [updated|]; [|discriminate].
  simpl in Hq. rewrite find_sameName in Hq. simpl in Hq. injection Hq as Hq.
  exists updated, current. repeat (split; [reflexivity || assumption|]).
  apply absent_true in Hq. rewrite <- first_named_is_Some. exact Hq.
Qed.

(** X2: a diff that is computed splits the properties by name.  toDelete
    comes from the current list and toCreate and toUpdate from the updated
    one; a property is never in both toCreate and toUpdate, and no property
    of toDelete has the name of one that is created or updated. *)
Theorem reconcile_partition (u c : option (list object)) (d : diff) :
  reconcile u c = Ok d ->
  exists updated current,
    u = Some updated /\ c = Some current
    /\ (forall q, In q (to_delete d) ->
                  In q current /\ ~ named_in (get q "name") updated)
    /\ (forall p, In p (to_create d) ->
                  In p updated /\ ~ named_in (get p "name") current)
    /\ (forall p, In p (to_update d) ->
                  In p updated /\ named_in (get p "name") current)
    /\ (forall p, ~ (In p (to_create d) /\ In p (to_update d)))
    /\ (forall q p, In q (to_delete d) ->
                    In p (to_create d) \/ In p (to_update d) ->
                    strict_eq (get q "name") (get p "name") = false).
Proof.
  intros Hrun. destruct (reconcile_inv _ _ _ Hrun) as [Hd [Hc Hu]].
  destruct c as [current|]; [|discriminate Hd].
  destruct u as [updated|]; [|discriminate Hc].
  exists updated, current. split; [reflexivity|]. split; [reflexivity|].
  assert (Hdel : forall q, In q (to_delete d) ->
                           In q current /\ ~ named_in (get q "name") updated).
  { intros q Hq.
    destruct (toDelete_member _ _ _ q Hd Hq)
      as [u' [c' [[= <-] [[= <-] [Hin [_ [_ Hn]]]]]]]. auto. }
  assert (Hcre : forall p, In p (to_create d) ->
                           In p updated /\ ~ named_in (get p "name") current).
  { intros p Hp. rewrite toCreate_unfold in Hc.
    rewrite (filter_pure _ (fun p => absent (first_named (get p "name") current)))
      in Hc by reflexivity.
    injection Hc as Hc. rewrite <- Hc in Hp.
    apply List.filter_In in Hp as [Hin Hp].
    rewrite absent_true, first_named_is_Some in Hp. auto. }
  assert (Hupd : forall p, In p (to_update d) ->
                           In p updated /\ named_in (get p "name") current).
  { intros p Hp. apply (toUpdate_callback _ _ _ p Hu) in Hp as [Hin Hm].
    split; [exact Hin|]. apply first_named_is_Some.
    destruct (first_named (get p "name") current); [eauto | destruct Hm]. }
  repeat (split; [assumption|]). split.
  - intros p [H1 H2]. apply Hcre in H1 as [_ H1]. apply Hupd in H2 as [_ H2]. auto.
  - intros q p Hq Hp. apply Hdel in Hq as [_ Hq].
    assert (Hin : In p updated) by (destruct Hp as [Hp|Hp]; [apply Hcre | apply Hupd]; exact Hp).
    destruct (strict_eq (get q "name") (get p "name")) eqn:Heq; [|reflexivity].
    exfalso. apply Hq. exists p. split; [exact Hin|].
    rewrite strict_eq_sym. exact Heq.
Qed.

Lemma reconcile_partition_witness :
  exists updated current,
    Some [status_local; a_text] = Some updated
    /\ Some [status_short; legacy_field; hs_object_id] = Some current
    /\ (forall p, ~ (In p [a_text] /\ In p [status_local])).
Proof.
  destruct (reconcile_partition
              (Some [status_local; a_text])
              (Some [status_short; legacy_field; hs_object_id])
              (Diff [legacy_field] [a_text] [status_local]))
    as [updated [current [H1 [H2 [_ [_ [_ [H3 _]]]]]]]].
  - reflexivity.
  - exists updated, current. auto.
Defined.

(** ** Option lists *)

(** X3: on two lists of option objects [validateOptions] returns, and
    returns true exactly when each list has, for every option of the other,
    an option with the same label and the same value.  How often a pair
    occurs does not count: a list equals itself written twice. *)
Theorem validateOptions_decides_same_set (ra rb : nat) (A B : list value) :
  Forall is_object A -> Forall is_object B ->
  (exists same, validateOptions (VArr ra A) (VArr rb B) = Ok same
                /\ (same = true <-> same_option_set A B))
  /\ validateOptions (VArr ra A) (VArr rb (A ++ A)) = Ok true.
Proof.
  intros HA HB. split; [apply validateOptions_objects; assumption|].
  assert (HAA : Forall is_object (A ++ A)) by (apply List.Forall_app; auto).
  destruct (validateOptions_objects ra rb A (A ++ A) HA HAA) as [same [-> Hsame]].
  f_equal. apply Hsame. split.
  - intros a Ha. exists a. split; [apply in_or_app; auto | apply same_pair_refl].
  - intros b Hb. exists b. split; [|apply same_pair_refl].
    apply in_app_or in Hb. tauto.
Qed.

Lemma validateOptions_decides_same_set_witness :
  (exists same,
      validateOptions (VArr 13 [option_A; option_B]) (VArr 23 [option_B'; option_A'])
      = Ok same
      /\ (same = true <-> same_option_set [option_A; option_B] [option_B'; option_A']))
  /\ validateOptions (VArr 13 [option_A; option_B])
                     (VArr 23 ([option_A; option_B] ++ [option_A; option_B]))
     = Ok true.
Proof.
  apply (validateOptions_decides_same_set 13 23);
    repeat (apply List.Forall_cons; [eexists; eexists; reflexivity|]);
    apply List.Forall_nil.
Defined.

(** X4: [every] tests the element [find] returns, not whether one was
    found.  Against a list whose elements are all falsy (0, the empty string,
    false) a non-empty list never compares equal, not even the list itself:
    such an array-valued field always counts as changed. *)
Theorem validateOptions_falsy_elements (ra rb : nat) (A B : list value) :
  A <> [] ->
  Forall defined A -> Forall defined B ->
  Forall (fun b => truthy b = false) B ->
  validateOptions (VArr ra A) (VArr rb B) = Ok false.
Proof.
  intros Hne HA HB Hfalsy. rewrite validateOptions_pure by assumption.
  destruct A as [|a A]; [congruence|]. simpl.
  assert (Hfound : found (List.find (same_pair a) B) = false).
  { destruct (List.find (same_pair a) B) as [b|] eqn:Hf; [|reflexivity].
    apply List.find_some in Hf as [Hb _]. rewrite List.Forall_forall in Hfalsy.
    simpl. auto. }
  rewrite Hfound. reflexivity.
Qed.

Lemma validateOptions_falsy_elements_witness :
  validateOptions (VArr 1 [VNum 0; VStr EmptyString])
                  (VArr 1 [VNum 0; VStr EmptyString]) = Ok false.
Proof.
  apply validateOptions_falsy_elements.
  - discriminate.
  - repeat (apply List.Forall_cons; [split; discriminate|]); apply List.Forall_nil.
  - repeat (apply List.Forall_cons; [split; discriminate|]); apply List.Forall_nil.
  - repeat (apply List.Forall_cons; [reflexivity|]); apply List.Forall_nil.
Defined.

(** X5: the reducer stops comparing at the first field that differs.  The
    fields after it are not looked at, so a later field on which the
    comparison would throw does no harm. *)
Theorem fieldsDiffer_stops_at_first_difference
    (p e : object) (ks1 ks2 : list string) (k : string) :
  keys p = ks1 ++ k :: ks2 ->
  (forall k', In k' ks1 -> fieldDiffers p e k' = Ok false) ->
  fieldDiffers p e k = Ok true ->
  fieldsDiffer p e = Ok true.
Proof.
  intros Hkeys Hbefore Hk. rewrite fieldsDiffer_reduce, Hkeys. clear Hkeys.
  induction ks1 as [|k1 ks1 IH]; simpl.
  - rewrite Hk. simpl. apply reduce_true.
  - rewrite (Hbefore k1) by (left; reflexivity). simpl.
    apply IH. intros k' Hk'. apply Hbefore. right; exact Hk'.
Qed.

Lemma fieldsDiffer_stops_at_first_difference_witness :
  fieldsDiffer status_typed status_other_type = Ok true
  /\ fieldDiffers status_typed status_other_type "options" = Throw TypeError.
Proof.
  split; [|reflexivity].
  apply (fieldsDiffer_stops_at_first_difference
           status_typed status_other_type ["name"] ["options"] "type").
  - reflexivity.
  - intros k' [<-|[]]. reflexivity.
  - reflexivity.
Defined.

(** ** The index *)

(** X6: the index built from the fetched records answers a name with the
    last record of that name; records of other names do not matter. *)
Theorem keyBy_last_wins (results : list Schema) (k : string) :
  keyBy results !! k
  = List.find (fun s => String.eqb (ToString (name s)) k) (rev results).
Proof.
  induction results as [|s results IH] using rev_ind; [reflexivity|].
  unfold keyBy. rewrite fold_left_app, rev_app_distr. simpl.
  fold (keyBy results).
  destruct (String.eqb_spec (ToString (name s)) k) as [->|Hne].
  - apply lookup_insert_eq.
  - rewrite lookup_insert_ne by exact Hne. exact IH.
Qed.

(** ** The two steps of [deleteSchema] *)

Lemma deleteSchema_cases w id seen :
  (exists data1 data2,
      respond w seen (soft_delete id) = Some data1
      /\ respond w (seen ++ [Http (soft_delete id)]) (purge id) = Some data2
      /\ deleteSchema w id seen
         = ([Http (soft_delete id); Http (purge id)], Ok true))
  \/ (exists data1,
         respond w seen (soft_delete id) = Some data1
         /\ respond w (seen ++ [Http (soft_delete id)]) (purge id) = None
         /\ deleteSchema w id seen
            = ([Http (soft_delete id); Http (purge id); LogError AxiosError;
                Log ("Failed to Delete Schema " +:+ ToString id)], Ok false))
  \/ (respond w seen (soft_delete id) = None
      /\ deleteSchema w id seen
         = ([Http (soft_delete id); LogError AxiosError;
             Log ("Failed to Delete Schema " +:+ ToString id)], Ok false)).
Proof.
  unfold deleteSchema, try_catch, bind, http, log, log_error, ret, throw,
    soft_delete, purge.
  destruct (respond w seen _) as [data1|] eqn:H1; simpl.
  - destruct (respond w (seen ++ _) _) as [data2|] eqn:H2; simpl.
    + left. eauto.
    + right. left. eauto.
  - right. right. eauto.
Qed.

(** X7: [deleteSchema] never throws, and its run is decided by the two
    answers of the registry.  It sends the delete; if that is rejected it
    logs the error and the failure line, sends nothing more and returns
    false.  Otherwise it sends the purge, and returns true when the purge is
    accepted; a rejected purge is logged like a rejected delete. *)
Theorem deleteSchema_two_steps (w : world) (id : value) (seen : list event) :
  deleteSchema w id seen
  = match respond w seen (soft_delete id) with
    | None =>
        ([Http (soft_delete id); LogError AxiosError;
          Log ("Failed to Delete Schema " +:+ ToString id)],
         Ok false)
    | Some _ =>
        match respond w (seen ++ [Http (soft_delete id)]) (purge id) with
        | Some _ => ([Http (soft_delete id); Http (purge id)], Ok true)
        | None =>
            ([Http (soft_delete id); Http (purge id); LogError AxiosError;
              Log ("Failed to Delete Schema " +:+ ToString id)],
             Ok false)
        end
    end.
Proof.
  destruct (deleteSchema_cases w id seen)
    as [[d1 [d2 [H1 [H2 ->]]]]|[[d1 [H1 [H2 ->]]]|[H1 ->]]].
  - rewrite H1, H2. reflexivity.
  - rewrite H1, H2. reflexivity.
  - rewrite H1. reflexivity.
Qed.

(** ** The delete flow on identifiers the index holds *)

Lemma deleteOne_known_requests w meta entry seen :
  known meta entry ->
  exists es,
    deleteOne w meta entry seen = (es, Ok meta)
    /\ 1 <= length (requests es) <= 2
    /\ Forall (fun r => req_method r = DELETE /\ req_body r = NoBody) (requests es).
Proof.
  intros [path [ty [-> [record Hrec]]]]. unfold deleteOne. rewrite Hrec.
  unfold deleteFound.
  destruct (deleteSchema_cases w (objectTypeId record) seen)
    as [[d1 [d2 [_ [_ H]]]]|[[d1 [_ [_ H]]]|[_ H]]];
    rewrite (bind_Ok _ _ _ _ _ H); simpl; eexists; (split; [reflexivity|]); simpl;
    (split; [lia|]); repeat (apply List.Forall_cons; [split; reflexivity|]);
    apply List.Forall_nil.
Qed.

Lemma delete_loop_known_requests w meta entries :
  Forall (known meta) entries ->
  forall seen,
  exists es,
    for_of entries meta (deleteOne w) seen = (es, Ok meta)
    /\ length entries <= length (requests es) <= 2 * length entries
    /\ Forall (fun r => req_method r = DELETE /\ req_body r = NoBody) (requests es).
Proof.
  induction 1 as [|x l Hx _ IH]; intros seen; simpl.
  - exists []. split; [reflexivity|]. split; [simpl; lia | apply List.Forall_nil].
  - destruct (deleteOne_known_requests w meta x seen Hx) as [es1 [H1 [Hn1 Hd1]]].
    destruct (IH (seen ++ es1)) as [es2 [H2 [Hn2 Hd2]]].
    rewrite (bind_Ok _ _ _ _ _ H1), H2. simpl. eexists. split; [reflexivity|].
    rewrite requests_app, length_app. split; [lia|].
    apply List.Forall_app. auto.
Qed.

(** X8: when the fetched index holds the identifier of every entry, the
    delete flow returns whatever the registry answers to the deletions.
    After the fetch it sends nothing but body-less DELETE requests, at
    least one and at most two for each entry. *)
Theorem deleteSchemas_known_returns
    (w : world) (results : list Schema) (entries : list (option (string * string))) :
  remote_schemas w = Some results ->
  Forall (known (keyBy results)) entries ->
  exists es,
    deleteSchemas w entries [] = (fetch :: es, Ok tt)
    /\ length entries <= length (requests es) <= 2 * length entries
    /\ Forall (fun r => req_method r = DELETE /\ req_body r = NoBody) (requests es).
Proof.
  intros Hget Hknown.
  destruct (delete_loop_known_requests w (keyBy results) entries Hknown [fetch])
    as [es [Hloop [Hn Hd]]].
  exists es. unfold deleteSchemas.
  assert (Hfetch : getExistingSchemas w [] = ([fetch], Ok (keyBy results))).
  { rewrite getExistingSchemas_run, Hget. reflexivity. }
  rewrite (bind_Ok _ _ _ _ _ Hfetch). simpl.
  rewrite (bind_Ok _ _ _ _ _ Hloop). simpl. rewrite app_nil_r. auto.
Qed.

Lemma deleteSchemas_known_returns_witness :
  exists es,
    deleteSchemas rejecting_world
      [Some ("/s/deal.json", "deal"); Some ("/s/ticket.json", "ticket")] []
    = (fetch :: es, Ok tt)
    /\ 2 <= length (requests es) <= 2 * 2
    /\ Forall (fun r => req_method r = DELETE /\ req_body r = NoBody) (requests es).
Proof.
  apply (deleteSchemas_known_returns
           rejecting_world
           [schema_of "deal" "2-1" (Some [legacy_field; old_size]) None;
            schema_of "ticket" "2-2" (Some [old_size]) None]
           [Some ("/s/deal.json", "deal"); Some ("/s/ticket.json", "ticket")]).
  - reflexivity.
  - apply List.Forall_cons; [|apply List.Forall_cons; [|apply List.Forall_nil]].
    + exists "/s/deal.json", "deal". split; [reflexivity|].
      eexists. vm_compute. reflexivity.
    + exists "/s/ticket.json", "ticket". split; [reflexivity|].
      eexists. vm_compute. reflexivity.
Defined.

(** ** The create flow beyond the claims *)

(** X9: [createSchema] never throws and sends its one POST.  A rejected
    request gives [null], which is falsy, after the failure line is logged;
    an answer gives its [objectTypeId], whatever that is. *)
Theorem createSchema_never_throws (w : world) (s : Schema) (seen : list event) :
  exists es id,
    createSchema w s seen = (es, Ok id)
    /\ requests es = [schema_post s]
    /\ (respond w seen (schema_post s) = None ->
        id = VNull /\ truthy id = false
        /\ es = [Http (schema_post s);
                 Log ("Failed to Create Schema " +:+ ToString (name s))])
    /\ (forall data id',
          respond w seen (schema_post s) = Some data ->
          member data "objectTypeId" = Ok id' ->
          id = id' /\ es = [Http (schema_post s)]).
Proof.
  destruct (createSchema_returns w s seen) as [es [id [Hrun [Hreq _]]]].
  exists es, id. split; [exact Hrun|]. split; [exact Hreq|].
  apply createSchema_answered in Hrun.
  destruct Hrun as [[data [Hresp [Hm ->]]]|[-> [-> Hwhy]]]; split.
  - congruence.
  - intros data' id' Hresp' Hm'. split; [congruence | reflexivity].
  - auto.
  - intros data id' Hresp Hm.
    destruct Hwhy as [Hnone|[data' [Hresp' Hm']]]; congruence.
Qed.

Lemma createOne_readable w st entry seen :
  readable w entry -> exists es st', createOne w st entry seen = (es, Ok st').
Proof.
  intros [path [ty [s [-> Hfile]]]]. destruct st as [meta all]. unfold createOne.
  assert (Hread : readJSON w path seen = ([Read path], Ok s)).
  { unfold readJSON. rewrite Hfile. reflexivity. }
  rewrite (bind_Ok _ _ _ _ _ Hread). simpl.
  destruct (createSchema_returns w (snd (pick_associations s)) (seen ++ [Read path]))
    as [es1 [id [Hc _]]].
  simpl in Hc. rewrite (bind_Ok _ _ _ _ _ Hc).
  destruct (truthy id); simpl; eauto.
Qed.

Lemma create_loop_readable w entries :
  Forall (readable w) entries ->
  forall st seen, exists es st', for_of entries st (createOne w) seen = (es, Ok st').
Proof.
  induction 1 as [|x l Hx _ IH]; intros st seen; simpl.
  - exists [], st. reflexivity.
  - destruct (createOne_readable w st x seen Hx) as [es1 [st1 H1]].
    destruct (IH st1 (seen ++ es1)) as [es2 [st2 H2]].
    rewrite (bind_Ok _ _ _ _ _ H1), H2. simpl. eauto.
Qed.

Lemma attempted_targets w entries :
  forall seen attempts es,
    attempted w seen entries attempts es ->
    length (declared_by attempts) = length (targets_of w entries).
Proof.
  induction entries as [|entry entries IH]; intros seen attempts es H.
  - destruct attempts; [reflexivity | destruct H].
  - destruct entry as [[path ty]|]; [|destruct H].
    destruct attempts as [|a attempts]; [destruct H|].
    destruct H as [s [es1 [es2 [Hfile [_ [Htargets [_ [_ Hrest]]]]]]]].
    unfold declared_by, targets_of in *. simpl.
    rewrite !length_app, length_map, Hfile, Htargets.
    f_equal. exact (IH _ _ _ Hrest).
Qed.

(** X10: when the fetch succeeds and every file can be read, the create
    flow returns, whatever the registry answers to the posts.  It posts one
    schema for each entry and then one association for each target the
    files declare. *)
Theorem createSchemas_returns_when_readable
    (w : world) (results : list Schema) (entries : list (option (string * string))) :
  remote_schemas w = Some results ->
  Forall (readable w) entries ->
  exists es_create es_associate,
    createSchemas w entries [] = (fetch :: es_create ++ es_associate, Ok tt)
    /\ length (requests es_create) = length entries
    /\ Forall is_schema_post (requests es_create)
    /\ length (requests es_associate) = length (targets_of w entries)
    /\ Forall (fun r => exists a, r = association_post a) (requests es_associate).
Proof.
  intros Hget Hread.
  assert (Hrun : exists es, createSchemas w entries [] = (es, Ok tt)).
  { unfold createSchemas.
    assert (Hfetch : getExistingSchemas w [] = ([fetch], Ok (keyBy results))).
    { rewrite getExistingSchemas_run, Hget. reflexivity. }
    rewrite (bind_Ok _ _ _ _ _ Hfetch).
    destruct (create_loop_readable w entries Hread (keyBy results, []) ([] ++ [fetch]))
      as [ec [[meta' all] Hloop]].
    rewrite (bind_Ok _ _ _ _ _ Hloop).
    destruct (submitAll_run w meta' all (([] ++ [fetch]) ++ ec)) as [ea [Hsub _]].
    rewrite Hsub. simpl. eauto. }
  destruct Hrun as [es Hrun]. rewrite Hrun.
  apply createSchemas_inv in Hrun
    as [results' [attempts [ec [ea [_ [Hatt [-> Hreq]]]]]]].
  exists ec, ea. split; [reflexivity|].
  destruct (attempted_requests _ _ _ _ _ Hatt) as [_ [Hlen Hposts]].
  split; [exact Hlen|]. split; [exact Hposts|].
  rewrite Hreq, length_map. split; [exact (attempted_targets _ _ _ _ _ Hatt)|].
  apply List.Forall_forall. intros r Hr. apply List.in_map_iff in Hr as [a [<- _]].
  eauto.
Qed.

Lemma createSchemas_returns_when_readable_witness :
  exists es_create es_associate,
    createSchemas existing_world batch [] = (fetch :: es_create ++ es_associate, Ok tt)
    /\ length (requests es_create) = 2
    /\ Forall is_schema_post (requests es_create)
    /\ length (requests es_associate) = 1
    /\ Forall (fun r => exists a, r = association_post a) (requests es_associate).
Proof.
  apply (createSchemas_returns_when_readable
           existing_world [schema_of "company" "2-1" None None] batch).
  - reflexivity.
  - apply List.Forall_cons; [|apply List.Forall_cons; [|apply List.Forall_nil]].
    + exists "/s/company.json", "company". eexists. split; reflexivity.
    + exists "/s/deal.json", "deal". eexists. split; reflexivity.
Defined.

(** X11: a file that cannot be read stops the create flow at its turn.  The
    schemas of the files before it have been posted, and none of the
    associations those files declare is ever submitted. *)
Theorem createSchemas_unreadable_file
    (w : world) (results : list Schema)
    (before after : list (option (string * string))) (path objectType : string) :
  remote_schemas w = Some results ->
  Forall (readable w) before ->
  read_file w path = None ->
  exists es,
    createSchemas w (before ++ Some (path, objectType) :: after) []
    = (fetch :: es ++ [Read path], Throw ReadError)
    /\ length (requests es) = length before
    /\ Forall is_schema_post (requests es).
Proof.
  intros Hget Hbefore Hfile.
  destruct (create_loop_readable w before Hbefore (keyBy results, []) [fetch])
    as [es [[meta' all] Hloop]].
  exists es. split.
  - unfold createSchemas.
    assert (Hfetch : getExistingSchemas w [] = ([fetch], Ok (keyBy results))).
    { rewrite getExistingSchemas_run, Hget. reflexivity. }
    rewrite (bind_Ok _ _ _ _ _ Hfetch). simpl.
    assert (Hall : for_of (before ++ Some (path, objectType) :: after)
                          (keyBy results, []) (createOne w) [fetch]
                   = (es ++ [Read path], Throw ReadError)).
    { rewrite (for_of_app _ _ _ _ _ _ _ Hloop). simpl.
      unfold readJSON, bind. rewrite Hfile. reflexivity. }
    rewrite (bind_Throw _ _ _ _ _ Hall). reflexivity.
  - apply create_loop_summary in Hloop as [attempts [Hatt _]].
    destruct (attempted_requests _ _ _ _ _ Hatt) as [_ [Hlen Hposts]]. auto.
Qed.

Lemma createSchemas_unreadable_file_witness :
  exists es,
    createSchemas
      company_only_world
      ([Some ("/s/company.json", "company")] ++ Some ("/s/deal.json", "deal") :: []) []
    = (fetch :: es ++ [Read "/s/deal.json"], Throw ReadError)
    /\ length (requests es) = 1
    /\ Forall is_schema_post (requests es).
Proof.
  apply (createSchemas_unreadable_file
           company_only_world
           [] [Some ("/s/company.json", "company")] [] "/s/deal.json" "deal").
  - reflexivity.
  - apply List.Forall_cons; [|apply List.Forall_nil].
    exists "/s/company.json", "company". eexists. split; reflexivity.
  - reflexivity.
Defined.

Lemma createOne_stripped w st entry seen es r :
  createOne w st entry seen = (es, r) -> Forall stripped (requests es).
Proof.
  destruct st as [meta all]. unfold createOne.
  destruct entry as [[path ty]|]; [|intros [= <- _]; apply List.Forall_nil].
  assert (Hread : forall es' r', readJSON w path seen = (es', r') -> es' = [Read path]).
  { unfold readJSON. intros es' r' [= <- _]. reflexivity. }
  intros H. apply bind_inv in H as [[er [s [e2 [Hr [H ->]]]]]|[e [Hr _]]];
    rewrite (Hread _ _ Hr) in *; [|apply List.Forall_nil].
  simpl in H.
  destruct (createSchema_returns w (snd (pick_associations s)) (seen ++ [Read path]))
    as [es1 [id [Hc [Hone _]]]].
  simpl in Hc. rewrite (bind_Ok _ _ _ _ _ Hc) in H.
  assert (Hes : requests e2 = requests es1).
  { destruct (truthy id); simpl in H; injection H as <- _;
      rewrite ?requests_app, ?app_nil_r; simpl; rewrite ?app_nil_r; reflexivity. }
  simpl. rewrite Hes, Hone.
  apply List.Forall_cons; [reflexivity | apply List.Forall_nil].
Qed.

Lemma create_loop_stripped w entries st seen es r :
  for_of entries st (createOne w) seen = (es, r) -> Forall stripped (requests es).
Proof.
  revert st seen es. induction entries as [|entry entries IH]; intros st seen es H.
  - injection H as <- _. apply List.Forall_nil.
  - simpl in H.
    apply bind_inv in H as [[e1 [st1 [e2 [Hone [Hrest ->]]]]]|[e [Hone _]]].
    + rewrite requests_app. apply List.Forall_app. split.
      * exact (createOne_stripped _ _ _ _ _ _ Hone).
      * exact (IH _ _ _ Hrest).
    + exact (createOne_stripped _ _ _ _ _ _ Hone).
Qed.

(** X12: [pick] takes the [associations] key off every schema before it
    is posted: no schema the create flow sends, on any run, still carries
    it. *)
Theorem createSchemas_posts_without_associations
    (w : world) (entries : list (option (string * string)))
    (es : list event) (r : result unit) (s : Schema) :
  createSchemas w entries [] = (es, r) ->
  In (schema_post s) (requests es) ->
  associations s = None.
Proof.
  unfold createSchemas. intros H Hin.
  assert (Hall : Forall stripped (requests es)).
  { apply bind_inv in H as [[e0 [meta [e1 [Hget [H ->]]]]]|[e' [Hget _]]];
      rewrite getExistingSchemas_run in Hget; injection Hget as <- Hget;
      (apply List.Forall_cons; [exact I|]); [|apply List.Forall_nil].
    apply bind_inv in H as [[ec [[meta' all] [ea [Hloop [Hsub ->]]]]]|[e' [Hloop _]]].
    - rewrite requests_app. apply List.Forall_app. split.
      + exact (create_loop_stripped _ _ _ _ _ _ Hloop).
      + destruct (submitAll_run w meta' all ([] ++ [fetch] ++ ec)) as [ea' [Hsub' Hreq]].
        simpl in Hsub, Hsub'. rewrite Hsub in Hsub'. injection Hsub' as <-.
        rewrite Hreq. apply List.Forall_forall. intros q Hq.
        apply List.in_map_iff in Hq as [a [<- _]]. exact I.
    - exact (create_loop_stripped _ _ _ _ _ _ Hloop). }
  rewrite List.Forall_forall in Hall. exact (Hall _ Hin).
Qed.

Lemma createSchemas_posts_without_associations_witness :
  associations (local_schema "company" None None) = None.
Proof.
  apply (createSchemas_posts_without_associations
           fresh_world batch
           (fst (createSchemas fresh_world batch []))
           (snd (createSchemas fresh_world batch []))
           (local_schema "company" None None)).
  - vm_compute. reflexivity.
  - vm_compute. right. left. reflexivity.
Defined.

(** ** The update flow beyond the claims *)

(** X13: [updateSchema] sends a DELETE for nothing but a property of the
    current list whose name holds neither [hs_] nor [hubspot_], at any
    position, and that no updated property has by name; the request names
    the property on the record's objectTypeId. *)
Theorem updateSchema_deletes_only_unreserved
    (w : world) (s record : Schema) (seen es : list event) (r : result Schema)
    (req : request) :
  updateSchema w s record seen = (es, r) ->
  In req (requests es) ->
  req_method req = DELETE ->
  exists updated current q,
    properties s = Some updated /\ properties record = Some current
    /\ In q current /\ req = delete_request record q
    /\ includes (get q "name") "hs_" = Ok false
    /\ includes (get q "name") "hubspot_" = Ok false
    /\ ~ named_in (get q "name") updated.
Proof.
  intros Hrun Hin Hdel.
  destruct (reconcile (properties s) (properties record)) as [d|e] eqn:Hd.
  - destruct (updateSchema_issues w s record d Hd _ _ _ Hrun) as [[k Hk] _].
    assert (Hplanned : In req (planned record d)).
    { rewrite Hk. apply in_or_app. left. exact Hin. }
    unfold planned in Hplanned.
    apply in_app_or in Hplanned as [H|H]; [|apply in_app_or in H as [H|H]];
      apply List.in_map_iff in H as [q [<- Hq]]; try discriminate Hdel.
    destruct (reconcile_inv _ _ _ Hd) as [HtoDel _].
    destruct (toDelete_member _ _ _ q HtoDel Hq)
      as [updated [current [Hu [Hc [Hcur [Hhs [Hhub Hn]]]]]]].
    exists updated, current, q. auto 10.
  - rewrite (updateSchema_no_diff w s record e seen Hd) in Hrun.
    injection Hrun as <- _. destruct Hin.
Qed.

Lemma updateSchema_deletes_only_unreserved_witness :
  exists updated current q,
    Some [a_text] = Some updated
    /\ Some [legacy_field; hs_object_id; months_active] = Some current
    /\ In q current
    /\ Request DELETE "/properties/v2/2-1/properties/named/legacy_field" NoBody
       = delete_request
           (schema_of "deal" "2-1" (Some [legacy_field; hs_object_id; months_active]) None)
           q
    /\ includes (get q "name") "hs_" = Ok false
    /\ includes (get q "name") "hubspot_" = Ok false
    /\ ~ named_in (get q "name") updated.
Proof.
  apply (updateSchema_deletes_only_unreserved
           deal_world
           (local_schema "deal" (Some [a_text]) None)
           (schema_of "deal" "2-1" (Some [legacy_field; hs_object_id; months_active]) None)
           []
           (fst (updateSchema deal_world
                   (local_schema "deal" (Some [a_text]) None)
                   (schema_of "deal" "2-1"
                      (Some [legacy_field; hs_object_id; months_active]) None) []))
           (snd (updateSchema deal_world
                   (local_schema "deal" (Some [a_text]) None)
                   (schema_of "deal" "2-1"
                      (Some [legacy_field; hs_object_id; months_active]) None) []))).
  - vm_compute. reflexivity.
  - vm_compute. left. reflexivity.
  - reflexivity.
Defined.

Lemma for_of_returns {A} (body : A -> M unit) l :
  (forall x seen, exists es, body x seen = (es, Ok tt)) ->
  forall seen, exists es, for_of l tt (fun _ x => body x) seen = (es, Ok tt).
Proof.
  intros Hbody. induction l as [|x l IH]; intros seen; simpl.
  - exists []. reflexivity.
  - destruct (Hbody x seen) as [es1 H1]. destruct (IH (seen ++ es1)) as [es2 H2].
    rewrite (bind_Ok _ _ _ _ _ H1), H2. simpl. eauto.
Qed.

Lemma deleteProperty_accepted w cur p seen :
  accepts_mutations w -> exists es, deleteProperty w cur p seen = (es, Ok tt).
Proof.
  intros Hacc. unfold deleteProperty, bind, log, http, ret. simpl.
  match goal with
  | |- context [respond w ?h ?q] =>
      destruct (Hacc h q (or_introl eq_refl)) as [v Hv]; rewrite Hv
  end.
  simpl. eauto.
Qed.

Lemma createProperty_accepted w cur p seen :
  accepts_mutations w -> exists es, createProperty w cur p seen = (es, Ok tt).
Proof.
  intros Hacc. unfold createProperty, bind, log, http, ret. simpl.
  match goal with
  | |- context [respond w ?h ?q] =>
      destruct (Hacc h q (or_intror eq_refl)) as [v Hv]; rewrite Hv
  end.
  simpl. eauto.
Qed.

Lemma updateProperty_returns w cur p seen :
  exists es, updateProperty w cur p seen = (es, Ok tt).
Proof.
  unfold updateProperty, bind, try_catch, log, log_error, http, ret. simpl.
  destruct (respond w _ _); simpl; eauto.
Qed.

Lemma updateSchema_result w s record seen es record' :
  updateSchema w s record seen = (es, Ok record') ->
  record' = snd (pick_properties record).
Proof.
  unfold updateSchema. simpl. intros H.
  apply bind_inv in H as [[e1 [d [e2 [_ [H _]]]]]|[e [_ [=]]]].
  apply bind_inv in H as [[e3 [u [e4 [_ [H _]]]]]|[e [_ [=]]]].
  injection H as _ <-. reflexivity.
Qed.

(** X14: when the registry accepts every DELETE and POST and the diff is
    computed, [updateSchema] returns after sending every planned request,
    whatever the registry answers to the PATCH requests: a rejected update
    is logged and the loop goes on. *)
Theorem updateSchema_returns_when_accepted
    (w : world) (s record : Schema) (d : diff) (seen : list event) :
  accepts_mutations w ->
  reconcile (properties s) (properties record) = Ok d ->
  exists es,
    updateSchema w s record seen = (es, Ok (snd (pick_properties record)))
    /\ requests es = planned record d.
Proof.
  intros Hacc Hd.
  assert (Hrun : exists es r', updateSchema w s record seen = (es, Ok r')).
  { unfold updateSchema. simpl. rewrite Hd. unfold applyDiff.
    assert (Hlift : lift (Ok d) seen = ([], Ok d)) by reflexivity.
    rewrite (bind_Ok _ _ _ _ _ Hlift).
    destruct (for_of_returns (deleteProperty w (snd (pick_properties record)))
                (to_delete d)
                (fun x h => deleteProperty_accepted w _ x h Hacc) (seen ++ []))
      as [e1 H1].
    destruct (for_of_returns (createProperty w (snd (pick_properties record)))
                (to_create d)
                (fun x h => createProperty_accepted w _ x h Hacc) ((seen ++ []) ++ e1))
      as [e2 H2].
    destruct (for_of_returns (updateProperty w (snd (pick_properties record)))
                (to_update d)
                (fun x h => updateProperty_returns w _ x h) (((seen ++ []) ++ e1) ++ e2))
      as [e3 H3].
    simpl in H1, H2, H3.
    assert (Happly : applyDiff w (snd (pick_properties record)) d (seen ++ [])
                     = (e1 ++ e2 ++ e3, Ok tt)).
    { unfold applyDiff. rewrite (bind_Ok _ _ _ _ _ H1). simpl.
      rewrite (bind_Ok _ _ _ _ _ H2). simpl. rewrite H3. reflexivity. }
    unfold applyDiff in Happly. simpl in Happly.
    rewrite (bind_Ok _ _ _ _ _ Happly). simpl. eauto. }
  destruct Hrun as [es [r' Hrun]].
  pose proof (updateSchema_result _ _ _ _ _ _ Hrun) as ->.
  exists es. split; [exact Hrun|].
  destruct (updateSchema_issues w s record d Hd _ _ _ Hrun) as [_ Hall].
  exact (Hall _ eq_refl).
Qed.

Lemma updateSchema_returns_when_accepted_witness :
  exists es,
    updateSchema patch_rejecting_world
      (local_schema "deal" (Some [status_local; a_text]) None)
      (schema_of "deal" "2-1" (Some [status_short; legacy_field]) None) []
    = (es, Ok (snd (pick_properties
                      (schema_of "deal" "2-1" (Some [status_short; legacy_field]) None))))
    /\ requests es
       = planned (schema_of "deal" "2-1" (Some [status_short; legacy_field]) None)
                 (Diff [legacy_field] [a_text] [status_local]).
Proof.
  apply (updateSchema_returns_when_accepted patch_rejecting_world).
  - intros seen [m u b] [H|H]; simpl in H; subst m; simpl; eauto.
  - reflexivity.
Defined.

(** X15: a turn of the update loop that returns leaves in the index the
    record without its property list, under the same keys.  A later file
    with the same identifier is read and then fails on the missing list:
    one identifier can be reconciled once in a run. *)
Theorem updateOne_takes_the_properties
    (w : world) (meta meta' : gmap string Schema) (path objectType : string)
    (s record : Schema) (seen es : list event) :
  read_file w path = Some s ->
  meta !! objectType = Some record ->
  updateOne w meta (Some (path, objectType)) seen = (es, Ok meta') ->
  meta' = <[objectType := snd (pick_properties record)]> meta
  /\ dom meta' = dom meta
  /\ forall path2 s2 seen2,
       read_file w path2 = Some s2 ->
       updateOne w meta' (Some (path2, objectType)) seen2
       = ([Read path2], Throw TypeError).
Proof.
  intros Hfile Hrec Hrun.
  assert (Hmeta : meta' = <[objectType := snd (pick_properties record)]> meta).
  { unfold updateOne in Hrun.
    assert (Hread : readJSON w path seen = ([Read path], Ok s)).
    { unfold readJSON. rewrite Hfile. reflexivity. }
    rewrite (bind_Ok _ _ _ _ _ Hread), Hrec in Hrun. simpl in Hrun.
    destruct (bind (updateSchema w s record) _ (seen ++ [Read path]))
      as [es' r'] eqn:Hturn.
    simpl in Hrun. injection Hrun as _ ->.
    apply bind_inv in Hturn as [[e1 [rec' [e2 [Hup [H _]]]]]|[e [_ [=]]]].
    apply updateSchema_result in Hup as ->. injection H as _ <-. reflexivity. }
  subst meta'. split; [reflexivity|]. split.
  - apply dom_insert_lookup_L. eauto.
  - intros path2 s2 seen2 Hfile2. unfold updateOne.
    assert (Hread : readJSON w path2 seen2 = ([Read path2], Ok s2)).
    { unfold readJSON. rewrite Hfile2. reflexivity. }
    rewrite (bind_Ok _ _ _ _ _ Hread), lookup_insert_eq.
    assert (Hno : reconcile (properties s2)
                            (properties (snd (pick_properties record)))
                  = Throw TypeError) by reflexivity.
    rewrite (bind_Throw _ _ _ _ _ (updateSchema_no_diff w s2 _ _ _ Hno)).
    reflexivity.
Qed.

Lemma updateOne_takes_the_properties_witness :
  dom (<["deal" := snd (pick_properties
                          (schema_of "deal" "2-1" (Some [legacy_field]) None))]>
         (keyBy [schema_of "deal" "2-1" (Some [legacy_field]) None]))
  = dom (keyBy [schema_of "deal" "2-1" (Some [legacy_field]) None]).
Proof.
  eapply (updateOne_takes_the_properties
            ticket_world
            (keyBy [schema_of "deal" "2-1" (Some [legacy_field]) None])
            _ "/s/deal.json" "deal"
            (local_schema "deal" (Some [a_text]) None)
            (schema_of "deal" "2-1" (Some [legacy_field]) None)
            [fetch]
            (fst (updateOne ticket_world
                    (keyBy [schema_of "deal" "2-1" (Some [legacy_field]) None])
                    (Some ("/s/deal.json", "deal")) [fetch]))).
  - reflexivity.
  - vm_compute. reflexivity.
  - vm_compute. reflexivity.
Defined.

(** ** [objectTypeRegex] *)

Lemma string_app_assoc (a b c : string) : (a +:+ b) +:+ c = a +:+ b +:+ c.
Proof.
  induction a as [|x a IH]; [reflexivity|].
  change (String x ((a +:+ b) +:+ c) = String x (a +:+ b +:+ c)).
  f_equal. exact IH.
Qed.

Lemma dot_json_inv s c :
  dot_json s = Some c ->
  any_char c = true /\ exists rest, s = String c ("json" +:+ rest).
Proof.
  destruct s as [|a s]; [discriminate|]. unfold dot_json.
  destruct (String.prefix "json" s) eqn:Hp;
    destruct (any_char a) eqn:Ha; cbn [andb]; try discriminate.
  intros [= <-]. split; [exact Ha|].
  apply prefix_split in Hp as [rest ->]. eauto.
Qed.

Lemma group_json_inv s :
  forall g c,
    group_json s = Some (g, c) ->
    g <> EmptyString /\ string_forall type_char g = true /\ any_char c = true
    /\ exists rest, s = g +:+ String c ("json" +:+ rest).
Proof.
  induction s as [|a s IH]; intros g c H; [discriminate|].
  cbn [group_json] in H. destruct (type_char a) eqn:Ha; [|discriminate].
  destruct (group_json s) as [[g' c']|] eqn:Hg.
  - injection H as <- <-. destruct (IH _ _ eq_refl) as [_ [Hall [Hc [rest Hs]]]].
    split; [discriminate|]. split; [cbn [string_forall]; rewrite Ha, Hall; reflexivity|].
    split; [exact Hc|]. exists rest. rewrite Hs. reflexivity.
  - destruct (dot_json s) as [c'|] eqn:Hd; [|discriminate]. injection H as <- <-.
    apply dot_json_inv in Hd as [Hc [rest Hs]].
    split; [discriminate|]. split; [cbn [string_forall]; rewrite Ha; reflexivity|].
    split; [exact Hc|]. exists rest. rewrite Hs. reflexivity.
Qed.

Lemma match_here_inv s :
  forall dir g c,
    match_here s = Some (dir, g, c) ->
    dir <> EmptyString /\ string_forall path_char dir = true
    /\ g <> EmptyString /\ string_forall type_char g = true /\ any_char c = true
    /\ exists rest, s = dir +:+ "/" +:+ g +:+ String c ("json" +:+ rest).
Proof.
  induction s as [|a s IH]; intros dir g c H; [discriminate|].
  cbn [match_here] in H. destruct (path_char a) eqn:Ha; [|discriminate].
  destruct (match_here s) as [[[dir' g'] c']|] eqn:Hm.
  - injection H as <- <- <-.
    destruct (IH _ _ _ eq_refl) as [_ [Hdir [Hg [Hall [Hc [rest Hs]]]]]].
    split; [discriminate|].
    split; [cbn [string_forall]; rewrite Ha, Hdir; reflexivity|].
    repeat (split; [assumption|]). exists rest. rewrite Hs. reflexivity.
  - destruct s as [|b s']; [discriminate|].
    destruct b as [[|] [|] [|] [|] [|] [|] [|] [|]]; try discriminate H.
    destruct (group_json s') as [[g' c']|] eqn:Hg; [|discriminate].
    injection H as <- <- <-.
    apply group_json_inv in Hg as [Hg [Hall [Hc [rest Hs]]]].
    split; [discriminate|].
    split; [cbn [string_forall]; rewrite Ha; reflexivity|].
    repeat (split; [assumption|]). exists rest. rewrite Hs. reflexivity.
Qed.

Lemma matchObjectType_inv x :
  forall filePath objectType,
    matchObjectType x = Some (filePath, objectType) ->
    exists dir c pre post,
      dir <> EmptyString /\ string_forall path_char dir = true
      /\ objectType <> EmptyString /\ string_forall type_char objectType = true
      /\ any_char c = true
      /\ filePath = dir +:+ "/" +:+ objectType +:+ String c "json"
      /\ x = pre +:+ filePath +:+ post.
Proof.
  induction x as [|a x IH]; intros fp ty H.
  - cbv in H. discriminate H.
  - cbn [matchObjectType] in H.
    destruct (match_here (String a x)) as [[[dir g] c]|] eqn:Hm.
    + injection H as <- <-.
      apply match_here_inv in Hm as [Hdir [Hd [Hg [Hall [Hc [rest Hs]]]]]].
      exists dir, c, EmptyString, rest. repeat (split; [assumption|]).
      split; [reflexivity|]. rewrite Hs. cbn [String.append].
      rewrite !string_app_assoc. reflexivity.
    + destruct (IH _ _ H) as [dir [c [pre [post [Hdir [Hd [Hg [Hall [Hc [Hfp Hx]]]]]]]]]].
      exists dir, c, (String a pre), post. repeat (split; [assumption|]).
      rewrite Hx. reflexivity.
Qed.

Lemma type_char_free (c : ascii) (g : string) :
  type_char c = false -> string_forall type_char g = true ->
  str_includes (String c EmptyString) g = false.
Proof.
  intros Hc. induction g as [|a g IH]; intros Hall; [reflexivity|].
  cbn [string_forall] in Hall. apply andb_true_iff in Hall as [Ha Hg].
  cbn [str_includes]. rewrite (IH Hg), orb_false_r.
  cbn [String.prefix]. destruct (ascii_dec c a) as [->|Hne]; [congruence | reflexivity].
Qed.

(** X16: what a match of [objectTypeRegex] is.  The identifier captured is
    a non-empty run of lower-case letters and underscores, so it has none of
    the path characters [.], [[] and []] of [_.get]; the text matched, which
    the commands use as the file path, is a non-empty run of [/], letters
    and digits, a [/], the identifier, any one character and [json], and it
    occurs in the path that was matched. *)
Theorem matchObjectType_shape (x filePath objectType : string) :
  matchObjectType x = Some (filePath, objectType) ->
  objectType <> EmptyString
  /\ string_forall type_char objectType = true
  /\ (exists dir c,
        dir <> EmptyString /\ string_forall path_char dir = true
        /\ any_char c = true
        /\ filePath = dir +:+ "/" +:+ objectType +:+ String c "json")
  /\ is_substring filePath x
  /\ str_includes "." objectType = false
  /\ str_includes "[" objectType = false
  /\ str_includes "]" objectType = false.
Proof.
  intros H.
  destruct (matchObjectType_inv _ _ _ H)
    as [dir [c [pre [post [Hdir [Hd [Hg [Hall [Hc [Hfp Hx]]]]]]]]]].
  split; [exact Hg|]. split; [exact Hall|].
  split; [exists dir, c; auto|].
  split; [exists pre, post; exact Hx|].
  repeat split; apply type_char_free; (reflexivity || exact Hall).
Qed.

Lemma matchObjectType_shape_witness :
  is_substring "schemas/deal.json" "my-schemas/deal.json.bak"
  /\ str_includes "." "deal" = false.
Proof.
  destruct (matchObjectType_shape "my-schemas/deal.json.bak" "schemas/deal.json" "deal")
    as [_ [_ [_ [Hsub [Hdot _]]]]].
  - vm_compute. reflexivity.
  - split; assumption.
Defined.





(** X18: a path that begins with a character outside [/], letters and
    digits, such as the dot of [./schemas/deal.json], is matched from a later
    position: the text used as the file path is not the path that was
    globbed. *)
Theorem matchObjectType_skips_foreign_start
    (c : ascii) (x filePath objectType : string) :
  path_char c = false ->
  matchObjectType (String c x) = Some (filePath, objectType) ->
  matchObjectType x = Some (filePath, objectType)
  /\ filePath <> String c x.
Proof.
  intros Hc H. cbn [matchObjectType match_here] in H. rewrite Hc in H.
  split; [exact H|].
  destruct (matchObjectType_inv _ _ _ H)
    as [dir [c' [_ [_ [Hdir [Hd [_ [_ [_ [Hfp _]]]]]]]]]].
  intros Heq. destruct dir as [|d dir]; [congruence|].
  rewrite Hfp in Heq. injection Heq as -> _.
  cbn [string_forall] in Hd. rewrite Hc in Hd. discriminate Hd.
Qed.

Lemma matchObjectType_skips_foreign_start_witness :
  matchObjectType "/schemas/deal.json" = Some ("/schemas/deal.json", "deal")
  /\ "/schemas/deal.json" <> "./schemas/deal.json".
Proof.
  apply (matchObjectType_skips_foreign_start "."%char); vm_compute; reflexivity.
Defined.

(** ** The commands as a whole *)

(** X19: when the fetch fails, each command throws the rejection at once:
    no file is read, nothing is logged and no change is requested. *)
Theorem commands_abort_on_failed_fetch
    (w : world) (entries : list (option (string * string))) (seen : list event) :
  remote_schemas w = None ->
  createSchemas w entries seen = ([fetch], Throw AxiosError)
  /\ deleteSchemas w entries seen = ([fetch], Throw AxiosError)
  /\ updateSchemas w entries seen = ([fetch], Throw AxiosError).
Proof.
  intros Hget.
  assert (Hfetch : getExistingSchemas w seen = ([fetch], Throw AxiosError)).
  { rewrite getExistingSchemas_run, Hget. reflexivity. }
  unfold createSchemas, deleteSchemas, updateSchemas.
  rewrite !(bind_Throw _ _ _ _ _ Hfetch). auto.
Qed.

Lemma commands_abort_on_failed_fetch_witness :
  createSchemas unreachable_world batch [] = ([fetch], Throw AxiosError)
  /\ deleteSchemas unreachable_world batch [] = ([fetch], Throw AxiosError)
  /\ updateSchemas unreachable_world batch [] = ([fetch], Throw AxiosError).
Proof.
  apply (commands_abort_on_failed_fetch unreachable_world batch []). reflexivity.
Defined.

Lemma deleteFound_no_read w meta ty id seen es r :
  deleteFound w meta ty id seen = (es, r) -> Forall not_a_read es.
Proof.
  unfold deleteFound.
  destruct (deleteSchema_cases w id seen)
    as [[d1 [d2 [_ [_ H]]]]|[[d1 [_ [_ H]]]|[_ H]]];
    rewrite (bind_Ok _ _ _ _ _ H); simpl; intros [= <- _];
    repeat (apply List.Forall_cons; [exact I|]); apply List.Forall_nil.
Qed.

Lemma deleteOne_no_read w meta entry seen es r :
  deleteOne w meta entry seen = (es, r) -> Forall not_a_read es.
Proof.
  unfold deleteOne. destruct entry as [[path ty]|]; [|intros [= <- _]; apply List.Forall_nil].
  destruct (meta !! ty) as [record|]; [apply deleteFound_no_read|].
  destruct (inherited ty); [apply deleteFound_no_read|].
  intros [= <- _]. apply List.Forall_nil.
Qed.

Lemma delete_loop_no_read w entries :
  forall meta seen es r,
    for_of entries meta (deleteOne w) seen = (es, r) -> Forall not_a_read es.
Proof.
  induction entries as [|entry entries IH]; intros meta seen es r H.
  - injection H as <- _. apply List.Forall_nil.
  - simpl in H.
    apply bind_inv in H as [[e1 [m1 [e2 [Hone [Hrest ->]]]]]|[e [Hone _]]].
    + apply List.Forall_app. split.
      * exact (deleteOne_no_read _ _ _ _ _ _ Hone).
      * exact (IH _ _ _ _ Hrest).
    + exact (deleteOne_no_read _ _ _ _ _ _ Hone).
Qed.

(** X20: the delete flow never reads a file: it uses the paths for the
    identifiers captured from them only, so what the files hold, or whether
    they can be parsed, plays no part in it. *)
Theorem deleteSchemas_reads_no_file
    (w : world) (entries : list (option (string * string))) (seen : list event) :
  Forall not_a_read (fst (deleteSchemas w entries seen)).
Proof.
  destruct (deleteSchemas w entries seen) as [es r] eqn:H. simpl.
  unfold deleteSchemas in H.
  apply bind_inv in H as [[e0 [meta [e1 [Hget [H ->]]]]]|[e [Hget _]]];
    rewrite getExistingSchemas_run in Hget; injection Hget as <- Hget;
    (apply List.Forall_cons; [exact I|]); [|apply List.Forall_nil].
  apply bind_inv in H as [[e2 [m [e3 [Hloop [H ->]]]]]|[e [Hloop _]]].
  - injection H as <- _. rewrite app_nil_r.
    exact (delete_loop_no_read _ _ _ _ _ _ Hloop).
  - exact (delete_loop_no_read _ _ _ _ _ _ Hloop).
Qed.

Lemma updateOne_skipped w meta entry seen :
  skipped w meta entry ->
  exists es,
    updateOne w meta entry seen = (es, Ok meta)
    /\ requests es = [] /\ length es = 2.
Proof.
  intros [path [ty [s [-> [Hfile [Hnone Hordinary]]]]]]. unfold updateOne.
  assert (Hread : readJSON w path seen = ([Read path], Ok s)).
  { unfold readJSON. rewrite Hfile. reflexivity. }
  rewrite (bind_Ok _ _ _ _ _ Hread), Hnone, Hordinary. simpl. eauto.
Qed.

Lemma update_loop_skipped w meta entries :
  Forall (skipped w meta) entries ->
  forall seen,
  exists es,
    for_of entries meta (updateOne w) seen = (es, Ok meta)
    /\ requests es = [] /\ length es = 2 * length entries.
Proof.
  induction 1 as [|x l Hx _ IH]; intros seen; simpl.
  - exists []. auto.
  - destruct (updateOne_skipped w meta x seen Hx) as [es1 [H1 [Hr1 Hn1]]].
    destruct (IH (seen ++ es1)) as [es2 [H2 [Hr2 Hn2]]].
    rewrite (bind_Ok _ _ _ _ _ H1), H2. simpl. eexists. split; [reflexivity|].
    rewrite requests_app, Hr1, Hr2, length_app. split; [reflexivity | lia].
Qed.

(** X21: when every file can be read and [meta[objectType]] is [undefined]
    for each (the registry holds none of the identifiers and none of them
    names a member that objects inherit), the update flow returns having
    requested nothing after the fetch: each file is read and its line logged,
    two events a file. *)
Theorem updateSchemas_unknown_types
    (w : world) (results : list Schema) (entries : list (option (string * string))) :
  remote_schemas w = Some results ->
  Forall (skipped w (keyBy results)) entries ->
  exists es,
    updateSchemas w entries [] = (fetch :: es, Ok tt)
    /\ requests es = []
    /\ length es = 2 * length entries.
Proof.
  intros Hget Hskip.
  destruct (update_loop_skipped w (keyBy results) entries Hskip [fetch])
    as [es [Hloop [Hreq Hlen]]].
  exists es. unfold updateSchemas.
  assert (Hfetch : getExistingSchemas w [] = ([fetch], Ok (keyBy results))).
  { rewrite getExistingSchemas_run, Hget. reflexivity. }
  rewrite (bind_Ok _ _ _ _ _ Hfetch). simpl.
  rewrite (bind_Ok _ _ _ _ _ Hloop). simpl. rewrite app_nil_r. auto.
Qed.

Lemma updateSchemas_unknown_types_witness :
  exists es,
    updateSchemas fresh_world batch [] = (fetch :: es, Ok tt)
    /\ requests es = []
    /\ length es = 2 * 2.
Proof.
  apply (updateSchemas_unknown_types fresh_world [] batch).
  - reflexivity.
  - apply List.Forall_cons; [|apply List.Forall_cons; [|apply List.Forall_nil]].
    + exists "/s/company.json", "company". eexists.
      split; [reflexivity|]. split; [reflexivity|]. split; reflexivity.
    + exists "/s/deal.json", "deal". eexists.
      split; [reflexivity|]. split; [reflexivity|]. split; reflexivity.
Defined.

(** X22: the update flow reads a file before it looks its identifier up.
    After files that are skipped (read, with [meta[objectType]] undefined),
    a file that cannot be read ends the run with the read error whatever its
    identifier is, also when the registry does not hold its type and the turn
    would have been skipped. *)
Theorem updateSchemas_reads_before_lookup
    (w : world) (results : list Schema)
    (before after : list (option (string * string))) (path objectType : string) :
  remote_schemas w = Some results ->
  Forall (skipped w (keyBy results)) before ->
  read_file w path = None ->
  exists es,
    updateSchemas w (before ++ Some (path, objectType) :: after) []
    = (fetch :: es ++ [Read path], Throw ReadError)
    /\ requests es = [].
Proof.
  intros Hget Hskip Hfile.
  destruct (update_loop_skipped w (keyBy results) before Hskip [fetch])
    as [es [Hloop [Hreq _]]].
  exists es. split; [|exact Hreq]. unfold updateSchemas.
  assert (Hfetch : getExistingSchemas w [] = ([fetch], Ok (keyBy results))).
  { rewrite getExistingSchemas_run, Hget. reflexivity. }
  rewrite (bind_Ok _ _ _ _ _ Hfetch). simpl.
  assert (Hall : for_of (before ++ Some (path, objectType) :: after)
                        (keyBy results) (updateOne w) [fetch]
                 = (es ++ [Read path], Throw ReadError)).
  { rewrite (for_of_app _ _ _ _ _ _ _ Hloop). simpl.
    unfold readJSON, bind. rewrite Hfile. reflexivity. }
  rewrite (bind_Throw _ _ _ _ _ Hall). reflexivity.
Qed.

Lemma updateSchemas_reads_before_lookup_witness :
  exists es,
    updateSchemas
      company_only_world
      ([Some ("/s/company.json", "company")] ++ Some ("/s/deal.json", "deal") :: []) []
    = (fetch :: es ++ [Read "/s/deal.json"], Throw ReadError)
    /\ requests es = [].
Proof.
  apply (updateSchemas_reads_before_lookup
           company_only_world
           [] [Some ("/s/company.json", "company")] [] "/s/deal.json" "deal").
  - reflexivity.
  - apply List.Forall_cons; [|apply List.Forall_nil].
    exists "/s/company.json", "company". eexists.
    split; [reflexivity|]. split; [reflexivity|]. split; reflexivity.
  - reflexivity.
Defined.

(** * The resolution of identifiers in the create flow *)

(** ** lodash [get] on identifiers without path characters *)

Lemma append_cons (c : ascii) (s t : string) : String c s +:+ t = String c (s +:+ t).
Proof. reflexivity. Qed.

Lemma segments_path_free s :
  path_free s = true -> segments (s +:+ ".objectTypeId") = [s; "objectTypeId"].
Proof.
  induction s as [|c s IH]; intros H; [reflexivity|].
  unfold path_free in H. cbn [string_forall] in H.
  apply andb_true_iff in H as [Hc Hs].
  rewrite append_cons. cbn [segments]. rewrite (IH Hs).
  destruct (Ascii.eqb c "."); [discriminate Hc | reflexivity].
Qed.

Lemma dotted_not_path_free s t : path_free (s +:+ String "." t) = false.
Proof.
  induction s as [|c s IH]; [reflexivity|].
  rewrite append_cons. unfold path_free in *. cbn [string_forall].
  rewrite IH. apply andb_false_r.
Qed.

Lemma lodash_get_resolution meta id :
  path_free (ToString id) = true ->
  meta !! (ToString id +:+ ".objectTypeId") = None ->
  lodash_get meta id = resolution meta id.
Proof.
  intros Hfree Hwhole. unfold lodash_get, resolution.
  rewrite Hwhole, (segments_path_free _ Hfree).
  destruct (meta !! ToString id) as [record|]; [|reflexivity].
  change (walk (schema_value record) ["objectTypeId"]) with (objectTypeId record).
  destruct (objectTypeId record); reflexivity.
Qed.

Lemma lodash_get_simple meta id :
  path_free_keys meta -> path_free (ToString id) = true ->
  lodash_get meta id = resolution meta id.
Proof.
  intros Hkeys Hfree. apply lodash_get_resolution; [exact Hfree|].
  destruct (meta !! (ToString id +:+ ".objectTypeId")) as [record|] eqn:Hk; [|reflexivity].
  apply Hkeys in Hk. change ".objectTypeId" with (String "." "objectTypeId") in Hk.
  rewrite dotted_not_path_free in Hk. discriminate Hk.
Qed.

Lemma resolution_created meta ty id :
  meta !! ty = Some (created_record id) -> truthy id = true ->
  resolution meta (VStr ty) = id.
Proof.
  intros H Hid. unfold resolution. simpl. rewrite H. simpl.
  destruct id; try reflexivity. discriminate Hid.
Qed.

Lemma keyBy_key results k s :
  keyBy results !! k = Some s -> In s results /\ ToString (name s) = k.
Proof.
  induction results as [|x results IH] using rev_ind; [discriminate|].
  unfold keyBy. rewrite fold_left_app. simpl. fold (keyBy results).
  destruct (String.eqb_spec (ToString (name x)) k) as [Heq|Hne].
  - rewrite Heq, lookup_insert_eq. intros [= <-].
    split; [apply in_or_app; right; left; reflexivity | exact Heq].
  - rewrite lookup_insert_ne by exact Hne. intros H. apply IH in H as [Hin Hk].
    split; [apply in_or_app; left; exact Hin | exact Hk].
Qed.

Lemma index_after_key meta attempts k record :
  index_after meta attempts !! k = Some record ->
  is_Some (meta !! k) \/ exists a, In a attempts /\ at_type a = k.
Proof.
  revert meta. induction attempts as [|a attempts IH]; intros meta H.
  - left. eauto.
  - rewrite index_after_cons in H. apply IH in H as [[r Hr]|[b [Hb Hk]]].
    + simpl in Hr. destruct (truthy (at_id a)); [|left; eauto].
      destruct (decide (at_type a = k)) as [Hk|Hk].
      * right. exists a. split; [left; reflexivity | exact Hk].
      * rewrite lookup_insert_ne in Hr by exact Hk. left. eauto.
    + right. exists b. split; [right; exact Hb | exact Hk].
Qed.

Lemma path_free_keys_after results attempts :
  Forall (fun s => path_free (ToString (name s)) = true) results ->
  Forall (fun a => path_free (at_type a) = true) attempts ->
  path_free_keys (index_after (keyBy results) attempts).
Proof.
  intros Hnames Htypes k record H.
  apply index_after_key in H as [[r Hr]|[a [Ha <-]]].
  - apply keyBy_key in Hr as [Hin <-].
    rewrite List.Forall_forall in Hnames. exact (Hnames _ Hin).
  - rewrite List.Forall_forall in Htypes. exact (Htypes _ Ha).
Qed.

Lemma type_char_is_path_free (c : ascii) :
  type_char c = true ->
  negb (Ascii.eqb c "." || Ascii.eqb c "[" || Ascii.eqb c "]") = true.
Proof.
  destruct c as [[|] [|] [|] [|] [|] [|] [|] [|]]; intros H;
    try reflexivity; discriminate H.
Qed.

Lemma captured_path_free g : string_forall type_char g = true -> path_free g = true.
Proof.
  unfold path_free. induction g as [|c g IH]; intros H; [reflexivity|].
  cbn [string_forall] in H |- *. apply andb_true_iff in H as [Hc Hg].
  rewrite (type_char_is_path_free c Hc), (IH Hg). reflexivity.
Qed.

Lemma attempted_captured w files :
  forall seen attempts es,
    attempted w seen (objectTypes files) attempts es ->
    Forall (fun a => string_forall type_char (at_type a) = true) attempts.
Proof.
  induction files as [|x files IH]; intros seen attempts es H.
  - destruct attempts; [apply List.Forall_nil | destruct H].
  - unfold objectTypes in H. cbn [map] in H. fold (objectTypes files) in H.
    destruct (matchObjectType x) as [[path ty]|] eqn:Hm; [|destruct H].
    destruct attempts as [|a attempts]; [destruct H|].
    destruct H as [s [es1 [es2 [_ [Hty [_ [_ [_ Hrest]]]]]]]].
    apply List.Forall_cons; [|exact (IH _ _ _ Hrest)].
    rewrite Hty.
    destruct (matchObjectType_inv _ _ _ Hm) as [_ [_ [_ [_ [_ [_ [_ [Hall _]]]]]]]].
    exact Hall.
Qed.

(** ** C4: an identifier with a dot *)

(** C4: the registry holds a schema named [a.b] under the id [2-9], and the
    file of [company] declares an association to [a.b].  The identifier is a
    key of the index, so the specification has the association submitted with
    toObjectTypeId [2-9].  The code hands lodash the path [a.b.objectTypeId],
    which is read as three segments; the index has no key [a], and the
    association is submitted with the identifier [a.b] unchanged. *)
Theorem createSchemas_dotted_target_not_resolved :
  objectTypes ["/s/company.json"] = [Some ("/s/company.json", "company")]
  /\ remote_schemas dotted_world = Some [schema_of "a.b" "2-9" None None]
  /\ index_after (keyBy [schema_of "a.b" "2-9" None None])
                 [Attempt "company" [VStr "a.b"] (VStr "2-100")] !! "a.b"
     = Some (schema_of "a.b" "2-9" None None)
  /\ resolution (index_after (keyBy [schema_of "a.b" "2-9" None None])
                             [Attempt "company" [VStr "a.b"] (VStr "2-100")])
                (VStr "a.b")
     = VStr "2-9"
  /\ createSchemas dotted_world (objectTypes ["/s/company.json"]) []
     = ([fetch;
         Read "/s/company.json";
         Http (schema_post (local_schema "company" None None));
         Log "Created company";
         Http (association_post
                 {| assoc_name := "company_to_a.b";
                    fromObjectTypeId := VStr "2-100";
                    toObjectTypeId := VStr "a.b" |})],
        Ok tt).
Proof. repeat split; vm_compute; reflexivity. Qed.

(** ** C10: the associations of a file whose creation failed *)

(** C10, as stated, fails: the creation of [company] fails, its association
    is still submitted, but not with the local identifier [company] as
    fromObjectTypeId: the fetched index holds [company], and the lookup
    replaces the identifier by the id stored there. *)
Lemma failed_create_is_resolved_by_fetched_index :
  createSchemas existing_world batch [] = (existing_trace, Ok tt)
  /\ In (Log "Failed to Create Schema company") existing_trace
  /\ forall a, In (Http (association_post a)) existing_trace ->
               fromObjectTypeId a = VStr "2-1" /\ fromObjectTypeId a <> VStr "company".
Proof.
  split; [vm_compute; reflexivity|]. split.
  - do 3 right. left. reflexivity.
  - intros a H. unfold existing_trace in H.
    repeat (destruct H as [H|H]; [try discriminate H|]); [|destruct H].
    injection H as _ <-. split; [reflexivity | discriminate].
Qed.

(** C10, amended: a create flow that returns, run on the files of a glob
    against a registry whose schema names hold no path character, has
    submitted every association declared by a file whose creation returned no
    id.  The fromObjectTypeId submitted is the resolution of the file's
    identifier in the final index: the objectTypeId the index stores under
    it, and the identifier itself where the index stores none.  The index has
    no entry for the identifier exactly when the fetched index had none and
    no file of the batch with that identifier was created. *)
Theorem failed_create_still_associates
    (w : world) (results : list Schema) (files : list string) (es : list event) :
  remote_schemas w = Some results ->
  Forall (fun s => path_free (ToString (name s)) = true) results ->
  createSchemas w (objectTypes files) [] = (es, Ok tt) ->
  exists attempts es_create es_associate,
    attempted w [fetch] (objectTypes files) attempts es_create
    /\ es = fetch :: es_create ++ es_associate
    /\ forall a target,
         In a attempts -> truthy (at_id a) = false -> In target (at_targets a) ->
         (exists to,
            In (association_post
                  {| assoc_name := at_type a +:+ "_to_" +:+ ToString target;
                     fromObjectTypeId :=
                       resolution (index_after (keyBy results) attempts)
                                  (VStr (at_type a));
                     toObjectTypeId := to |})
               (requests es_associate))
         /\ (index_after (keyBy results) attempts !! at_type a = None <->
             keyBy results !! at_type a = None
             /\ forall b, In b attempts -> at_type b = at_type a ->
                          truthy (at_id b) = false)
         /\ (index_after (keyBy results) attempts !! at_type a = None ->
             resolution (index_after (keyBy results) attempts) (VStr (at_type a))
             = VStr (at_type a))
         /\ (forall record,
               index_after (keyBy results) attempts !! at_type a = Some record ->
               objectTypeId record <> VUndefined ->
               resolution (index_after (keyBy results) attempts) (VStr (at_type a))
               = objectTypeId record).
Proof.
  intros Hget Hnames Hrun.
  destruct (createSchemas_inv w _ es Hrun)
    as [results' [attempts [ec [ea [Hget' [Hatt [Hes Hreq]]]]]]].
  assert (results' = results) as -> by congruence.
  exists attempts, ec, ea. split; [exact Hatt|]. split; [exact Hes|].
  assert (Hkeys : path_free_keys (index_after (keyBy results) attempts)).
  { apply path_free_keys_after; [exact Hnames|].
    eapply List.Forall_impl; [|exact (attempted_captured _ _ _ _ _ Hatt)].
    intros a. apply captured_path_free. }
  assert (Htypes := attempted_captured _ _ _ _ _ Hatt).
  rewrite List.Forall_forall in Htypes.
  intros a target Ha Hid Ht. split; [|split; [|split]].
  - exists (lodash_get (index_after (keyBy results) attempts) target).
    rewrite Hreq.
    pose proof (declared_is_submitted (index_after (keyBy results) attempts)
                  attempts a target Ha Ht) as Hsub.
    unfold resolved, declared in Hsub. simpl in Hsub.
    rewrite (lodash_get_simple _ (VStr (at_type a)) Hkeys) in Hsub
      by (apply captured_path_free, Htypes, Ha).
    exact Hsub.
  - apply index_after_None.
  - intros Hnone. unfold resolution. simpl. rewrite Hnone. reflexivity.
  - intros record Hrec Hdef. unfold resolution. simpl. rewrite Hrec.
    destruct (objectTypeId record); congruence.
Qed.

Lemma failed_create_still_associates_witness :
  exists attempts es_create es_associate,
    attempted existing_world [fetch]
              (objectTypes ["/s/company.json"; "/s/deal.json"]) attempts es_create
    /\ existing_trace = fetch :: es_create ++ es_associate.
Proof.
  destruct (failed_create_still_associates
              existing_world [schema_of "company" "2-1" None None]
              ["/s/company.json"; "/s/deal.json"] existing_trace)
    as [attempts [ec [ea [H1 [H2 _]]]]].
  - reflexivity.
  - apply List.Forall_cons; [reflexivity | apply List.Forall_nil].
  - vm_compute. reflexivity.
  - exists attempts, ec, ea. auto.
Defined.

(** ** The two phases of the create flow *)

(** X25: a create flow that returns has two phases.  After the fetch come,
    for every entry in turn, the read of its file and the one POST of its
    schema; only then come the association requests, one for every declared
    association in order.  Where no key of the index holds a path character,
    an association whose two identifiers one lookup resolves is submitted with
    both ends resolved in the index as the creations left it, so an
    association between two types created in the batch carries the two ids the
    registry returned.  A create flow that throws has submitted no
    association. *)
Theorem createSchemas_two_phases
    (w : world) (entries : list (option (string * string))) (es : list event) :
  (forall e, createSchemas w entries [] = (es, Throw e) ->
             forall a, ~ In (association_post a) (requests es))
  /\
  (createSchemas w entries [] = (es, Ok tt) ->
  exists results attempts es_create es_associate,
    remote_schemas w = Some results
    /\ attempted w [fetch] entries attempts es_create
    /\ es = fetch :: es_create ++ es_associate
    /\ length (requests es_create) = length entries
    /\ Forall is_schema_post (requests es_create)
    /\ length (requests es_associate) = length (declared_by attempts)
    /\ (path_free_keys (index_after (keyBy results) attempts) ->
        forall a target,
          In a attempts -> In target (at_targets a) ->
          simple_id (VStr (at_type a)) -> simple_id target ->
          In (association_post
                {| assoc_name := at_type a +:+ "_to_" +:+ ToString target;
                   fromObjectTypeId :=
                     resolution (index_after (keyBy results) attempts)
                                (VStr (at_type a));
                   toObjectTypeId :=
                     resolution (index_after (keyBy results) attempts) target |})
             (requests es_associate))
    /\ (path_free_keys (index_after (keyBy results) attempts) ->
        forall a b,
          last_created attempts a -> last_created attempts b ->
          In (VStr (at_type b)) (at_targets a) ->
          simple_id (VStr (at_type a)) -> simple_id (VStr (at_type b)) ->
          In (association_post
                {| assoc_name := at_type a +:+ "_to_" +:+ at_type b;
                   fromObjectTypeId := at_id a;
                   toObjectTypeId := at_id b |})
             (requests es_associate))).
Proof.
  split; [intros e; apply createSchemas_throws|].
  intros Hrun.
  destruct (createSchemas_inv w entries es Hrun)
    as [results [attempts [ec [ea [Hget [Hatt [Hes Hreq]]]]]]].
  destruct (attempted_requests w entries _ _ _ Hatt) as [_ [Hlen Hposts]].
  exists results, attempts, ec, ea.
  repeat (split; [assumption|]).
  split; [rewrite Hreq; apply length_map|].
  assert (Hone : path_free_keys (index_after (keyBy results) attempts) ->
                 forall a target,
                   In a attempts -> In target (at_targets a) ->
                   simple_id (VStr (at_type a)) -> simple_id target ->
                   In (association_post
                         {| assoc_name := at_type a +:+ "_to_" +:+ ToString target;
                            fromObjectTypeId :=
                              resolution (index_after (keyBy results) attempts)
                                         (VStr (at_type a));
                            toObjectTypeId :=
                              resolution (index_after (keyBy results) attempts)
                                         target |})
                      (requests ea)).
  { intros Hkeys a target Ha Ht [Hfrom _] [Hto _]. rewrite Hreq.
    pose proof (declared_is_submitted (index_after (keyBy results) attempts)
                  attempts a target Ha Ht) as Hsub.
    unfold resolved, declared in Hsub. simpl in Hsub.
    rewrite (lodash_get_simple _ (VStr (at_type a)) Hkeys Hfrom) in Hsub.
    rewrite (lodash_get_simple _ target Hkeys Hto) in Hsub.
    exact Hsub. }
  split; [exact Hone|].
  intros Hkeys a b Ha Hb Htarget Hfrom Hto.
  assert (Hin : In a attempts).
  { destruct Ha as [_ [l1 [l2 [-> _]]]]. apply in_or_app. right; left; reflexivity. }
  pose proof (Hone Hkeys a (VStr (at_type b)) Hin Htarget Hfrom Hto) as Hsub.
  rewrite (resolution_created _ (at_type a) (at_id a)) in Hsub
    by (try apply index_after_created; try apply Ha; assumption).
  rewrite (resolution_created _ (at_type b) (at_id b)) in Hsub
    by (try apply index_after_created; try apply Hb; assumption).
  exact Hsub.
Qed.

Lemma createSchemas_two_phases_witness :
  exists results attempts es_create es_associate,
    remote_schemas fresh_world = Some results
    /\ attempted fresh_world [fetch] batch attempts es_create
    /\ fst (createSchemas fresh_world batch []) = fetch :: es_create ++ es_associate
    /\ length (requests es_create) = length batch
    /\ length (requests es_associate) = length (declared_by attempts).
Proof.
  destruct (createSchemas_two_phases
              fresh_world batch (fst (createSchemas fresh_world batch [])))
    as [_ Hreturns].
  destruct Hreturns
    as [results [attempts [ec [ea [H1 [H2 [H3 [H4 [_ [H5 _]]]]]]]]]].
  - vm_compute. reflexivity.
  - exists results, attempts, ec, ea. auto.
Defined.
